(** * SeeWasm: the traversal engine of [octopus/arch/wasm/graph.py]

    A shallow embedding of the class [Graph]: the cycle pre-pass [pre],
    the recursive visitor [visit], the operator prompt [ask_user_input]
    and the drivers [traverse_one] / [traverse], followed by the
    properties of the engine that the specification states. The
    options of [eunomia/arch/wasm/configuration.py] and the opcode
    decoder of [seewasm/arch/wasm/disassembler.py] are embedded after
    the engine, and their properties come last. *)

From Stdlib Require Import ZArith Lia Ascii String.
From stdpp Require Import gmap strings list relations pretty.

Local Open Scope Z_scope.

(* set_solver clears hypotheses that may already be gone *)
#[global] Set Warnings "-clear-no-such-hyp".

(** ** Python values *)

(** The four edge types of the CFG (graph.py, line 96). *)
Inductive edge_type :=
  | unconditional
  | fallthrough
  | conditional_true
  | conditional_false.

#[global] Instance edge_type_eq_dec : EqDecision edge_type.
Proof. solve_decision. Defined.

(** [type in ['conditional_true', 'conditional_false']] *)
Definition is_conditional (ty : edge_type) : bool :=
  match ty with
  | conditional_true | conditional_false => true
  | _ => false
  end.

(** Exceptions that the modelled code can raise. *)
Inductive exn :=
  | KeyError
  | IndexError
  | TypeError
  | EOFError
  | SolverException
  | EmulatorException.

#[global] Instance exn_eq_dec : EqDecision exn.
Proof. solve_decision. Defined.

(** Outcome of a piece of Python code: a value, a raised exception, or
    the recursion budget of the model ran out (the Python code would
    still be running). *)
Inductive res (A : Type) :=
  | Ok (a : A)
  | Raise (e : exn)
  | OutOfFuel.

Arguments Ok {A} a.
Arguments Raise {A} e.
Arguments OutOfFuel {A}.

#[global] Instance res_bind : MBind res := λ A B k m,
  match m with
  | Ok a => k a
  | Raise e => Raise e
  | OutOfFuel => OutOfFuel
  end.

#[global] Instance res_ret : MRet res := λ A a, Ok a.

Definition of_option {A} (e : exn) (o : option A) : res A :=
  match o with
  | Some a => Ok a
  | None => Raise e
  end.

(** [for x in l: s = body(x, s)] with an exception or a stuck body
    leaving the loop. *)
Fixpoint for_each {A S} (body : A → S → res S) (l : list A) (s : S) : res S :=
  match l with
  | [] => Ok s
  | x :: l' => s' ← body x s; for_each body l' s'
  end.

(** A Python [dict]: keys in insertion order, each key once. *)
Section dict.
Context {K V : Type} `{EqDecision K}.

Fixpoint dict_get (d : list (K * V)) (k : K) : option V :=
  match d with
  | [] => None
  | (k', v) :: d' => if decide (k' = k) then Some v else dict_get d' k
  end.

(** [d[k] = v] *)
Fixpoint dict_set (d : list (K * V)) (k : K) (v : V) : list (K * V) :=
  match d with
  | [] => [(k, v)]
  | (k', v') :: d' =>
      if decide (k' = k) then (k, v) :: d' else (k', v') :: dict_set d' k v
  end.

(** iteration order of [for k in d] *)
Definition dict_keys (d : list (K * V)) : list K := d.*1.

End dict.

(** [defaultdict(int)]: a missing key reads as 0. *)
Definition dd_get (vis : gmap string Z) (blk : string) : Z :=
  default 0 (vis !! blk).

(** Reading [vis[blk]] stores the default under a missing key. *)
Definition dd_touch (vis : gmap string Z) (blk : string) : gmap string Z :=
  match vis !! blk with
  | Some _ => vis
  | None => <[blk := 0]> vis
  end.

(** [l[i]] with Python's negative indices. *)
Definition py_index {A} (l : list A) (i : Z) : res A :=
  let n := Z.of_nat (length l) in
  if bool_decide (0 ≤ i < n) then of_option IndexError (l !! Z.to_nat i)
  else if bool_decide (- n ≤ i < 0) then of_option IndexError (l !! Z.to_nat (n + i))
  else Raise IndexError.

(** ** The class attributes of [Graph] *)

Record Graph (Instr : Type) := {
  (* _func_to_bbs: function name to the names of its blocks *)
  func_to_bbs : gmap string (list string);
  (* _bbs_graph: block name to its outgoing edges, a dict from edge type
     to destination; a defaultdict(dict) *)
  bbs_graph : gmap string (list (edge_type * string));
  (* _bb_to_instructions *)
  bb_to_instructions : gmap string (list Instr);
  (* _loop_maximum_rounds *)
  loop_maximum_rounds : nat;
  (* manual_guide *)
  manual_guide : bool
}.

Arguments func_to_bbs {Instr} _.
Arguments bbs_graph {Instr} _.
Arguments bb_to_instructions {Instr} _.
Arguments loop_maximum_rounds {Instr} _.
Arguments manual_guide {Instr} _.

(** [_loop_maximum_rounds = 5] (graph.py, line 48) *)
Definition default_loop_maximum_rounds : nat := 5.

(** [cls.bbs_graph[blk]]; the [defaultdict] answers a missing block with
    an empty dict. *)
Definition edges_of {Instr} (G : Graph Instr) (blk : string) : list (edge_type * string) :=
  default [] (bbs_graph G !! blk).

(** [extract_basic_blocks] (lines 80-109): the loops over the CFG's
    functions, edges and basic blocks. *)
Definition add_edge (g : gmap string (list (edge_type * string)))
    (e : string * string * edge_type) : gmap string (list (edge_type * string)) :=
  let '(node_from, node_to, ty) := e in
  <[node_from := dict_set (default [] (g !! node_from)) ty node_to]> g.

Definition add_block {Instr}
    (acc : gmap string (list (edge_type * string)) * gmap string (list Instr))
    (bb : string * list Instr) :=
  let '(g, ins) := acc in
  let '(bb_name, instructions) := bb in
  (match g !! bb_name with Some _ => g | None => <[bb_name := []]> g end,
   <[bb_name := instructions]> ins).

Definition extract_basic_blocks {Instr}
    (funcs : list (string * list string))
    (edges : list (string * string * edge_type))
    (bbs : list (string * list Instr)) (guided : bool) : Graph Instr :=
  let f2b := foldl (λ m f, <[f.1 := f.2]> m) ∅ funcs in
  let g := foldl add_edge ∅ edges in
  let '(g, ins) := foldl add_block (g, ∅) bbs in
  {| func_to_bbs := f2b; bbs_graph := g; bb_to_instructions := ins;
     loop_maximum_rounds := default_loop_maximum_rounds;
     manual_guide := guided |}.

(** ** The cycle pre-pass [Graph.pre] (lines 139-146) *)

(** The two mutable arguments of [pre], and the list of blocks [pre] was
    invoked on so far (a ghost record of the walk, not in the code). *)
Record pre_state := {
  p_vis : gmap string Z;
  p_circles : gset string;
  p_calls : list string
}.

Section pre.
Context {Instr : Type} (G : Graph Instr).

Definition pre_body (rec : string → pre_state → res pre_state)
    (blk : string) (st : pre_state) : res pre_state :=
  let calls := p_calls st ++ [blk] in
  if bool_decide (dd_get (p_vis st) blk = 1)
     && bool_decide (length (edges_of G blk) = 2%nat)
  then
    Ok {| p_vis := p_vis st; p_circles := {[blk]} ∪ p_circles st; p_calls := calls |}
  else
    for_each
      (λ ty st, nxt ← of_option KeyError (dict_get (edges_of G blk) ty); rec nxt st)
      (dict_keys (edges_of G blk))
      {| p_vis := <[blk := 1]> (p_vis st); p_circles := p_circles st; p_calls := calls |}.

Fixpoint pre (fuel : nat) (blk : string) (st : pre_state) : res pre_state :=
  match fuel with
  | O => OutOfFuel
  | S n => pre_body (pre n) blk st
  end.
End pre.

(** ** Python strings used by the operator prompt *)

(** A line that the operator types is held as a [string], the bytes of
    its characters. The prompt looks for the blank, splits at blanks
    and compares with [T], [F], [f], [u] and [i]: these are characters
    of one byte that are part of no other character's bytes, so the
    functions below are those of the [str]. *)

(** [' ' in s] *)
Fixpoint contains_space (s : string) : bool :=
  match s with
  | EmptyString => false
  | String c s' => if decide (c = " "%char) then true else contains_space s'
  end.

(** [s.split(' ')] *)
Fixpoint split_space (s : string) : list string :=
  match s with
  | EmptyString => [EmptyString]
  | String c s' =>
      if decide (c = " "%char) then EmptyString :: split_space s'
      else match split_space s' with
           | [] => [String c EmptyString]
           | w :: ws => String c w :: ws
           end
  end.

(** ** The operator prompt [Graph.ask_user_input] (lines 235-268) *)

(** [branch_mapping] (lines 240-245); [None] for [KeyError]. *)
Definition branch_mapping (key : string) : option edge_type :=
  if decide (key = "T") then Some conditional_true
  else if decide (key = "F") then Some conditional_false
  else if decide (key = "f") then Some fallthrough
  else if decide (key = "u") then Some unconditional
  else None.

(** What the prompt returns: a state index when [isbr] is false, an edge
    type when it is true. *)
Inductive choice :=
  | StateIndex (i : Z)
  | Branch (ty : edge_type).

Section prompt.
(** [int] of line 258 on a [str]: the number, or [None] when it raises
    ([ValueError]). Which lines [int] accepts is Python's business (it
    skips white space, takes a sign, underscores and the decimal digits
    of every script, and has a limit on the number of digits); the
    prompt is embedded for whatever [int] does. *)
Context (py_int : string → option Z).
Context {Item : Type}.

(** Lines 250-258 of the [try] body: the command is split, the info flag
    asserted and the choice converted. [None] when one of these raises
    ([ValueError] of the unpacking or of [int], [AssertionError],
    [KeyError] of [branch_mapping]). *)
Definition parse_command (isbr : bool) (user_input : string) : option (choice * bool) :=
  '(concerned_variable, ask_for_info) ←
    (if contains_space user_input then
       match split_space user_input with
       | [concerned_variable; ask_for_info] =>
           if decide (ask_for_info = "i") then Some (concerned_variable, true) else None
       | _ => None
       end
     else Some (user_input, false));
  concerned_variable ←
    (if isbr then Branch <$> branch_mapping user_input
     else (λ n, StateIndex (n - 1)) <$> py_int concerned_variable);
  Some (concerned_variable, ask_for_info).


(** [show_state_info] (lines 207-219): indexes the states, then prints.
    The prints themselves are not modelled. *)
Definition show_state_info (state_index : choice) (states : list Item) : res () :=
  match state_index with
  | StateIndex i => _ ← py_index states i; Ok ()
  | Branch _ => Raise TypeError
  end.

(** [show_branch_info] (lines 221-233): its first statement indexes
    [branches], which [visit] passes as the list [avail_br], with the
    edge-type string: a [TypeError]. *)
Definition show_branch_info (branch : choice) (branches : list edge_type)
    (state_item : option Item) : res () :=
  Raise TypeError.

(** The [while True] loop. Each round reads one line of [inputs]; the
    bare [except] turns whatever the [try] body raised into
    [raise("[!] Valid input is needed")], which is itself a [TypeError]
    (a [str] is not an exception) and leaves the loop. Returns the
    outcome and the lines not yet read. *)
Fixpoint ask_user_input (inputs : list string) (emul_states : list Item) (isbr : bool)
    (branches : list edge_type) (state_item : option Item)
    : res choice * list string :=
  match inputs with
  | [] => (Raise EOFError, [])
  | user_input :: inputs' =>
      match parse_command isbr user_input with
      | None => (Raise TypeError, inputs')
      | Some (concerned_variable, false) => (Ok concerned_variable, inputs')
      | Some (concerned_variable, true) =>
          match (if isbr then show_branch_info concerned_variable branches state_item
                 else show_state_info concerned_variable emul_states) with
          | Ok _ => ask_user_input inputs' emul_states isbr branches state_item
          | _ => (Raise TypeError, inputs')
          end
      end
  end.
End prompt.

(** ** The visitor [Graph.visit] (lines 148-205) *)

(** [solver.check()] of z3. *)
Inductive check_result :=
  | sat
  | unsat
  | unknown.

#[global] Instance check_result_eq_dec : EqDecision check_result.
Proof. solve_decision. Defined.

(** One element of the emulator's output: a state, or for a branching
    block a dict from edge type to the state after that branch
    ([isinstance(state_item, dict)]). *)
Inductive state_item (State : Type) :=
  | Flat (state : State)
  | PerBranch (d : list (edge_type * State)).

Arguments Flat {State} state.
Arguments PerBranch {State} d.

(** The record of one invocation of [visit] (a ghost of the model): its
    arguments, what the emulator gave if it ran, the constraint lists
    handed to the solver, the invocations made from it and its result. *)
#[warnings="-register-all"]
Inductive call (State Formula : Type) :=
  Call {
    c_blk : string;
    c_branches : option (list edge_type);
    c_in : list (state_item State);
    c_emul : option (bool * list (state_item State));
    c_queries : list (list Formula);
    c_children : list (call State Formula);
    c_out : list (state_item State)
  }.

Arguments Call {State Formula}.
Arguments c_blk {State Formula} _.
Arguments c_branches {State Formula} _.
Arguments c_in {State Formula} _.
Arguments c_emul {State Formula} _.
Arguments c_queries {State Formula} _.
Arguments c_children {State Formula} _.
Arguments c_out {State Formula} _.

(** What [visit] mutates or consumes: the counters [vis] (a
    [defaultdict(int)]) and the operator's pending input lines. *)
Record world := {
  w_vis : gmap string Z;
  w_inputs : list string
}.

Definition set_vis (w : world) (vis : gmap string Z) : world :=
  {| w_vis := vis; w_inputs := w_inputs w |}.

(** [for i in range(n): s = body(s)] *)
Fixpoint repeat_res {S} (n : nat) (body : S → res S) (s : S) : res S :=
  match n with
  | O => Ok s
  | S n' => s' ← body s; repeat_res n' body s'
  end.

Section engine.
Context {State Formula Instr HasRet : Type}.
(** [state.constraints] *)
Context (py_int : string → option Z).
Context (constraints : State → list Formula).
(** [cls.wasmVM.emulate_basic_block]; [None] when it raises. *)
Context (emulate_basic_block :
  list (state_item State) → HasRet → list Instr → option (bool * list (state_item State))).
(** A fresh [Solver()] given the constraints, then [solver.check()];
    [None] when z3 raises. *)
Context (solver_check : list Formula → option check_result).
Context (G : Graph Instr).
(** the argument [circles] of [visit], the same in every invocation *)
Context (circles : gset string).

#[local] Abbreviation item := (state_item State).
#[local] Abbreviation vcall := (call State Formula).
#[local] Abbreviation visit_fn :=
  (list item → HasRet → string → world → bool → option (list edge_type)
   → res (list item * world * vcall)).

(** Lines 171-181: the feasibility filter for one [state_item]. The
    accumulator is [avail_br] and the constraint lists given to the
    solver so far. *)
Definition filter_branch (state_item : item) (ty : edge_type)
    (acc : list edge_type * list (list Formula))
    : res (list edge_type * list (list Formula)) :=
  let '(avail_br, queries) := acc in
  match state_item with
  | PerBranch d =>
      if is_conditional ty then
        match dict_get d ty with
        | None => Ok (avail_br, queries)
        | Some state =>
            match solver_check (constraints state) with
            | None => Raise SolverException
            | Some r =>
                if decide (sat ≠ r) then Ok (avail_br, queries ++ [constraints state])
                else Ok (avail_br ++ [ty], queries ++ [constraints state])
            end
        end
      else Ok (avail_br ++ [ty], queries)
  | Flat _ => Ok (avail_br ++ [ty], queries)
  end.

Definition filter_branches (state_item : item) (branches : list edge_type)
    : res (list edge_type * list (list Formula)) :=
  for_each (filter_branch state_item) branches ([], []).

(** Lines 190-203: one surviving edge. The accumulator is
    [final_states], the world and the invocations made so far. *)
Definition visit_edge (visit : visit_fn) (has_ret : HasRet) (blk : string)
    (guided : bool) (state_item : item) (ty : edge_type)
    (acc : list item * world * list vcall)
    : res (list item * world * list vcall) :=
  let '(final_states, w, calls) := acc in
  nxt_blk ← of_option KeyError (dict_get (edges_of G blk) ty);
  state ← match state_item with
          | PerBranch d => of_option KeyError (dict_get d ty)
          | Flat state => Ok state
          end;
  if negb guided then
    if bool_decide (nxt_blk ∈ circles) then
      '(enter_states, w, cs) ←
        repeat_res (loop_maximum_rounds G)
          (λ '(enter_states, w, cs),
             '(out, w, c) ← visit enter_states has_ret nxt_blk w guided
                                  (Some [conditional_false]);
             Ok (out, w, cs ++ [c]))
          ([Flat state], w, []);
      '(enter_states, w, c) ← visit enter_states has_ret nxt_blk w guided
                                    (Some [conditional_true]);
      Ok (final_states ++ enter_states, w, calls ++ cs ++ [c])
    else
      '(out, w, c) ← visit [Flat state] has_ret nxt_blk w guided None;
      Ok (final_states ++ out, w, calls ++ [c])
  else
    '(out, w, c) ← visit [Flat state] has_ret nxt_blk w guided None;
    Ok (final_states ++ out, w, calls ++ [c]).

(** Lines 169-203: one iteration of [for state_item in emul_states]. The
    accumulator adds the solver queries to that of [visit_edge]. *)
Definition visit_item (visit : visit_fn) (has_ret : HasRet) (blk : string)
    (guided : bool) (branches : list edge_type) (emul_states : list item)
    (state_item : item)
    (acc : list item * world * list (list Formula) * list vcall)
    : res (list item * world * list (list Formula) * list vcall) :=
  let '(final_states, w, queries, calls) := acc in
  '(avail_br, qs) ← filter_branches state_item branches;
  '(avail_br, w) ←
    (if guided then
       let '(r, inputs) :=
         ask_user_input py_int (w_inputs w) emul_states true avail_br (Some state_item) in
       let w := {| w_vis := w_vis w; w_inputs := inputs |} in
       match r with
       | Ok (Branch ty) => Ok ([ty], w)
       | Ok (StateIndex _) => Raise TypeError
       | Raise e => Raise e
       | OutOfFuel => OutOfFuel
       end
     else Ok (avail_br, w));
  '(final_states, w, calls) ←
    for_each (visit_edge visit has_ret blk guided state_item) avail_br
      (final_states, w, calls);
  Ok (final_states, w, queries ++ qs, calls).

(** The body of [visit], with the recursive invocations made through
    [visit]. *)
Definition visit_body (visit : visit_fn) (states : list item) (has_ret : HasRet)
    (blk : string) (w : world) (guided : bool) (branches : option (list edge_type))
    : res (list item * world * vcall) :=
  if negb guided && bool_decide (0 < dd_get (w_vis w) blk) then
    Ok (states, w, Call blk branches states None [] [] states)
  else
    let w := if guided then w else set_vis w (dd_touch (w_vis w) blk) in
    instructions ← of_option KeyError (bb_to_instructions G !! blk);
    '(halt, emul_states) ←
      of_option EmulatorException (emulate_basic_block states has_ret instructions);
    let emul := Some (halt, emul_states) in
    if halt || bool_decide (length (edges_of G blk) = 0%nat) then
      Ok (emul_states, w, Call blk branches states emul [] [] emul_states)
    else
      let w := set_vis w (<[blk := dd_get (w_vis w) blk + 1]> (w_vis w)) in
      '(emul_states, w) ←
        (if guided then
           let '(r, inputs) :=
             ask_user_input py_int (w_inputs w) emul_states false [] None in
           let w := {| w_vis := w_vis w; w_inputs := inputs |} in
           match r with
           | Ok (StateIndex state_index) =>
               state_item ← py_index emul_states state_index;
               Ok ([state_item], w)
           | Ok (Branch _) => Raise TypeError
           | Raise e => Raise e
           | OutOfFuel => OutOfFuel
           end
         else Ok (emul_states, w));
      let branches' :=
        match branches with
        | None => dict_keys (edges_of G blk)
        | Some branches => branches
        end in
      '(final_states, w, queries, calls) ←
        for_each (visit_item visit has_ret blk guided branches' emul_states)
          emul_states ([], w, [], []);
      let w := set_vis w (<[blk := dd_get (w_vis w) blk - 1]> (w_vis w)) in
      let out := if bool_decide (0 < length final_states)%nat then final_states else states in
      Ok (out, w, Call blk branches states emul queries calls out).

Fixpoint visit (fuel : nat) (states : list item) (has_ret : HasRet) (blk : string)
    (w : world) (guided : bool) (branches : option (list edge_type))
    : res (list item * world * vcall) :=
  match fuel with
  | O => OutOfFuel
  | S n => visit_body (visit n) states has_ret blk w guided branches
  end.

End engine.

(** ** The drivers [traverse_one] and [traverse] (lines 111-137) *)

(** [bb[-2:] == '_0'] *)
Definition is_entry_name (bb : string) : bool :=
  match reverse (list_ascii_of_string bb) with
  | "0"%char :: "_"%char :: _ => true
  | _ => false
  end.

Section driver.
Context {State Formula Instr HasRet : Type}.
Context (py_int : string → option Z).
Context (constraints : State → list Formula).
Context (emulate_basic_block :
  list (state_item State) → HasRet → list Instr → option (bool * list (state_item State))).
Context (solver_check : list Formula → option check_result).
(** Lines 117-123: the state and return flag that [init_state] gives for
    the function, with the state's [current_func_name] set. *)
Context (init_state : string → State * HasRet).
Context (G : Graph Instr).

(** [traverse_one(func)] as [traverse] invokes it. [fuel] bounds the
    depth of the recursion of [pre] and of [visit]. Line 136 writes the
    caller's function name back into the state object; states are values
    here and [State] is left abstract. *)
Definition traverse_one (fuel : nat) (func : string) (inputs : list string)
    : res (list (state_item State) * list string * call State Formula) :=
  let '(state, has_ret) := init_state func in
  entry_func_bbs ← of_option KeyError (func_to_bbs G !! func);
  entry_bb ← of_option IndexError (head (filter (λ bb, is_entry_name bb = true) entry_func_bbs));
  let vis : gmap string Z := ∅ in
  let circles : gset string := ∅ in
  p ← pre G fuel entry_bb {| p_vis := vis; p_circles := circles; p_calls := [] |};
  let circles := p_circles p in
  let vis : gmap string Z := ∅ in
  '(final_states, w, c) ←
    visit py_int constraints emulate_basic_block solver_check G circles fuel
      [Flat state] has_ret entry_bb {| w_vis := vis; w_inputs := inputs |}
      (manual_guide G) None;
  Ok (final_states, w_inputs w, c).

(** [__init__] (lines 52-54): [{func: None for func in funcs}] *)
Definition init_final_states (funcs : list string)
    : list (string * option (list (state_item State))) :=
  foldl (λ d func, dict_set d func None) [] funcs.

(** [traverse]: [final_states[entry_func] = traverse_one(entry_func)]
    for each entry in turn. *)
Definition traverse (fuel : nat) (entries : list string) (inputs : list string)
    : res (list (string * option (list (state_item State))) * list string) :=
  for_each
    (λ entry_func '(final_states, inputs),
       '(states, inputs, _) ← traverse_one fuel entry_func inputs;
       Ok (dict_set final_states entry_func (Some states), inputs))
    entries (init_final_states entries, inputs).
End driver.

(** ** Notions used to state the properties of the pre-pass *)

(** [b] was met again: [pre] was invoked on it when it was already
    marked, by the initial marks [m] or by an earlier invocation. *)
Definition revisited (m : string → Prop) (calls : list string) (b : string) : Prop :=
  ∃ l1 l2, calls = l1 ++ b :: l2 ∧ (m b ∨ b ∈ l1).

Section pre_notions.
Context {Instr : Type} (G : Graph Instr).

(** [vis[b] == 1] *)
Definition marked (st : pre_state) (b : string) : Prop := dd_get (p_vis st) b = 1.

(** [b] is the destination of an edge of [a]. *)
Definition succ (a b : string) : Prop :=
  ∃ ty, dict_get (edges_of G a) ty = Some b.

(** [len(cls.bbs_graph[b]) == 2] *)
Definition two_edges (b : string) : Prop := length (edges_of G b) = 2%nat.

(** The effect of a stretch of the walk that made the invocations
    [calls]. *)
Definition pre_rel (st : pre_state) (calls : list string) (st' : pre_state) : Prop :=
  p_calls st' = p_calls st ++ calls
  ∧ (∀ b, marked st' b ↔ marked st b ∨ b ∈ calls)
  ∧ (∀ b, b ∈ p_circles st' ↔
          b ∈ p_circles st ∨ (two_edges b ∧ revisited (marked st) calls b)).

(** A walk along edges from [a] through the blocks [l] to [z]. *)
Fixpoint is_path (a : string) (l : list string) (z : string) : Prop :=
  match l with
  | [] => succ a z
  | b :: l' => succ a b ∧ is_path b l' z
  end.

(** Every cycle (a walk from a block back to itself) has a block with
    exactly two outgoing edges. *)
Definition cycles_have_two_edge_block : Prop :=
  ∀ a l, is_path a l a → ∃ b, b ∈ a :: l ∧ two_edges b.

(** The same for the cycles that can be reached from [entry]. *)
Definition reachable_cycles_have_two_edge_block (entry : string) : Prop :=
  ∀ a l, rtc succ entry a → is_path a l a → ∃ b, b ∈ a :: l ∧ two_edges b.

(** An edge out of a block that [entry] reaches, between two blocks
    neither of which has two edges. *)
Definition plain_edge (entry a b : string) : Prop :=
  rtc succ entry a ∧ succ a b ∧ ¬ two_edges a ∧ ¬ two_edges b.

#[global] Instance two_edges_dec b : Decision (two_edges b).
Proof. unfold two_edges. apply _. Defined.

#[global] Instance marked_dec st b : Decision (marked st b).
Proof. unfold marked. apply _. Defined.

(** The two-edge blocks not yet marked. *)
Definition unmarked (st : pre_state) : gset string :=
  filter (λ b, two_edges b ∧ ¬ marked st b) (dom (bbs_graph G)).

(** Every block of [C] has other than two edges and an edge into [C]. *)
Definition trap_set (C : string → Prop) : Prop :=
  ∀ b, C b → ¬ two_edges b ∧ ∃ c, succ b c ∧ C c.

End pre_notions.

(** ** Notions used to state the properties of the visitor *)

Section visit_notions.
Context {State Formula Instr : Type}.
Context (py_int : string → option Z).
Context (constraints : State → list Formula).
Context (solver_check : list Formula → option check_result).
Context (G : Graph Instr).
Context (circles : gset string).

(** The edge type gets past the feasibility filter for the item. *)
Definition survives (state_item : state_item State) (ty : edge_type) : bool :=
  match state_item with
  | Flat _ => true
  | PerBranch d =>
      if is_conditional ty then
        match dict_get d ty with
        | Some state => bool_decide (solver_check (constraints state) = Some sat)
        | None => false
        end
      else true
  end.

(** The constraint lists that the filter hands to the solver for the
    item, in order. *)
Definition item_queries (state_item : state_item State) (branches : list edge_type)
    : list (list Formula) :=
  match state_item with
  | Flat _ => []
  | PerBranch d =>
      omap (λ ty, if is_conditional ty then constraints <$> dict_get d ty else None) branches
  end.

(** The invocations (block and forced branches) that following an edge
    into [nxt_blk] consists of. *)
Definition edge_schedule (nxt_blk : string) : list (string * option (list edge_type)) :=
  if bool_decide (nxt_blk ∈ circles) then
    replicate (loop_maximum_rounds G) (nxt_blk, Some [conditional_false])
    ++ [(nxt_blk, Some [conditional_true])]
  else [(nxt_blk, None)].

(** The invocations made for one item of the emulator's output. *)
Definition item_schedule (blk : string) (branches : list edge_type)
    (state_item : state_item State) : list (string * option (list edge_type)) :=
  filter (λ ty, survives state_item ty = true) branches ≫= λ ty,
    match dict_get (edges_of G blk) ty with
    | Some nxt_blk => edge_schedule nxt_blk
    | None => []
    end.

(** [branches = cls.bbs_graph[blk] if branches is None else branches] *)
Definition branches_of (blk : string) (branches : option (list edge_type)) : list edge_type :=
  match branches with
  | None => dict_keys (edges_of G blk)
  | Some branches => branches
  end.
End visit_notions.

(** The counters read the same in both worlds. *)
Definition vis_same (w w' : world) : Prop :=
  ∀ b, dd_get (w_vis w') b = dd_get (w_vis w) b.

Section call_notions.
Context {State Formula : Type}.

(** Each invocation of the list is given the result of the one before
    it, the first one being given [start]; the last one gives [finish]. *)
Fixpoint chain (start : list (state_item State)) (cs : list (call State Formula))
    (finish : list (state_item State)) : Prop :=
  match cs with
  | [] => finish = start
  | c :: cs' => c_in c = start ∧ chain (c_out c) cs' finish
  end.

(** The block and the forced branches of an invocation. *)
Definition call_sig (c : call State Formula) : string * option (list edge_type) :=
  (c_blk c, c_branches c).

(** The results that the invocations add to [final_states]: those of a
    round of loop unrolling (forced along [conditional_false]) are only
    handed to the next round. *)
Definition contributed (cs : list (call State Formula)) : list (state_item State) :=
  concat (c_out <$> filter (λ c, c_branches c ≠ Some [conditional_false]) cs).

(** All the invocations on [blk] in the tree of invocations, in order. *)
Fixpoint calls_on (blk : string) (c : call State Formula) : list (call State Formula) :=
  match c with
  | Call b _ _ _ _ children _ =>
      (if decide (b = blk) then [c] else [])
      ++ concat (map (calls_on blk) children)
  end.

(** The record that an invocation returns tells its arguments and its
    result, and the invocation leaves the counters as they were. *)
Definition rec_ok {HasRet : Type}
    (rec : list (state_item State) → HasRet → string → world → bool
           → option (list edge_type)
           → res (list (state_item State) * world * call State Formula)) : Prop :=
  ∀ states has_ret blk w guided branches out w' c,
    rec states has_ret blk w guided branches = Ok (out, w', c) →
    c_blk c = blk ∧ c_branches c = branches ∧ c_in c = states ∧ c_out c = out
    ∧ vis_same w w'.
End call_notions.

(** How deep the recursion of an unguided [visit] can still go: a block
    with edges is entered only while its counter is not positive. *)
Definition visit_budget {Instr} (G : Graph Instr) (w : world) : nat :=
  sum_list_with (λ b, Z.to_nat (1 - dd_get (w_vis w) b)) (elements (dom (bbs_graph G))).

(** Only blocks with outgoing edges have a positive counter: line 156
    comes after the return of line 155. *)
Definition counters_ok {Instr} (G : Graph Instr) (w : world) : Prop :=
  ∀ b, 0 < dd_get (w_vis w) b → length (edges_of G b) ≠ 0%nat.

(** The counters tell which blocks are being visited: none is negative,
    and the positive ones are those of [stack], the blocks of the
    invocations that have entered their block and not yet returned. *)
Definition on_path (w : world) (stack : list string) : Prop :=
  ∀ b, 0 ≤ dd_get (w_vis w) b ∧ (0 < dd_get (w_vis w) b ↔ b ∈ stack).

Section path_notions.
Context {State Formula : Type}.

(** In the tree of invocations under [c], itself made with the blocks
    of [stack] being visited, the emulator was left alone exactly by
    the invocations on a block that was being visited. *)
Fixpoint skips_on_path (stack : list string) (c : call State Formula) : Prop :=
  match c with
  | Call blk _ _ emul _ children _ =>
      (emul = None ↔ blk ∈ stack)
      ∧ foldr and True (map (skips_on_path (blk :: stack)) children)
  end.
End path_notions.

(** ** Notions used to state the properties of the prompt *)

(** The line is neither a choice nor a choice followed by [" i"]: a
    choice being one of [T], [F], [f], [u] when a branch is asked for,
    and what [int] accepts when a state index is. *)
Definition unparsable (py_int : string → option Z) (isbr : bool) (line : string) : Prop :=
  ∀ choice, line = choice ∨ line = choice +:+ " i" →
    if isbr then branch_mapping choice = None else py_int choice = None.

(** ** A small machine and some CFGs to run the engine on *)

(** Instructions of the machine: [BrIf g] ends a block with a branch on
    the literal [g], [Unreachable] traps. *)
Inductive toy_instr :=
  | Nop
  | BrIf (guard : Z)
  | Unreachable.

#[global] Instance toy_instr_eq_dec : EqDecision toy_instr.
Proof. solve_decision. Defined.

(** A state of the machine is its list of constraints; a constraint is
    a literal, [- g] being the negation of [g]. *)
Definition toy_guard (instructions : list toy_instr) : option Z :=
  head (omap (λ i, match i with BrIf g => Some g | _ => None end) instructions).

Definition toy_step (instructions : list toy_instr) (s : list Z) : state_item (list Z) :=
  match toy_guard instructions with
  | Some g => PerBranch [(conditional_true, s ++ [g]); (conditional_false, s ++ [- g])]
  | None => Flat s
  end.

Definition toy_emulate (states : list (state_item (list Z))) (has_ret : bool)
    (instructions : list toy_instr) : option (bool * list (state_item (list Z))) :=
  Some (bool_decide (Unreachable ∈ instructions),
        states ≫= λ it,
          match it with
          | Flat s => [toy_step instructions s]
          | PerBranch d => (λ p, toy_step instructions p.2) <$> d
          end).

(** The solver of the machine: it raises on a literal beyond 1000 in
    magnitude, gives up on the literal 0, and finds a literal and its
    negation unsatisfiable. *)
Definition toy_solver (cs : list Z) : option check_result :=
  if existsb (λ x, bool_decide (1000 < Z.abs x)) cs then None
  else Some (if bool_decide (0 ∈ cs) then unknown
             else if existsb (λ x, bool_decide (- x ∈ cs)) cs then unsat
             else sat).

Definition pre_start : pre_state :=
  {| p_vis := ∅; p_circles := ∅; p_calls := [] |}.

(** Two paths from [b_0] meet again in [b_3], which branches to two
    final blocks. *)
Definition diamond : Graph toy_instr :=
  extract_basic_blocks
    [("f", ["b_0"; "b_1"; "b_2"; "b_3"; "b_4"; "b_5"])]
    [("b_0", "b_1", conditional_true); ("b_0", "b_2", conditional_false);
     ("b_1", "b_3", unconditional); ("b_2", "b_3", unconditional);
     ("b_3", "b_4", conditional_true); ("b_3", "b_5", conditional_false)]
    [("b_0", [BrIf 7]); ("b_1", [Nop]); ("b_2", [Nop]); ("b_3", [BrIf 9]);
     ("b_4", [Nop]); ("b_5", [Nop])]
    false.

(** A loop with header [b_1] and body [b_2]. *)
Definition while_loop : Graph toy_instr :=
  extract_basic_blocks
    [("f", ["b_0"; "b_1"; "b_2"; "b_3"])]
    [("b_0", "b_1", unconditional);
     ("b_1", "b_3", conditional_true); ("b_1", "b_2", conditional_false);
     ("b_2", "b_1", unconditional)]
    [("b_0", [Nop]); ("b_1", [BrIf 7]); ("b_2", [Nop]); ("b_3", [Nop])]
    false.

(** One block whose only edge goes back to itself. *)
Definition self_loop : Graph toy_instr :=
  extract_basic_blocks
    [("f", ["b_0"])]
    [("b_0", "b_0", unconditional)]
    [("b_0", [Nop])]
    false.

(** A conditional block whose guard the solver of the machine cannot
    decide. *)
Definition undecided_branch : Graph toy_instr :=
  extract_basic_blocks
    [("f", ["b_0"; "b_1"; "b_2"])]
    [("b_0", "b_1", conditional_true); ("b_0", "b_2", conditional_false)]
    [("b_0", [BrIf 0]); ("b_1", [Nop]); ("b_2", [Nop])]
    false.

(** The [int] of the runs below: a line of one to nine of the digits
    [0] to [9] is the number it writes, as with Python's [int]; on
    every other line it raises. Python's [int] accepts more lines than
    these (with white space, a sign, underscores, more digits or the
    digits of other scripts); no run below reads one of them. *)
Definition toy_digit (c : ascii) : option Z :=
  let n := nat_of_ascii c in
  if bool_decide (48 ≤ n ≤ 57)%nat then Some (Z.of_nat (n - 48)) else None.

Definition toy_int (s : string) : option Z :=
  let cs := list_ascii_of_string s in
  if bool_decide (1 ≤ length cs ≤ 9)%nat then
    foldl (λ acc c, n ← acc; d ← toy_digit c; Some (10 * n + d)) (Some 0) cs
  else None.

(** The machine's [visit] and [traverse_one]. *)
Definition toy_visit (G : Graph toy_instr) (circles : gset string) :=
  visit toy_int (@id (list Z)) toy_emulate toy_solver G circles.

Definition toy_traverse_one (G : Graph toy_instr) :=
  traverse_one toy_int (@id (list Z)) toy_emulate toy_solver (λ _, ([], false)) G.

Definition fresh_world : world := {| w_vis := ∅; w_inputs := [] |}.

(** Two paths from [b_0] meet again in [b_3], which falls through to the
    final block [b_4]. *)
Definition plain_diamond : Graph toy_instr :=
  extract_basic_blocks
    [("f", ["b_0"; "b_1"; "b_2"; "b_3"; "b_4"])]
    [("b_0", "b_1", conditional_true); ("b_0", "b_2", conditional_false);
     ("b_1", "b_3", unconditional); ("b_2", "b_3", unconditional);
     ("b_3", "b_4", fallthrough)]
    [("b_0", [BrIf 7]); ("b_1", [Nop]); ("b_2", [Nop]); ("b_3", [Nop]); ("b_4", [Nop])]
    false.

(** A world in which an invocation of [visit] on [b_3] has not returned. *)
Definition inside_b_3 : world := {| w_vis := {["b_3" := 1]}; w_inputs := [] |}.

(** The cycle-header set that [pre] computes for [while_loop]. *)
Definition while_loop_circles : gset string := {["b_1"]}.

(** A world in which [b_0] of the diamond was entered with the
    constraint [-7], as [visit] leaves it for the invocations it makes. *)
Definition assumed_not_7 : list (state_item (list Z)) := [Flat [-7]].


(** ** Notions used to state the properties of [extract_basic_blocks] *)

(** The class attributes as they are when the module is imported (lines
    45-50), [manual_guide] being what the launcher sets it to. *)
Definition initial_attributes (Instr : Type) (guided : bool) : Graph Instr :=
  {| func_to_bbs := ∅; bbs_graph := ∅; bb_to_instructions := ∅;
     loop_maximum_rounds := default_loop_maximum_rounds;
     manual_guide := guided |}.

(** [extract_basic_blocks] run on class attributes that an earlier run
    has filled: line 84 rebinds [func_to_bbs] to a fresh dict, while
    [bbs_graph] and [bb_to_instructions] are the class-level objects,
    which the loops of lines 94-109 update in place. *)
Definition extract_basic_blocks_on {Instr} (G0 : Graph Instr)
    (funcs : list (string * list string))
    (edges : list (string * string * edge_type))
    (bbs : list (string * list Instr)) : Graph Instr :=
  let f2b := foldl (λ m f, <[f.1 := f.2]> m) ∅ funcs in
  let g := foldl add_edge (bbs_graph G0) edges in
  let '(g, ins) := foldl add_block (g, bb_to_instructions G0) bbs in
  {| func_to_bbs := f2b; bbs_graph := g; bb_to_instructions := ins;
     loop_maximum_rounds := loop_maximum_rounds G0;
     manual_guide := manual_guide G0 |}.

(** The values that a list of pairs binds to [k], in the order of the
    list. *)
Definition bindings_of {A} (l : list (string * A)) (k : string) : list A :=
  omap (λ p, if decide (p.1 = k) then Some p.2 else None) l.

(** The destinations that the CFG's edges give for leaving [a] by an
    edge of type [ty], in the order of the edge list. *)
Definition edge_targets (edges : list (string * string * edge_type))
    (a : string) (ty : edge_type) : list string :=
  omap (λ '(node_from, node_to, edge_type),
          if decide (node_from = a ∧ edge_type = ty) then Some node_to else None) edges.

(** The blocks that the CFG's edges leave. *)
Definition edge_sources (edges : list (string * string * edge_type)) : list string :=
  (λ e, e.1.1) <$> edges.

(** ** Notions used to state further properties of the prompt *)

(** The line asks for the information of one of [n] states: a number
    followed by [" i"], the number less one being an index that a list
    of [n] elements accepts (negative ones count from the end). *)
Definition info_request (py_int : string → option Z) (n : nat) (line : string) : Prop :=
  ∃ number k, line = number +:+ " i" ∧ contains_space number = false
    ∧ py_int number = Some k ∧ - Z.of_nat n ≤ k - 1 < Z.of_nat n.

(** ** Notions used to state further properties of the visitor *)

Section tree_notions.
Context {State Formula : Type}.

(** The invocations under [c] form a single path: each one makes at
    most one invocation, and forces no branch on it. *)
Fixpoint single_path (c : call State Formula) : Prop :=
  match c with
  | Call _ _ _ _ _ children _ =>
      match children with
      | [] => True
      | [d] => c_branches d = None ∧ single_path d
      | _ => False
      end
  end.

(** The number of invocations on the leftmost path under [c], [c]
    included. *)
Fixpoint path_length (c : call State Formula) : nat :=
  match c with
  | Call _ _ _ _ _ children _ =>
      match children with
      | [] => 1
      | d :: _ => S (path_length d)
      end
  end.
End tree_notions.

(** Every invocation under [c] is on the destination of an edge of the
    block of the invocation that makes it. *)
Fixpoint along_edges {State Formula Instr} (G : Graph Instr) (c : call State Formula) : Prop :=
  match c with
  | Call blk _ _ _ _ children _ =>
      foldr and True (map (λ d, succ G blk (c_blk d) ∧ along_edges G d) children)
  end.

(** The invocation [d], made from an invocation on [blk], is on a
    successor of [blk] and only reaches blocks along edges. *)
Definition child_ok {State Formula Instr} (G : Graph Instr) (blk : string)
    (d : call State Formula) : Prop :=
  succ G blk (c_blk d) ∧ along_edges G d
  ∧ ∀ b, calls_on b d ≠ [] → rtc (succ G) (c_blk d) b.

(** The world with other input lines pending. *)
Definition with_inputs (inputs : list string) (w : world) : world :=
  {| w_vis := w_vis w; w_inputs := inputs |}.

(** A solver of the small machine that raises when [toy_solver] does and
    otherwise finds every query unsatisfiable. *)
Definition toy_pessimist (cs : list Z) : option check_result :=
  (λ _, unsat) <$> toy_solver cs.

(** ** Notions used to state further properties of the pre-pass *)

(** How often [b] occurs in a list of blocks. *)
Definition times (b : string) (l : list string) : nat :=
  length (filter (λ x, x = b) l).

(** The blocks marked in a set of counters: those whose counter is 1. *)
Definition marks (vis : gmap string Z) : gset string :=
  dom (filter (λ kv, kv.2 = 1) vis).

(** Of the invocations [calls] of [pre], made in this order from the
    marks [M], the number of those on [a] that went on to the successors
    of [a]: an invocation returns at once on a marked block with two
    edges (line 141), and any other marks its block (line 144). *)
Fixpoint expansions_from {Instr} (G : Graph Instr) (M : gset string)
    (calls : list string) (a : string) : nat :=
  match calls with
  | [] => 0
  | b :: calls' =>
      (if decide (b = a ∧ ¬ (a ∈ M ∧ two_edges G a)) then 1 else 0)
      + expansions_from G ({[b]} ∪ M) calls' a
  end.

(** * The analysis options of [eunomia/arch/wasm/configuration.py] *)

(** [' ' in s] and [s.split(sep)] for any one-character separator. *)
Fixpoint contains_char (sep : ascii) (s : string) : bool :=
  match s with
  | EmptyString => false
  | String c s' => if decide (c = sep) then true else contains_char sep s'
  end.

Fixpoint split_on (sep : ascii) (s : string) : list string :=
  match s with
  | EmptyString => [EmptyString]
  | String c s' =>
      if decide (c = sep) then EmptyString :: split_on sep s'
      else match split_on sep s' with
           | [] => [String c EmptyString]
           | w :: ws => String c w :: ws
           end
  end.

(** [sep.join(l)] *)
Fixpoint join_with (sep : ascii) (l : list string) : string :=
  match l with
  | [] => EmptyString
  | [w] => w
  | w :: ws => w +:+ String sep (join_with sep ws)
  end.

Module Configuration.

(** [BitVec(name, bits)] of z3: a bit-vector constant. *)
Record bitvec := BitVec {
  bv_name : string;
  bv_bits : Z
}.

(** An element of [_args]: a concrete string or a symbol. *)
Inductive arg :=
  | ArgStr (s : string)
  | ArgSym (v : bitvec).

(** The class attributes that the setters below write. *)
Record t := {
  _user_asked_lasers : Z;
  _args : list arg;
  _file_path : string;
  _file_name : string
}.

Section lasers.
(** [Enable_Lasers.OVERFLOW.value] and the like, of
    [eunomia/arch/wasm/utils.py]. *)
Context (OVERFLOW DIVZERO BUFFER : Z).

Definition xor_lasers (flag : bool) (value : Z) (c : t) : t :=
  if flag then
    {| _user_asked_lasers := Z.lxor (_user_asked_lasers c) value;
       _args := _args c; _file_path := _file_path c; _file_name := _file_name c |}
  else c.

(** [set_lasers] (lines 33-40) *)
Definition set_lasers (overflow divzero buffer : bool) (c : t) : t :=
  xor_lasers buffer BUFFER (xor_lasers divzero DIVZERO (xor_lasers overflow OVERFLOW c)).
End lasers.

(** [get_lasers] (lines 42-44) *)
Definition get_lasers (c : t) : Z := _user_asked_lasers c.

(** [set_args] (lines 107-121). [args] is a string, [sym_args] the list
    of the lengths of the symbolic arguments ([None] being an empty
    list here); [+=] and [append] extend the class-level list. *)
Definition set_args (args : string) (sym_args : list Z) (c : t) : t :=
  let a := if decide (args = EmptyString) then _args c
           else _args c ++ (ArgStr <$> split_on " " args) in
  let a := a ++ imap (λ i sym_len,
                        ArgSym (BitVec ("sym_args_" +:+ pretty (i + 1)%nat) (8 * sym_len)))
                     sym_args in
  {| _user_asked_lasers := _user_asked_lasers c; _args := a;
     _file_path := _file_path c; _file_name := _file_name c |}.

(** [get_args] (lines 103-105) *)
Definition get_args (c : t) : list arg := _args c.

(** [set_file] (lines 131-135):
    [file_path.split('/')[-1].split('.')[0]] *)
Definition set_file (file_path : string) (c : t) : res t :=
  last_component ← py_index (split_on "/" file_path) (-1);
  file_name ← py_index (split_on "." last_component) 0;
  Ok {| _user_asked_lasers := _user_asked_lasers c; _args := _args c;
        _file_path := file_path; _file_name := file_name |}.

(** [get_file_name] and [get_file_path] (lines 123-129) *)
Definition get_file_name (c : t) : string := _file_name c.
Definition get_file_path (c : t) : string := _file_path c.

(** The names of the symbols among the arguments. *)
Definition symbol_names (a : list arg) : list string :=
  omap (λ x, match x with ArgSym v => Some (bv_name v) | ArgStr _ => None end) a.

End Configuration.

(** * The opcode decoder of [seewasm/arch/wasm/disassembler.py] *)

Module WasmDisassembler.

(** The exceptions of [disassemble_opcode]; [External] stands for
    whatever [from_raw] or [format_instruction] raise. *)
Inductive error :=
  | IndexError
  | AssertionError
  | KeyError
  | External.

Inductive outcome (A : Type) :=
  | Return (a : A)
  | Raises (e : error).

Arguments Return {A} a.
Arguments Raises {A} e.

Definition bind {A B} (m : outcome A) (k : A → outcome B) : outcome B :=
  match m with
  | Return a => k a
  | Raises e => Raises e
  end.

Definition or_raise {A} (e : error) (o : option A) : outcome A :=
  match o with
  | Some a => Return a
  | None => Raises e
  end.

(** [byte2int] of an element of the [memoryview] *)
Definition byte2int (b : Byte.byte) : Z := Z.of_N (Byte.to_N b).

Section disassemble_opcode.
(** The immediates' structures, the operands they decode to and the
    opcodes of [wasm.opcodes]. *)
Context {Imm Operand Opcode : Type}.

(** What the second component of a table entry can be besides [None]:
    an [int], as the [0] of the [invalid] entry, or a structure that
    has a [from_raw]. *)
Inductive imm_struct :=
  | ImmInt (n : Z)
  | ImmStruct (s : Imm).

(** An entry [(name, imm_struct, pops, pushes, description)] of
    [self.asm.table]. *)
Record entry := {
  e_name : string;
  e_imm_struct : option imm_struct;
  e_pops : Z;
  e_pushes : Z;
  e_description : string
}.

Context (table : gmap Z entry).
(** [imm_struct.from_raw(None, data)]: the size and the operand. *)
Context (from_raw : Imm → list Byte.byte → option (nat * Operand)).
Context (OPCODE_MAP : gmap Z Opcode).
(** [format_instruction(inst_namedtuple(op, imm, len))] *)
Context (format_instruction : Opcode → Operand → nat → option string).

(** The arguments that [WasmInstruction] is built from (lines 60-63). *)
Record WasmInstruction := {
  opcode : Z;
  opcode_size : Z;
  name : string;
  imm_struct_of : option imm_struct;
  operand_size : nat;
  insn_byte : list Byte.byte;
  pops : Z;
  pushes : Z;
  description : string;
  operand_interpretation : option string;
  offset : Z;
  nature_offset : Z
}.

(** The default of the table lookup (line 44). *)
Definition invalid : entry :=
  {| e_name := "INVALID"; e_imm_struct := Some (ImmInt 0); e_pops := 0; e_pushes := 0;
     e_description := "Unknown opcode" |}.

(** Lines 32-41: the opcode and its size. *)
Definition read_opcode (bytecode : list Byte.byte) : outcome (Z * Z) :=
  bind (or_raise IndexError (bytecode !! 0%nat)) (λ b0,
  let opcode_id := byte2int b0 in
  let opcode_size := 1 in
  if decide (opcode_id = 0xfc) then
    bind (or_raise IndexError (bytecode !! 1%nat)) (λ b1,
    let opcode_id := Z.lor (Z.shiftl opcode_id 8) (byte2int b1) in
    if decide (opcode_id = 0xfc0a) then Return (opcode_id, 4)
    else if decide (opcode_id = 0xfc0b) then Return (opcode_id, 3)
    else Return (opcode_id, opcode_size))
  else Return (opcode_id, opcode_size)).

(** [disassemble_opcode] (lines 23-65). [bytecode_idx] is 1 from line
    35 on. *)
Definition disassemble_opcode (bytecode : list Byte.byte) (offset nature_offset : Z)
    : outcome WasmInstruction :=
  bind (read_opcode bytecode) (λ '(opcode_id, opcode_size),
  let bytecode_idx := 1%nat in
  let e := default invalid (table !! opcode_id) in
  bind
    (match e_imm_struct e with
     | None => Return (0%nat, None)
     | Some (ImmInt _) => Raises AssertionError
     | Some (ImmStruct s) =>
         bind (or_raise External (from_raw s (drop bytecode_idx bytecode)))
           (λ '(operand_size, operand),
         bind (or_raise KeyError (OPCODE_MAP !! opcode_id)) (λ op,
         bind (or_raise External
                 (format_instruction op operand (bytecode_idx + operand_size)))
           (λ text, Return (operand_size, Some text))))
     end)
    (λ '(operand_size, operand_interpretation),
  Return {| opcode := opcode_id; opcode_size := opcode_size; name := e_name e;
            imm_struct_of := e_imm_struct e; operand_size := operand_size;
            insn_byte := take (bytecode_idx + operand_size) bytecode;
            pops := e_pops e; pushes := e_pushes e; description := e_description e;
            operand_interpretation := operand_interpretation;
            offset := offset; nature_offset := nature_offset |})).

End disassemble_opcode.
End WasmDisassembler.

(** ** Notions used to state what an unguided invocation does for each
       item of the emulator's output and each edge type *)

Section follow_notions.
Context {State Formula Instr : Type}.
Context (constraints : State → list Formula).
Context (solver_check : list Formula → option check_result).
Context (G : Graph Instr).
Context (circles : gset string).






End follow_notions.

(** * Properties *)

(** ** Python values *)

Section dict_facts.
Context {K V : Type} `{EqDecision K}.

Lemma dict_get_Some_key (d : list (K * V)) k v : dict_get d k = Some v → k ∈ dict_keys d.
Proof.
  induction d as [|[k' v'] d IH]; simpl; [done|].
  case_decide; intros ?; simplify_eq; [left | right; auto].
Qed.

Lemma dict_get_key (d : list (K * V)) k : k ∈ dict_keys d → is_Some (dict_get d k).
Proof.
  induction d as [|[k' v'] d IH]; simpl.
  - by intros ?%elem_of_nil.
  - intros [->|?]%elem_of_cons; case_decide; eauto; done.
Qed.

Lemma dict_get_elem (d : list (K * V)) k v : dict_get d k = Some v → (k, v) ∈ d.
Proof.
  induction d as [|[k' v'] d IH]; simpl; [done|].
  case_decide; intros ?; simplify_eq; [left | right; auto].
Qed.
End dict_facts.

Section dict_set_facts.
Context {K V : Type} `{EqDecision K}.

Lemma dict_get_set_eq (d : list (K * V)) k v : dict_get (dict_set d k v) k = Some v.
Proof.
  induction d as [|[k' v'] d IH]; simpl.
  - by rewrite decide_True.
  - destruct (decide (k' = k)) as [->|Hne]; simpl.
    + by rewrite decide_True.
    + by rewrite decide_False.
Qed.

Lemma dict_get_set_ne (d : list (K * V)) k k' v :
  k ≠ k' → dict_get (dict_set d k v) k' = dict_get d k'.
Proof.
  intros Hne. induction d as [|[k0 v0] d IH]; simpl.
  - by rewrite decide_False.
  - destruct (decide (k0 = k)) as [->|Hne0]; simpl.
    + by rewrite !decide_False.
    + destruct (decide (k0 = k')); [done|]. apply IH.
Qed.
End dict_set_facts.

Lemma dd_get_touch vis blk b : dd_get (dd_touch vis blk) b = dd_get vis b.
Proof.
  unfold dd_touch, dd_get. destruct (vis !! blk) eqn:E; [done|].
  destruct (decide (blk = b)) as [->|].
  - by rewrite lookup_insert_eq, E.
  - by rewrite lookup_insert_ne.
Qed.

Lemma dd_get_insert_eq vis blk v : dd_get (<[blk := v]> vis) blk = v.
Proof. unfold dd_get. by rewrite lookup_insert_eq. Qed.

Lemma dd_get_insert_ne vis blk b v : blk ≠ b → dd_get (<[blk := v]> vis) b = dd_get vis b.
Proof. intros. unfold dd_get. by rewrite lookup_insert_ne. Qed.

(** ** General facts about the outcome monad *)

Lemma bind_Ok {A B} (m : res A) (k : A → res B) b :
  (m ≫= k) = Ok b ↔ ∃ a, m = Ok a ∧ k a = Ok b.
Proof.
  destruct m; simpl; split; try (intros (? & ? & ?)); try done; eauto.
  by simplify_eq.
Qed.

Lemma bind_OutOfFuel {A B} (m : res A) (k : A → res B) :
  (m ≫= k) = OutOfFuel ↔ m = OutOfFuel ∨ ∃ a, m = Ok a ∧ k a = OutOfFuel.
Proof.
  destruct m; simpl; split; try (intros [?|(? & ? & ?)]); try done; eauto.
  by simplify_eq.
Qed.

Lemma for_each_app {A S} (body : A → S → res S) l1 l2 s :
  for_each body (l1 ++ l2) s = (for_each body l1 s ≫= for_each body l2).
Proof.
  revert s. induction l1 as [|x l1 IH]; intros s; simpl; [done|].
  destruct (body x s); simpl; auto.
Qed.

(** A loop invariant carried through [for_each]. *)
Lemma for_each_inv {A S} (P : S → Prop) (body : A → S → res S) l s s' :
  (∀ x t t', x ∈ l → P t → body x t = Ok t' → P t') →
  P s → for_each body l s = Ok s' → P s'.
Proof.
  revert s. induction l as [|x l IH]; intros s Hbody HP; simpl.
  - by intros [= <-].
  - intros (t & Ht & Hrest)%bind_Ok. eapply IH; [| |done].
    + intros ??? ?; apply Hbody; by right.
    + eapply Hbody; [left|done..].
Qed.

(** Two loop bodies that agree wherever the first one finishes. *)
Lemma for_each_mono {A S} (f g : A → S → res S) l s :
  (∀ x t, x ∈ l → f x t ≠ OutOfFuel → g x t = f x t) →
  for_each f l s ≠ OutOfFuel → for_each g l s = for_each f l s.
Proof.
  revert s. induction l as [|x l IH]; intros s Hfg; simpl; [done|].
  intros Hne. rewrite Hfg; [|left|].
  - destruct (f x s) as [t| |] eqn:E; simpl in *; try done.
    apply IH; [|done]. intros ????; apply Hfg; [by right|done].
  - intros E; by rewrite E in Hne.
Qed.

Lemma for_each_cons {A S} (body : A → S → res S) x l s :
  for_each body (x :: l) s = (body x s ≫= for_each body l).
Proof. done. Qed.

Lemma for_each_Ok_elem {A S} (body : A → S → res S) l s s' x :
  for_each body l s = Ok s' → x ∈ l → ∃ t t', body x t = Ok t'.
Proof.
  revert s. induction l as [|y l IH]; intros s; [by intros _ ?%elem_of_nil|].
  rewrite for_each_cons. intros (t & Hy & Hrest)%bind_Ok [->|Hx]%elem_of_cons; [by eauto|].
  by eapply IH.
Qed.

Lemma repeat_res_inv {S} (P : S → Prop) (body : S → res S) n s s' :
  (∀ t t', P t → body t = Ok t' → P t') →
  P s → repeat_res n body s = Ok s' → P s'.
Proof.
  intros Hbody. revert s. induction n as [|n IH]; intros s Hs; simpl.
  - by intros [= <-].
  - intros (t & Ht & Hrest)%bind_Ok. eapply IH; [|done]. by eapply Hbody.
Qed.

Lemma bind_not_stuck {A B} (m : res A) (k : A → res B) :
  m ≠ OutOfFuel → (∀ a, m = Ok a → k a ≠ OutOfFuel) → (m ≫= k) ≠ OutOfFuel.
Proof. destruct m; simpl; [by eauto|done..]. Qed.

Lemma for_each_not_stuck {A S} (P : S → Prop) (body : A → S → res S) l s :
  (∀ x t, x ∈ l → P t → body x t ≠ OutOfFuel) →
  (∀ x t t', x ∈ l → P t → body x t = Ok t' → P t') →
  P s → for_each body l s ≠ OutOfFuel.
Proof.
  revert s. induction l as [|x l IH]; intros s Hstep Hpres Hs; [done|].
  rewrite for_each_cons. apply bind_not_stuck.
  - apply Hstep; [left|done].
  - intros t Ht. apply IH.
    + intros ????. apply Hstep; [by right|done].
    + intros ?????. eapply Hpres; [by right|done..].
    + eapply Hpres; [left|done..].
Qed.

Lemma repeat_res_not_stuck {S} (P : S → Prop) (body : S → res S) n s :
  (∀ t, P t → body t ≠ OutOfFuel) →
  (∀ t t', P t → body t = Ok t' → P t') →
  P s → repeat_res n body s ≠ OutOfFuel.
Proof.
  intros Hstep Hpres. revert s. induction n as [|n IH]; intros s Hs; [done|].
  simpl. apply bind_not_stuck; [by apply Hstep|].
  intros t Ht. apply IH. by eapply Hpres.
Qed.

(** ** The pre-pass: what ends up in [circles] *)

Lemma revisited_nil m b : ¬ revisited m [] b.
Proof. intros (l1 & l2 & E & _). by destruct l1. Qed.

Lemma revisited_cons m c cs b :
  revisited m (c :: cs) b ↔ (c = b ∧ m b) ∨ revisited (λ x, m x ∨ x = c) cs b.
Proof.
  split.
  - intros (l1 & l2 & E & Hm). destruct l1 as [|c' l1]; simplify_eq/=.
    + destruct Hm as [?|?%elem_of_nil]; [by left|done].
    + right. exists l1, l2. split; [done|]. set_solver.
  - intros [[-> ?]|(l1 & l2 & -> & Hm)].
    + exists [], cs. auto.
    + exists (c :: l1), l2. split; [done|]. set_solver.
Qed.

Lemma revisited_ext m m' calls b :
  (∀ x, m x ↔ m' x) → revisited m calls b ↔ revisited m' calls b.
Proof. intros Hm. unfold revisited. by setoid_rewrite Hm. Qed.

Lemma revisited_app m c1 c2 b :
  revisited m (c1 ++ c2) b ↔ revisited m c1 b ∨ revisited (λ x, m x ∨ x ∈ c1) c2 b.
Proof.
  revert m. induction c1 as [|c c1 IH]; intros m; simpl.
  - split; [intros ?; right|intros [[]%revisited_nil|?]];
      (eapply revisited_ext; [|done]); set_solver.
  - rewrite !revisited_cons, IH.
    assert (revisited (λ x, (m x ∨ x = c) ∨ x ∈ c1) c2 b
            ↔ revisited (λ x, m x ∨ x ∈ c :: c1) c2 b) as ->; [|tauto].
    apply revisited_ext. set_solver.
Qed.

Section pre_spec.
Context {Instr : Type} (G : Graph Instr).

Lemma pre_rel_refl st : pre_rel G st [] st.
Proof.
  split_and!; [by rewrite app_nil_r|set_solver|].
  intros b. split; [auto|]. intros [?|[_ []%revisited_nil]]; done.
Qed.

Lemma pre_rel_trans st1 c1 st2 c2 st3 :
  pre_rel G st1 c1 st2 → pre_rel G st2 c2 st3 → pre_rel G st1 (c1 ++ c2) st3.
Proof.
  intros (Hc1 & Hm1 & Hs1) (Hc2 & Hm2 & Hs2). split_and!.
  - by rewrite Hc2, Hc1, app_assoc.
  - intros b. rewrite Hm2, Hm1. set_solver.
  - intros b. rewrite Hs2, Hs1, revisited_app.
    assert (revisited (marked st2) c2 b
            ↔ revisited (λ x, marked st1 x ∨ x ∈ c1) c2 b) as ->; [|tauto].
    apply revisited_ext, Hm1.
Qed.

Lemma pre_rel_loop (rec : string → pre_state → res pre_state) blk keys st st' :
  (∀ nxt t t', rec nxt t = Ok t' → ∃ calls, pre_rel G t calls t') →
  for_each (λ ty st, nxt ← of_option KeyError (dict_get (edges_of G blk) ty); rec nxt st)
    keys st = Ok st' →
  ∃ calls, pre_rel G st calls st'.
Proof.
  intros Hrec. revert st. induction keys as [|ty keys IH]; intros st; simpl.
  - intros [= <-]. exists []. apply pre_rel_refl.
  - intros (t & (nxt & _ & (c1 & H1)%Hrec)%bind_Ok & (c2 & H2)%IH)%bind_Ok.
    exists (c1 ++ c2). by eapply pre_rel_trans.
Qed.

Lemma pre_body_rel (rec : string → pre_state → res pre_state) blk st st' :
  (∀ nxt t t', rec nxt t = Ok t' → ∃ calls, pre_rel G t calls t') →
  pre_body G rec blk st = Ok st' →
  ∃ calls, pre_rel G st (blk :: calls) st'.
Proof.
  intros Hrec. unfold pre_body. simpl.
  destruct (bool_decide (dd_get (p_vis st) blk = 1)
            && bool_decide (length (edges_of G blk) = 2%nat)) eqn:Hhd.
  - intros [= <-]. exists []. apply andb_true_iff in Hhd as [Hv%bool_decide_eq_true Hl%bool_decide_eq_true].
    split_and!; simpl; [done| |].
    + intros b. unfold marked. set_solver.
    + intros b. rewrite revisited_cons. split.
      * intros [->%elem_of_singleton|?]%elem_of_union; [|by left].
        right. split; [done|]. by left.
      * intros [?|[? [[-> ?]|[]%revisited_nil]]]; set_solver.
  - intros (calls & Hc & Hm & Hs)%pre_rel_loop; [|done]. simpl in *.
    exists calls. split_and!.
    + by rewrite Hc, <-app_assoc.
    + intros b. rewrite Hm. unfold marked; simpl.
      destruct (decide (blk = b)) as [->|].
      * rewrite dd_get_insert_eq. set_solver.
      * rewrite dd_get_insert_ne by done. set_solver.
    + intros b. rewrite Hs, revisited_cons.
      assert (revisited (marked {| p_vis := <[blk:=1]> (p_vis st); p_circles := p_circles st;
                                   p_calls := p_calls st ++ [blk] |}) calls b
              ↔ revisited (λ x, marked st x ∨ x = blk) calls b) as ->.
      { apply revisited_ext. intros x. unfold marked; simpl.
        destruct (decide (blk = x)) as [->|].
        - rewrite dd_get_insert_eq. tauto.
        - rewrite dd_get_insert_ne by done. naive_solver. }
      split; [tauto|]. intros [?|[Hl [[-> Hv]|?]]]; [tauto| |tauto].
      apply andb_false_iff in Hhd as [Hhd|Hhd]; apply bool_decide_eq_false in Hhd; done.
Qed.

Lemma pre_rel_fuel fuel blk st st' :
  pre G fuel blk st = Ok st' → ∃ calls, pre_rel G st (blk :: calls) st'.
Proof.
  revert blk st st'. induction fuel as [|n IH]; intros blk st st'; simpl; [done|].
  apply pre_body_rel. intros nxt t t' (calls & ?)%IH. eauto.
Qed.
End pre_spec.

(** ** The pre-pass: termination *)

Section pre_termination.
Context {Instr : Type} (G : Graph Instr).

Lemma pre_fuel_mono n m blk st :
  pre G n blk st ≠ OutOfFuel → (n ≤ m)%nat → pre G m blk st = pre G n blk st.
Proof.
  revert m blk st. induction n as [|n IH]; intros m blk st; simpl; [done|].
  intros Hne Hle. destruct m as [|m]; [lia|]. simpl.
  unfold pre_body in *. simpl in *.
  destruct (_ && _); [done|].
  apply for_each_mono; [|done].
  intros ty t _. destruct (dict_get (edges_of G blk) ty); simpl; [|done].
  intros ?. apply IH; [done|lia].
Qed.

Lemma pre_no_raise fuel blk st e : pre G fuel blk st ≠ Raise e.
Proof.
  revert blk st e. induction fuel as [|n IH]; intros blk st e; simpl; [done|].
  unfold pre_body. simpl. destruct (_ && _); [done|].
  generalize (p_calls st ++ [blk]) (<[blk:=1]> (p_vis st)) (p_circles st).
  intros calls vis circ.
  assert (∀ keys t, keys ⊆ dict_keys (edges_of G blk) →
    for_each (λ ty st, nxt ← of_option KeyError (dict_get (edges_of G blk) ty);
                       pre G n nxt st) keys t ≠ Raise e) as Hloop.
  { induction keys as [|ty keys IHk]; intros t Hsub; simpl; [done|].
    destruct (dict_get_key (edges_of G blk) ty) as [nxt Hnxt]; [set_solver|].
    rewrite Hnxt; simpl. destruct (pre G n nxt t) eqn:E; simpl; [|by apply IH in E|done].
    apply IHk. set_solver. }
  by apply Hloop.
Qed.

Lemma two_edges_dom b : two_edges G b → b ∈ dom (bbs_graph G).
Proof.
  unfold two_edges, edges_of. intros H. apply elem_of_dom.
  destruct (bbs_graph G !! b); [eauto|done].
Qed.

Lemma unmarked_mono st st' :
  (∀ b, marked st b → marked st' b) → unmarked G st' ⊆ unmarked G st.
Proof. intros H b. unfold unmarked. rewrite !elem_of_filter. naive_solver. Qed.

Lemma pre_marks_mono fuel blk st st' :
  pre G fuel blk st = Ok st' → ∀ b, marked st b → marked st' b.
Proof. intros (calls & _ & Hm & _)%pre_rel_fuel b ?. apply Hm. by left. Qed.

(** The loop of [pre] finishes when each invocation made from it does. *)
Lemma pre_loop_terminates (P : pre_state → Prop) blk keys st :
  keys ⊆ dict_keys (edges_of G blk) →
  (∀ fuel nxt t t', P t → pre G fuel nxt t = Ok t' → P t') →
  (∀ ty nxt t, dict_get (edges_of G blk) ty = Some nxt → P t →
     ∃ fuel t', pre G fuel nxt t = Ok t') →
  P st →
  ∃ fuel st', P st' ∧ ∀ m, (fuel ≤ m)%nat →
    for_each (λ ty st, nxt ← of_option KeyError (dict_get (edges_of G blk) ty);
                       pre G m nxt st) keys st = Ok st'.
Proof.
  intros Hsub HP Hcall. revert st. induction keys as [|ty keys IH]; intros st Hst; simpl.
  - exists 0%nat, st. done.
  - destruct (dict_get_key (edges_of G blk) ty) as [nxt Hnxt]; [set_solver|].
    destruct (Hcall ty nxt st Hnxt Hst) as (f1 & t & Ht).
    destruct (IH ltac:(set_solver) t ltac:(eauto)) as (f2 & st' & Hst' & Hrest).
    exists (f1 `max` f2)%nat, st'. split; [done|]. intros m Hm.
    rewrite Hnxt; simpl. rewrite (pre_fuel_mono f1 m), Ht by (rewrite ?Ht; done || lia).
    simpl. apply Hrest. lia.
Qed.

Lemma pre_expand_terminates (P : pre_state → Prop) blk st :
  ¬ (marked st blk ∧ two_edges G blk) →
  (∀ fuel nxt t t', P t → pre G fuel nxt t = Ok t' → P t') →
  (∀ ty nxt t, dict_get (edges_of G blk) ty = Some nxt → P t →
     ∃ fuel t', pre G fuel nxt t = Ok t') →
  P {| p_vis := <[blk := 1]> (p_vis st); p_circles := p_circles st;
       p_calls := p_calls st ++ [blk] |} →
  ∃ fuel st', pre G fuel blk st = Ok st'.
Proof.
  intros Hhd HP Hcall Hst.
  destruct (pre_loop_terminates P blk (dict_keys (edges_of G blk)) _ ltac:(done) HP Hcall Hst)
    as (fuel & st' & _ & Hrun).
  exists (S fuel), st'. simpl. unfold pre_body. simpl.
  destruct (_ && _) eqn:E.
  - apply andb_true_iff in E as [?%bool_decide_eq_true ?%bool_decide_eq_true]. by destruct Hhd.
  - by apply Hrun.
Qed.

Lemma plain_edge_sn entry :
  reachable_cycles_have_two_edge_block G entry → ∀ b, sn (plain_edge G entry) b.
Proof.
  intros Hcyc b. apply tc_finite_sn.
  - intros a Ha.
    assert (∀ x z, tc (plain_edge G entry) x z →
      rtc (succ G) entry x
      ∧ ∃ l, is_path G x l z ∧ Forall (λ b, ¬ two_edges G b) (x :: l)) as Hwalk.
    { induction 1 as [x z (? & ? & ? & ?)|x y z (? & ? & ? & ?) _ (_ & l & ? & ?)].
      - split; [done|]. exists []. split; [done|]. by constructor.
      - split; [done|]. exists (y :: l). split; [done|]. by constructor. }
    destruct (Hwalk a a Ha) as (Hreach & l & Hp & Hall).
    destruct (Hcyc a l Hreach Hp) as (c & Hc & Htwo).
    rewrite Forall_forall in Hall. by apply (Hall c).
  - exists (map_to_list (bbs_graph G) ≫= λ p, p.2.*2).
    intros z Hz.
    assert (∃ a, succ G a z) as (a & ty & Hty).
    { induction Hz as [x z (? & ? & ?)|]; eauto. }
    apply dict_get_elem in Hty. unfold edges_of in Hty.
    destruct (bbs_graph G !! a) as [es|] eqn:Ha; simpl in Hty; [|by apply elem_of_nil in Hty].
    apply list_elem_of_bind. exists (a, es). split.
    + simpl. apply list_elem_of_fmap. by exists (ty, z).
    + by apply elem_of_map_to_list.
Qed.

Lemma pre_terminates_from entry :
  reachable_cycles_have_two_edge_block G entry →
  ∀ blk st, rtc (succ G) entry blk → ∃ fuel st', pre G fuel blk st = Ok st'.
Proof.
  intros Hcyc.
  assert (∀ n blk st, rtc (succ G) entry blk → (size (unmarked G st) ≤ n)%nat →
            ∃ fuel st', pre G fuel blk st = Ok st')
    as Hmain; [|by eauto].
  assert (∀ n fuel nxt t t', (size (unmarked G t) ≤ n)%nat → pre G fuel nxt t = Ok t' →
            (size (unmarked G t') ≤ n)%nat) as Hpres.
  { intros n fuel nxt t t' Hn Hrun. etrans; [|exact Hn].
    apply subseteq_size, unmarked_mono. by eapply pre_marks_mono. }
  assert (∀ blk ty nxt, rtc (succ G) entry blk → dict_get (edges_of G blk) ty = Some nxt →
            rtc (succ G) entry nxt) as Hstep.
  { intros blk ty nxt Hblk Hnxt. eapply rtc_r; [done|]. by exists ty. }
  intros n. induction (lt_wf n) as [n _ IHn].
  (* blocks with two edges first *)
  assert (∀ blk st, rtc (succ G) entry blk → two_edges G blk →
            (size (unmarked G st) ≤ n)%nat →
            ∃ fuel st', pre G fuel blk st = Ok st') as Htwo.
  { intros blk st Hreach Hblk Hn.
    destruct (decide (marked st blk)) as [Hm|Hm].
    - exists 1%nat. simpl. unfold pre_body. simpl.
      rewrite !bool_decide_eq_true_2 by done. simpl. eauto.
    - set (st1 := {| p_vis := <[blk := 1]> (p_vis st); p_circles := p_circles st;
                     p_calls := p_calls st ++ [blk] |}).
      assert (unmarked G st1 ⊂ unmarked G st) as Hlt%subset_size.
      { apply (strict_spec_alt (unmarked G st1)). split.
        - apply unmarked_mono. intros b. unfold marked, st1; simpl.
          destruct (decide (blk = b)) as [->|]; [by rewrite dd_get_insert_eq|].
          by rewrite dd_get_insert_ne.
        - intros Heq. assert (blk ∈ unmarked G st) as Hin.
          { apply elem_of_filter. eauto using two_edges_dom. }
          rewrite <-Heq in Hin. apply elem_of_filter in Hin as [[_ Hin] _].
          apply Hin. unfold marked, st1; simpl. by rewrite dd_get_insert_eq. }
      destruct n as [|n]; [lia|].
      apply (pre_expand_terminates (λ t, (size (unmarked G t) ≤ n)%nat)); [tauto|eauto| |].
      + intros ty nxt t Hnxt Ht. apply (IHn n); [lia|by eauto|done].
      + fold st1. lia. }
  intros blk st Hreach. destruct (decide (two_edges G blk)) as [|Hblk]; [by eauto|].
  revert st Hreach. induction (plain_edge_sn entry Hcyc blk) as [blk _ IH].
  intros st Hreach Hn.
  apply (pre_expand_terminates (λ t, (size (unmarked G t) ≤ n)%nat)); [tauto|eauto| |].
  - intros ty nxt t Hnxt Ht. destruct (decide (two_edges G nxt)); [by eauto|].
    apply IH; [|done|by eauto|done]. split_and!; [done|by exists ty|done..].
  - simpl. etrans; [|exact Hn]. apply subseteq_size, unmarked_mono.
    intros b. unfold marked; simpl.
    destruct (decide (blk = b)) as [->|]; [by rewrite dd_get_insert_eq|].
    by rewrite dd_get_insert_ne.
Qed.

Lemma pre_terminates :
  cycles_have_two_edge_block G → ∀ blk st, ∃ fuel st', pre G fuel blk st = Ok st'.
Proof.
  intros Hcyc blk st. apply (pre_terminates_from blk); [|done].
  intros a l _. apply Hcyc.
Qed.
End pre_termination.

(** ** The pre-pass: walks that never end *)

Section pre_divergence.
Context {Instr : Type} (G : Graph Instr).

Lemma pre_trapped C fuel blk st :
  trap_set G C → C blk → pre G fuel blk st = OutOfFuel.
Proof.
  intros HC. revert blk st. induction fuel as [|n IH]; intros blk st Hblk; simpl; [done|].
  destruct (HC blk Hblk) as (Htwo & c & [ty Hty] & Hc).
  unfold pre_body. simpl. destruct (_ && _) eqn:E.
  { apply andb_true_iff in E as [_ ?%bool_decide_eq_true]. done. }
  apply dict_get_Some_key in Hty as Hkey.
  apply list_elem_of_split in Hkey as (k1 & k2 & Hsplit).
  rewrite Hsplit, for_each_app. apply bind_OutOfFuel.
  match goal with |- ?m = _ ∨ _ => destruct m as [t|e|] eqn:E1 end; [right|exfalso|by left].
  - exists t. split; [done|]. simpl. rewrite Hty. simpl. by rewrite IH.
  - revert E1.
    assert (∀ t, for_each (λ ty st, nxt ← of_option KeyError (dict_get (edges_of G blk) ty);
                                    pre G n nxt st) k1 t ≠ Raise e) as Hloop; [|by apply Hloop].
    assert (k1 ⊆ dict_keys (edges_of G blk)) as Hsub by (rewrite Hsplit; set_solver).
    clear -Hsub. induction k1 as [|k k1 IHk]; intros t; simpl; [done|].
    destruct (dict_get_key (edges_of G blk) k) as [nxt Hnxt]; [set_solver|].
    rewrite Hnxt; simpl. destruct (pre G n nxt t) eqn:E; simpl; [|by apply pre_no_raise in E|done].
    apply IHk. set_solver.
Qed.

(** A finished invocation leaves every block it newly marked outside of
    each trap set, and with all its successors marked. *)
Lemma pre_closes_marks C fuel blk st st' :
  trap_set G C → pre G fuel blk st = Ok st' →
  ∀ a, marked st' a → marked st a ∨ (¬ C a ∧ ∀ c, succ G a c → marked st' c).
Proof.
  intros HC. revert blk st st'. induction fuel as [|n IH]; intros blk st st' Hrun; [done|].
  assert (¬ C blk) as HnC.
  { intros Hblk. by rewrite (pre_trapped C _ _ _ HC Hblk) in Hrun. }
  simpl in Hrun. unfold pre_body in Hrun. simpl in Hrun.
  destruct (_ && _) eqn:E; [injection Hrun as <-; by left|].
  set (st1 := {| p_vis := <[blk := 1]> (p_vis st); p_circles := p_circles st;
                 p_calls := p_calls st ++ [blk] |}) in *.
  assert (∀ keys t t',
    for_each (λ ty st, nxt ← of_option KeyError (dict_get (edges_of G blk) ty);
                       pre G n nxt st) keys t = Ok t' →
    (∀ b, marked t b → marked t' b)
    ∧ (∀ ty c, ty ∈ keys → dict_get (edges_of G blk) ty = Some c → marked t' c)
    ∧ (∀ a, marked t' a → marked t a ∨ (¬ C a ∧ ∀ c, succ G a c → marked t' c))) as Hloop.
  { induction keys as [|k keys IHk]; intros t t'; simpl.
    - intros [= <-]. split_and!; [done|set_solver|auto].
    - intros (u & (nxt & Hnxt & Hcall)%bind_Ok & (Hm & Hk & Hcl)%IHk)%bind_Ok.
      destruct (dict_get (edges_of G blk) k) as [nxt'|] eqn:Hk'; simplify_eq/=.
      pose proof (pre_marks_mono G _ _ _ _ Hcall) as Hm1.
      destruct (pre_rel_fuel G _ _ _ _ Hcall) as (calls & _ & Hm2 & _).
      split_and!.
      + eauto.
      + intros ty c [->|?]%elem_of_cons Hc; [|by eauto]. simplify_eq.
        apply Hm, Hm2. right; left.
      + intros a Ha. destruct (Hcl a Ha) as [Hu|?]; [|by right].
        destruct (IH _ _ _ Hcall a Hu) as [?|[? Hs]]; [by left|right].
        split; [done|]. eauto. }
  destruct (Hloop _ _ _ Hrun) as (Hm & Hk & Hcl).
  intros a Ha. destruct (Hcl a Ha) as [Hst1|?]; [|by right].
  destruct (decide (blk = a)) as [<-|Hne].
  - right. split; [done|]. intros c [ty Hty].
    eapply Hk; [|done]. by eapply dict_get_Some_key.
  - left. unfold marked, st1 in *; simpl in *. by rewrite dd_get_insert_ne in Hst1.
Qed.

Lemma is_path_trap_set a l :
  is_path G a l a → Forall (λ b, ¬ two_edges G b) (a :: l) → trap_set G (.∈ a :: l).
Proof.
  intros Hp Hall b Hb. split; [by eapply Forall_forall in Hall|].
  assert (∀ x l z, is_path G x l z → ∀ b, b ∈ x :: l → ∃ c, succ G b c ∧ c ∈ l ++ [z]) as Hstep.
  { clear. intros x l. revert x. induction l as [|y l IH]; intros x z; simpl.
    - intros ? b ->%list_elem_of_singleton. exists z. split; [done|left].
    - intros [? Hp] b [->|Hb]%elem_of_cons.
      + exists y. split; [done|left].
      + destruct (IH _ _ Hp b Hb) as (c & ? & ?). exists c. split; [done|by right]. }
  destruct (Hstep _ _ _ Hp b Hb) as (c & ? & Hc). exists c. split; [done|].
  set_solver.
Qed.

Lemma pre_diverges entry a l :
  rtc (succ G) entry a → is_path G a l a → Forall (λ b, ¬ two_edges G b) (a :: l) →
  ∀ fuel, pre G fuel entry {| p_vis := ∅; p_circles := ∅; p_calls := [] |} = OutOfFuel.
Proof.
  intros Hreach Hp Hall fuel.
  pose proof (is_path_trap_set a l Hp Hall) as HC.
  destruct (pre G fuel entry _) as [st'|e|] eqn:Hrun; [exfalso| |done].
  - pose proof (pre_closes_marks _ _ _ _ _ HC Hrun) as Hcl.
    assert (∀ b, marked st' b → ¬ (b ∈ a :: l) ∧ ∀ c, succ G b c → marked st' c) as Hcl'.
    { intros b Hb. destruct (Hcl b Hb) as [Hm|?]; [|done]. unfold marked in Hm. done. }
    destruct (pre_rel_fuel G _ _ _ _ Hrun) as (calls & _ & Hm & _).
    assert (marked st' entry) as Hentry by (apply Hm; right; left).
    assert (marked st' a) as Ha.
    { clear -Hreach Hentry Hcl'. induction Hreach as [|x y z Hxy _ IH]; [done|].
      apply IH; [done|]. destruct (Hcl' x Hentry) as [_ Hs]. by apply Hs. }
    destruct (Hcl' a Ha) as [Hn _]. apply Hn. left.
  - by apply pre_no_raise in Hrun.
Qed.
End pre_divergence.

(** ** The pre-pass: the stated properties *)

(** C4 (as amended): the blocks that one invocation of [pre] adds to
    [circles] are exactly the blocks with two outgoing edges on which
    [pre] was invoked while they were already marked, by the marks the
    invocation started from or by an earlier invocation of the walk. The
    marks are never cleared, so the path by which the block is met again
    plays no role; a block with another number of edges is never added. *)
Theorem pre_adds_revisited_two_edge_blocks {Instr} (G : Graph Instr) fuel blk st st' :
  pre G fuel blk st = Ok st' →
  ∃ calls, p_calls st' = p_calls st ++ blk :: calls
    ∧ ∀ b, b ∈ p_circles st' ↔
           b ∈ p_circles st ∨ (two_edges G b ∧ revisited (marked st) (blk :: calls) b).
Proof.
  intros (calls & Hc & _ & Hs)%pre_rel_fuel. exists calls. split; [done|]. exact Hs.
Qed.

Lemma pre_adds_revisited_two_edge_blocks_witness :
  ∃ st', pre diamond 10 "b_0" pre_start = Ok st'
    ∧ ∃ calls, p_calls st' = p_calls pre_start ++ "b_0" :: calls
      ∧ ∀ b, b ∈ p_circles st' ↔
             b ∈ p_circles pre_start
             ∨ (two_edges diamond b ∧ revisited (marked pre_start) ("b_0" :: calls) b).
Proof.
  eexists. split; [vm_compute; reflexivity|].
  apply (pre_adds_revisited_two_edge_blocks diamond 10). vm_compute. reflexivity.
Defined.

Lemma succ_edges {Instr} (G : Graph Instr) a b :
  succ G a b → ∃ es, (a, es) ∈ map_to_list (bbs_graph G) ∧ b ∈ es.*2.
Proof.
  intros [ty Hty%dict_get_elem]. unfold edges_of in Hty.
  destruct (bbs_graph G !! a) as [es|] eqn:Ha; simpl in Hty; [|by apply elem_of_nil in Hty].
  exists es. split; [by apply elem_of_map_to_list|].
  apply list_elem_of_fmap. by exists (ty, b).
Qed.

(** Evaluates the list that [H] states a membership in. *)
Ltac eval_list_in H :=
  match type of H with
  | _ ∈ ?l => let l' := eval vm_compute in l in change l with l' in H
  end.

(** All the edges of a CFG given in full. *)
Ltac inv_succ H :=
  let es := fresh "es" in
  let Hes := fresh "Hes" in
  let Hy := fresh "Hy" in
  apply succ_edges in H as (es & Hes & Hy);
  eval_list_in Hes;
  rewrite ?elem_of_cons, elem_of_nil in Hes;
  destruct_or!; simplify_eq/=.

(** C4, the claim as stated fails: the join block [b_3] of the diamond
    lies on no cycle, is met again by the second of two disjoint paths,
    and is added to [circles]. *)
Lemma pre_adds_diamond_join :
  ∃ st', pre diamond 10 "b_0" pre_start = Ok st'
    ∧ "b_3" ∈ p_circles st'
    ∧ ¬ tc (succ diamond) "b_3" "b_3".
Proof.
  eexists. split; [vm_compute; reflexivity|]. split; [by vm_compute|].
  assert (∀ x y, tc (succ diamond) x y → x ∈ ["b_3"; "b_4"; "b_5"] → y ∈ ["b_4"; "b_5"]) as H.
  { induction 1 as [x y Hxy|x y z Hxy _ IH]; intros Hx.
    - inv_succ Hxy; set_solver.
    - apply IH. inv_succ Hxy; set_solver. }
  intros Hc%H; set_solver.
Qed.

(** C10: [pre] finishes on every CFG each of whose cycles has a block
    with exactly two outgoing edges, from any block and any marks, and
    already when this holds of the cycles that the block it is started
    on reaches, these being all the walk can meet; and on a CFG with a
    cycle no block of which has exactly two outgoing edges, the walk of
    [pre] from an entry block that reaches the cycle goes on for ever:
    whatever the recursion budget, it is exhausted. *)
Theorem pre_terminates_iff_cycles_have_two_edge_block {Instr} (G : Graph Instr) :
  (cycles_have_two_edge_block G →
     ∀ blk st, ∃ fuel st', pre G fuel blk st = Ok st')
  ∧ (∀ entry, reachable_cycles_have_two_edge_block G entry →
       ∀ st, ∃ fuel st', pre G fuel entry st = Ok st')
  ∧ (∀ entry a l,
       rtc (succ G) entry a → is_path G a l a →
       Forall (λ b, ¬ two_edges G b) (a :: l) →
       ∀ fuel, pre G fuel entry pre_start = OutOfFuel).
Proof.
  split_and!.
  - apply pre_terminates.
  - intros entry Hcyc st. by apply (pre_terminates_from G entry).
  - apply pre_diverges.
Qed.

Lemma while_loop_cycles : cycles_have_two_edge_block while_loop.
Proof.
  intros a l Hp.
  assert (two_edges while_loop "b_1") as Htwo by (by vm_compute).
  destruct l as [|y l]; simpl in Hp.
  - inv_succ Hp; set_solver.
  - destruct Hp as [Hay _]. inv_succ Hay; exists "b_1"; (split; [set_solver|done]).
Qed.

Lemma pre_terminates_iff_cycles_have_two_edge_block_witness :
  (∃ fuel st', pre while_loop fuel "b_0" pre_start = Ok st')
  ∧ (∃ fuel st', pre while_loop fuel "b_1" pre_start = Ok st')
  ∧ (∀ fuel, pre self_loop fuel "b_0" pre_start = OutOfFuel).
Proof.
  destruct (pre_terminates_iff_cycles_have_two_edge_block while_loop) as (H1 & H2 & _).
  destruct (pre_terminates_iff_cycles_have_two_edge_block self_loop) as (_ & _ & H3).
  split_and!.
  - apply H1. exact while_loop_cycles.
  - apply H2. intros a l _. apply while_loop_cycles.
  - apply (H3 "b_0" "b_0" []).
    + constructor.
    + by exists unconditional.
    + constructor; [|constructor]. by vm_compute.
Defined.

(** ** The feasibility filter *)

Section filter_facts.
Context {State Formula : Type}.
Context (py_int : string → option Z).
Context (constraints : State → list Formula).
Context (solver_check : list Formula → option check_result).

#[local] Abbreviation filter_loop item :=
  (for_each (filter_branch constraints solver_check item)).

(** One step of the filter: what it adds to [avail_br] and to the
    queries, or the exception of the solver. *)
Lemma filter_branch_cases item ty avail_br queries :
  (filter_branch constraints solver_check item ty (avail_br, queries)
   = Ok (avail_br ++ (if survives constraints solver_check item ty then [ty] else []),
         queries ++ item_queries constraints item [ty]))
  ∨ (filter_branch constraints solver_check item ty (avail_br, queries) = Raise SolverException
     ∧ ∃ d state, item = PerBranch d ∧ is_conditional ty = true
         ∧ dict_get d ty = Some state ∧ solver_check (constraints state) = None).
Proof.
  unfold filter_branch, survives, item_queries. destruct item as [s|d]; simpl.
  { left. by rewrite app_nil_r. }
  destruct (is_conditional ty) eqn:Hc; simpl; [|left; by rewrite app_nil_r].
  destruct (dict_get d ty) as [st|] eqn:Hd; simpl; [|left; by rewrite !app_nil_r].
  destruct (solver_check (constraints st)) as [r|] eqn:Hs.
  - left. destruct (decide (sat ≠ r)) as [Hr|Hr].
    + rewrite bool_decide_eq_false_2 by naive_solver. by rewrite app_nil_r.
    + apply dec_stable in Hr as <-. by rewrite bool_decide_eq_true_2.
  - right. split; [done|]. by exists d, st.
Qed.

Lemma item_queries_cons item ty branches :
  item_queries constraints item (ty :: branches)
  = item_queries constraints item [ty] ++ item_queries constraints item branches.
Proof.
  unfold item_queries. destruct item as [s|d]; [done|]. simpl.
  by destruct (if is_conditional ty then _ else _).
Qed.

Lemma filter_loop_Ok item branches avail_br queries avail_br' queries' :
  filter_loop item branches (avail_br, queries) = Ok (avail_br', queries') →
  avail_br' = avail_br ++ filter (λ ty, survives constraints solver_check item ty = true) branches
  ∧ queries' = queries ++ item_queries constraints item branches.
Proof.
  revert avail_br queries. induction branches as [|ty branches IH]; intros avail_br queries.
  - intros [= <- <-]. destruct item; by rewrite !app_nil_r.
  - rewrite for_each_cons.
    destruct (filter_branch_cases item ty avail_br queries) as [->|[-> _]]; [|done].
    simpl. intros [-> ->]%IH. rewrite filter_cons, (item_queries_cons item ty branches), <-!app_assoc.
    split; [|done].
    by destruct (survives constraints solver_check item ty).
Qed.

Lemma filter_branches_Ok item branches avail_br queries :
  filter_branches constraints solver_check item branches = Ok (avail_br, queries) →
  avail_br = filter (λ ty, survives constraints solver_check item ty = true) branches
  ∧ queries = item_queries constraints item branches.
Proof. by intros [-> ->]%filter_loop_Ok. Qed.

(** The filter only stops on an exception of the solver. *)
Lemma filter_loop_total item branches acc :
  (∃ r, filter_loop item branches acc = Ok r)
  ∨ filter_loop item branches acc = Raise SolverException.
Proof.
  revert acc. induction branches as [|ty branches IH]; intros [av qs]; [by left; eexists|].
  rewrite for_each_cons.
  destruct (filter_branch_cases item ty av qs) as [->|[-> _]]; simpl; [apply IH|by right].
Qed.

End filter_facts.

(** ** The visitor: structure of one invocation *)

Lemma vis_same_refl w : vis_same w w.
Proof. done. Qed.

Lemma vis_same_trans w1 w2 w3 : vis_same w1 w2 → vis_same w2 w3 → vis_same w1 w3.
Proof. intros H1 H2 b. by rewrite H2, H1. Qed.

Section call_facts.
Context {State Formula : Type}.
Implicit Types cs : list (call State Formula).

Lemma chain_app start cs1 cs2 finish :
  chain start (cs1 ++ cs2) finish ↔ ∃ mid, chain start cs1 mid ∧ chain mid cs2 finish.
Proof.
  revert start. induction cs1 as [|c cs1 IH]; intros start; simpl.
  - split; [intros ?; by exists start|by intros (? & -> & ?)].
  - rewrite IH. naive_solver.
Qed.

Lemma contributed_app cs1 cs2 :
  contributed (cs1 ++ cs2) = contributed cs1 ++ contributed cs2.
Proof. unfold contributed. by rewrite filter_app, fmap_app, concat_app. Qed.

Lemma contributed_rounds cs :
  Forall (λ c, c_branches c = Some [conditional_false]) cs → contributed cs = [].
Proof.
  unfold contributed. induction 1 as [|c cs Hc _ IH]; [done|].
  rewrite filter_cons, decide_False by naive_solver. done.
Qed.

Lemma contributed_last (c : call State Formula) :
  c_branches c ≠ Some [conditional_false] → contributed [c] = c_out c.
Proof.
  intros Hc. unfold contributed. rewrite filter_cons, decide_True by done.
  simpl. by rewrite app_nil_r.
Qed.
End call_facts.

Section visit_facts.
Context {State Formula Instr HasRet : Type}.
Context (py_int : string → option Z).
Context (constraints : State → list Formula).
Context (emulate_basic_block :
  list (state_item State) → HasRet → list Instr → option (bool * list (state_item State))).
Context (solver_check : list Formula → option check_result).
Context (G : Graph Instr).
Context (circles : gset string).

#[local] Abbreviation item := (state_item State).
#[local] Abbreviation vcall := (call State Formula).
#[local] Abbreviation visit_fn :=
  (list item → HasRet → string → world → bool → option (list edge_type)
   → res (list item * world * vcall)).

(** The [for i in range(loop_maximum_rounds)] loop of lines 196-197. *)
Lemma loop_rounds (rec : visit_fn) has_ret nxt_blk guided n start w cs0 finish w' cs' :
  rec_ok rec →
  repeat_res n
    (λ '(enter_states, w, cs),
       '(out, w, c) ← rec enter_states has_ret nxt_blk w guided (Some [conditional_false]);
       Ok (out, w, cs ++ [c]))
    (start, w, cs0) = Ok (finish, w', cs') →
  ∃ rounds, cs' = cs0 ++ rounds ∧ length rounds = n
    ∧ Forall (λ c, call_sig c = (nxt_blk, Some [conditional_false])) rounds
    ∧ chain start rounds finish ∧ vis_same w w'.
Proof.
  intros Hrec. revert start w cs0. induction n as [|n IH]; intros start w cs0; simpl.
  - intros [= <- <- <-]. exists []. by rewrite app_nil_r.
  - intros ([[mid w1] cs1] & ([[out w2] c] & Hc & [= <- <- <-])%bind_Ok & Hrest)%bind_Ok.
    apply Hrec in Hc as (Hb & Hbr & Hin & Hout & Hw).
    apply IH in Hrest as (rounds & -> & <- & Hall & Hch & Hw').
    exists (c :: rounds). split_and!.
    + by rewrite <-app_assoc.
    + done.
    + constructor; [|done]. unfold call_sig. by rewrite Hb, Hbr.
    + simpl. by rewrite Hout.
    + by eapply vis_same_trans.
Qed.

(** Lines 190-203, for one edge type of [avail_br]. *)
Lemma visit_edge_spec (rec : visit_fn) has_ret blk guided state_item ty fs w calls fs' w' calls' :
  rec_ok rec →
  visit_edge G circles rec has_ret blk guided state_item ty (fs, w, calls) = Ok (fs', w', calls') →
  ∃ nxt_blk state new,
    dict_get (edges_of G blk) ty = Some nxt_blk
    ∧ match state_item with
      | PerBranch d => dict_get d ty = Some state
      | Flat s => s = state
      end
    ∧ calls' = calls ++ new ∧ fs' = fs ++ contributed new
    ∧ vis_same w w'
    ∧ call_sig <$> new
      = (if guided then [(nxt_blk, None)] else edge_schedule G circles nxt_blk)
    ∧ ∃ finish, chain [Flat state] new finish ∧ contributed new = finish.
Proof.
  intros Hrec. unfold visit_edge.
  intros (nxt_blk & Hnxt & (state & Hstate & Hrun)%bind_Ok)%bind_Ok.
  destruct (dict_get (edges_of G blk) ty) as [?|] eqn:Hty; simplify_eq/=.
  exists nxt_blk, state.
  assert (match state_item with
          | PerBranch d => dict_get d ty = Some state
          | Flat s => s = state
          end) as Hst.
  { destruct state_item as [s|d]; simpl in Hstate; [by simplify_eq|].
    by destruct (dict_get d ty); simplify_eq/=. }
  assert (('(out, w0, c) ← rec [Flat state] has_ret nxt_blk w guided None;
           Ok (fs ++ out, w0, calls ++ [c])) = Ok (fs', w', calls') →
          ∃ c, fs' = fs ++ c_out c ∧ calls' = calls ++ [c] ∧ vis_same w w'
               ∧ call_sig c = (nxt_blk, None) ∧ c_in c = [Flat state]) as Hplain.
  { intros ([[out w0] c] & Hc & [= <- <- <-])%bind_Ok.
    apply Hrec in Hc as (Hb & Hbr & Hin & Hout & Hw). exists c.
    unfold call_sig. by rewrite Hb, Hbr, Hout. }
  assert (∀ c : vcall, call_sig c = (nxt_blk, None) → contributed [c] = c_out c) as Hcontr.
  { intros c [= _ Hbr]. apply contributed_last. by rewrite Hbr. }
  unfold edge_schedule.
  destruct guided; simpl in Hrun; [|destruct (bool_decide (nxt_blk ∈ circles)) eqn:Hcirc].
  - apply Hplain in Hrun as (c & -> & -> & Hw & Hsig & Hin).
    exists [c]. rewrite Hcontr by done. split_and!; try done.
    + simpl. by rewrite Hsig.
    + by exists (c_out c).
  - apply bind_Ok in Hrun as ([[mid w1] cs] & Hrounds & Hlast).
    apply loop_rounds in Hrounds as (rounds & -> & Hlen & Hall & Hch & Hw1); [|done].
    apply bind_Ok in Hlast as ([[out w2] c] & Hc & [= <- <- <-]).
    apply Hrec in Hc as (Hb & Hbr & Hin & Hout & Hw2).
    assert (contributed (rounds ++ [c]) = out) as Hco.
    { rewrite contributed_app, contributed_rounds, contributed_last; [done| |].
      - by rewrite Hbr.
      - eapply Forall_impl; [done|]. by intros ? [= _ ?]. }
    exists (rounds ++ [c]). simpl. split_and!; try done.
    + by rewrite Hco.
    + by eapply vis_same_trans.
    + rewrite fmap_app. simpl. unfold call_sig at 2. rewrite Hb, Hbr. f_equal.
      rewrite <-Hlen. clear -Hall. induction Hall as [|x l Hx _ IH]; [done|].
      rewrite fmap_cons, Hx. simpl. by rewrite IH.
    + exists out. split; [|done]. apply chain_app. exists mid. split; [done|].
      simpl. by rewrite Hin, Hout.
  - apply Hplain in Hrun as (c & -> & -> & Hw & Hsig & Hin).
    exists [c]. rewrite Hcontr by done. split_and!; try done.
    + simpl. by rewrite Hsig.
    + by exists (c_out c).
Qed.

(** Lines 190-203, the whole loop over [avail_br]. *)
Lemma visit_edges_spec (rec : visit_fn) has_ret blk guided state_item avail_br
    fs w calls fs' w' calls' :
  rec_ok rec →
  for_each (visit_edge G circles rec has_ret blk guided state_item) avail_br (fs, w, calls)
    = Ok (fs', w', calls') →
  ∃ new, calls' = calls ++ new ∧ fs' = fs ++ contributed new ∧ vis_same w w'
    ∧ call_sig <$> new
      = avail_br ≫= λ ty,
          match dict_get (edges_of G blk) ty with
          | Some nxt_blk =>
              if guided then [(nxt_blk, None)] else edge_schedule G circles nxt_blk
          | None => []
          end.
Proof.
  intros Hrec. revert fs w calls.
  induction avail_br as [|ty avail_br IH]; intros fs w calls.
  - intros [= <- <- <-]. exists []. by rewrite !app_nil_r.
  - rewrite for_each_cons.
    intros ([[fs1 w1] calls1] & Hedge & Hrest)%bind_Ok.
    eapply visit_edge_spec in Hedge
      as (nxt_blk & state & new1 & Hty & _ & -> & -> & Hw1 & Hsig1 & _); [|done].
    apply IH in Hrest as (new2 & -> & -> & Hw2 & Hsig2).
    exists (new1 ++ new2). split_and!.
    + by rewrite app_assoc.
    + by rewrite contributed_app, app_assoc.
    + by eapply vis_same_trans.
    + rewrite fmap_app, Hsig1, Hsig2. simpl. by rewrite Hty.
Qed.

(** Lines 169-203, for one item of the emulator's output. *)
Lemma visit_item_spec (rec : visit_fn) has_ret blk guided branches emul_states state_item
    fs w qs calls fs' w' qs' calls' :
  rec_ok rec →
  visit_item py_int constraints solver_check G circles rec has_ret blk guided branches emul_states
    state_item (fs, w, qs, calls) = Ok (fs', w', qs', calls') →
  ∃ new, calls' = calls ++ new ∧ fs' = fs ++ contributed new
    ∧ qs' = qs ++ item_queries constraints state_item branches
    ∧ vis_same w w'
    ∧ (guided = false →
       call_sig <$> new = item_schedule constraints solver_check G circles blk branches state_item).
Proof.
  intros Hrec. unfold visit_item.
  intros ([avail0 qs0] & [-> ->]%filter_branches_Ok
          & ([avail_br w0] & Hask & ([[fs1 w1] calls1] & Hloop & [= <- <- <- <-])%bind_Ok)%bind_Ok)%bind_Ok.
  assert (vis_same w w0 ∧ (guided = false → avail_br
            = filter (λ ty, survives constraints solver_check state_item ty = true) branches))
    as [Hw0 Hav].
  { destruct guided; [|by simplify_eq].
    destruct (ask_user_input py_int _ _ _ _ _) as [[[?|ty]| |] ?]; by simplify_eq. }
  eapply visit_edges_spec in Hloop as (new & -> & -> & Hw1 & Hsig); [|done].
  exists new. split_and!; try done.
  - by eapply vis_same_trans.
  - intros ->. rewrite Hsig, Hav by done. done.
Qed.

(** Lines 169-203, the whole loop over the emulator's output. *)
Lemma visit_items_spec (rec : visit_fn) has_ret blk guided branches emul_states items
    fs w qs calls fs' w' qs' calls' :
  rec_ok rec →
  for_each (visit_item py_int constraints solver_check G circles rec has_ret blk guided branches
              emul_states) items (fs, w, qs, calls) = Ok (fs', w', qs', calls') →
  ∃ new, calls' = calls ++ new ∧ fs' = fs ++ contributed new
    ∧ qs' = qs ++ (items ≫= λ state_item, item_queries constraints state_item branches)
    ∧ vis_same w w'
    ∧ (guided = false →
       call_sig <$> new
       = items ≫= item_schedule constraints solver_check G circles blk branches).
Proof.
  intros Hrec. revert fs w qs calls.
  induction items as [|state_item items IH]; intros fs w qs calls.
  - intros [= <- <- <- <-]. exists []. by rewrite !app_nil_r.
  - rewrite for_each_cons.
    intros ([[[fs1 w1] qs1] calls1] & Hitem & Hrest)%bind_Ok.
    eapply visit_item_spec in Hitem as (new1 & -> & -> & -> & Hw1 & Hsig1); [|done].
    apply IH in Hrest as (new2 & -> & -> & -> & Hw2 & Hsig2).
    exists (new1 ++ new2). split_and!.
    + by rewrite app_assoc.
    + by rewrite contributed_app, app_assoc.
    + simpl. by rewrite app_assoc.
    + by eapply vis_same_trans.
    + intros Hg. rewrite fmap_app, Hsig1, Hsig2 by done. done.
Qed.

#[local] Abbreviation visit_body' :=
  (visit_body py_int constraints emulate_basic_block solver_check G circles).
#[local] Abbreviation visit' :=
  (visit py_int constraints emulate_basic_block solver_check G circles).

(** What one invocation of [visit] did, read off the record it returns. *)
Lemma visit_body_spec (rec : visit_fn) states has_ret blk w guided branches out w' c :
  rec_ok rec →
  visit_body' rec states has_ret blk w guided branches = Ok (out, w', c) →
  (c_blk c = blk ∧ c_branches c = branches ∧ c_in c = states ∧ c_out c = out)
  ∧ vis_same w w'
  ∧ match c_emul c with
    | None =>
        guided = false ∧ 0 < dd_get (w_vis w) blk ∧ out = states ∧ w' = w
        ∧ c_queries c = [] ∧ c_children c = []
    | Some (halt, emul_states) =>
        (guided = true ∨ dd_get (w_vis w) blk ≤ 0)
        ∧ (∃ instructions, bb_to_instructions G !! blk = Some instructions
             ∧ emulate_basic_block states has_ret instructions = Some (halt, emul_states))
        ∧ if halt || bool_decide (length (edges_of G blk) = 0%nat)
          then out = emul_states ∧ c_queries c = [] ∧ c_children c = []
          else out = (if bool_decide (0 < length (contributed (c_children c)))%nat
                      then contributed (c_children c) else states)
               ∧ (guided = false →
                  c_queries c
                  = (emul_states ≫= λ state_item,
                       item_queries constraints state_item (branches_of G blk branches))
                  ∧ call_sig <$> c_children c
                    = emul_states ≫= item_schedule constraints solver_check G circles blk
                                       (branches_of G blk branches))
    end.
Proof.
  intros Hrec. unfold visit_body.
  destruct (negb guided && bool_decide (0 < dd_get (w_vis w) blk)) eqn:Hguard.
  { intros [= <- <- <-]. simpl.
    apply andb_true_iff in Hguard as [?%negb_true_iff ?%bool_decide_eq_true]. done. }
  assert (guided = true ∨ dd_get (w_vis w) blk ≤ 0) as Hpast.
  { apply andb_false_iff in Hguard as [?%negb_false_iff|?%bool_decide_eq_false]; [by left|right; lia]. }
  set (w0 := if guided then w else set_vis w (dd_touch (w_vis w) blk)).
  assert (vis_same w w0) as Hw0.
  { unfold w0. destruct guided; [done|]. intros b. apply dd_get_touch. }
  intros (instructions & Hins & ([halt emul_states] & Hemul & Hrun)%bind_Ok)%bind_Ok.
  destruct (bb_to_instructions G !! blk) as [?|] eqn:Hbb; simplify_eq/=.
  destruct (emulate_basic_block states has_ret instructions) as [?|] eqn:Hem; simplify_eq/=.
  destruct (halt || bool_decide (length (edges_of G blk) = 0%nat)) eqn:Hterm.
  { injection Hrun as <- <- <-. simpl. rewrite Hterm. split_and!; eauto. }
  apply bind_Ok in Hrun as ([emul1 w1] & Hpick & Hrun).
  apply bind_Ok in Hrun as ([[[fs w2] qs] calls] & Hloop & [= <- <- <-]).
  eapply visit_items_spec in Hloop as (new & -> & -> & -> & Hw2 & Hsig); [|done].
  simpl. rewrite Hterm.
  assert (vis_same (set_vis w0 (<[blk:=dd_get (w_vis w0) blk + 1]> (w_vis w0))) w1
          ∧ (guided = false → emul1 = emul_states)) as [Hw1 Hem1].
  { destruct guided; [|by simplify_eq].
    destruct (ask_user_input py_int _ _ _ _ _) as [[[i|?]| |] ?]; simplify_eq/=.
    apply bind_Ok in Hpick as (? & _ & [= <- <-]). done. }
  split_and!; eauto.
  - intros b. simpl. destruct (decide (blk = b)) as [->|].
    + rewrite dd_get_insert_eq, Hw2, Hw1. simpl. rewrite dd_get_insert_eq, Hw0. lia.
    + rewrite dd_get_insert_ne, Hw2, Hw1 by done. simpl.
      by rewrite dd_get_insert_ne, Hw0 by done.
  - intros Hg. rewrite <-Hem1 by done. split; [done|]. by apply Hsig.
Qed.

Lemma visit_body_ok (rec : visit_fn) : rec_ok rec → rec_ok (visit_body' rec).
Proof.
  intros Hrec states has_ret blk w guided branches out w' c Hrun.
  eapply visit_body_spec in Hrun as ((? & ? & ? & ?) & ? & _); done.
Qed.

Lemma visit_ok fuel : rec_ok (visit' fuel).
Proof.
  induction fuel as [|n IH]; [by intros ?????????|]. by apply visit_body_ok.
Qed.
End visit_facts.

(** ** The visitor: an unguided traversal finishes *)

Lemma sum_list_with_ext {A} (f g : A → nat) (l : list A) :
  (∀ y, y ∈ l → g y = f y) → sum_list_with g l = sum_list_with f l.
Proof.
  induction l as [|y l IH]; intros Heq; [done|].
  change (g y + sum_list_with g l = f y + sum_list_with f l)%nat.
  rewrite (Heq y), IH; [done| |left]. intros ??; apply Heq. by right.
Qed.

Lemma sum_list_with_lt {A} (f g : A → nat) (l : list A) x :
  NoDup l → x ∈ l → (g x < f x)%nat → (∀ y, y ≠ x → g y = f y) →
  (sum_list_with g l < sum_list_with f l)%nat.
Proof.
  intros Hnd Hx Hlt Heq. induction Hnd as [|y l Hy Hnd IH]; [by apply elem_of_nil in Hx|].
  change (g y + sum_list_with g l < f y + sum_list_with f l)%nat.
  apply elem_of_cons in Hx as [<-|Hx].
  - rewrite (sum_list_with_ext f g l); [lia|]. intros z Hz. apply Heq. by intros ->.
  - rewrite (Heq y) by by intros ->. specialize (IH Hx). lia.
Qed.

Section visit_termination.
Context {State Formula Instr HasRet : Type}.
Context (py_int : string → option Z).
Context (constraints : State → list Formula).
Context (emulate_basic_block :
  list (state_item State) → HasRet → list Instr → option (bool * list (state_item State))).
Context (solver_check : list Formula → option check_result).
Context (G : Graph Instr).
Context (circles : gset string).

#[local] Abbreviation visit' :=
  (visit py_int constraints emulate_basic_block solver_check G circles).

Lemma visit_budget_same w w' : vis_same w w' → visit_budget G w' = visit_budget G w.
Proof.
  intros Hw. unfold visit_budget. apply sum_list_with_ext. intros b _. by rewrite Hw.
Qed.

Lemma visit_budget_enter w blk :
  length (edges_of G blk) ≠ 0%nat → dd_get (w_vis w) blk ≤ 0 →
  (visit_budget G (set_vis w (<[blk := (dd_get (w_vis w) blk + 1)%Z]> (w_vis w)))
   < visit_budget G w)%nat.
Proof.
  intros Hedges Hv. unfold visit_budget. apply (sum_list_with_lt _ _ _ blk).
  - apply NoDup_elements.
  - apply elem_of_elements, elem_of_dom. unfold edges_of in Hedges.
    destruct (bbs_graph G !! blk); [by eauto|done].
  - simpl. rewrite dd_get_insert_eq. lia.
  - intros b Hb. simpl. by rewrite dd_get_insert_ne.
Qed.

(** In unguided mode the recursion of [visit] is no deeper than the
    budget of the counters it starts from. *)
Lemma visit_unguided_terminates fuel states has_ret blk w branches :
  (visit_budget G w < fuel)%nat →
  visit' fuel states has_ret blk w false branches ≠ OutOfFuel.
Proof.
  revert states blk w branches. induction fuel as [|n IH]; intros states blk w branches Hfuel; [lia|].
  simpl. unfold visit_body. simpl.
  destruct (bool_decide (0 < dd_get (w_vis w) blk)) eqn:Hguard; [done|].
  apply bool_decide_eq_false in Hguard.
  apply bind_not_stuck; [by destruct (bb_to_instructions G !! blk)|].
  intros instructions _. apply bind_not_stuck; [by destruct (emulate_basic_block _ _ _)|].
  intros [halt emul_states] _.
  destruct (halt || bool_decide (length (edges_of G blk) = 0%nat)) eqn:Hterm; [done|].
  apply orb_false_iff in Hterm as [_ Hedges%bool_decide_eq_false].
  simpl.
  set (w0 := set_vis w (dd_touch (w_vis w) blk)).
  set (w1 := set_vis w0 (<[blk := dd_get (w_vis w0) blk + 1]> (w_vis w0))).
  assert (visit_budget G w1 < n)%nat as Hw1.
  { assert (vis_same w w0) as Hw0 by (intros b; apply dd_get_touch).
    assert (dd_get (w_vis w0) blk ≤ 0) as Hv0 by (rewrite Hw0; lia).
    pose proof (visit_budget_enter w0 blk Hedges Hv0) as Hlt.
    rewrite (visit_budget_same _ _ Hw0) in Hlt. unfold w1. lia. }
  assert (∀ w2 st nxt br, vis_same w1 w2 → visit' n st has_ret nxt w2 false br ≠ OutOfFuel)
    as Hrec.
  { intros w2 st nxt br Hw2. apply IH. by rewrite (visit_budget_same _ _ Hw2). }
  pose proof (visit_ok py_int constraints emulate_basic_block solver_check G circles n) as Hok.
  clear Hfuel IH.
  apply bind_not_stuck; [|by intros [[[??]?]?]].
  apply (for_each_not_stuck (λ acc, vis_same w1 acc.1.1.2)); [| |done].
  - (* one item *)
    intros state_item [[[fs w2] qs] calls] _ Hw2. simpl in Hw2. unfold visit_item.
    apply bind_not_stuck.
    { destruct (filter_loop_total constraints solver_check state_item
                  (branches_of G blk branches) ([], [])) as [[r Hr]|Hr];
        unfold filter_branches, branches_of in *; by rewrite Hr. }
    intros [avail_br qs0] _. simpl.
    apply bind_not_stuck; [|by intros [[??]?]].
    apply (for_each_not_stuck (λ acc, vis_same w1 acc.1.2)); [| |done].
    + (* one edge *)
      intros ty [[fs3 w3] calls3] _ Hw3. simpl in Hw3. unfold visit_edge.
      apply bind_not_stuck; [by destruct (dict_get (edges_of G blk) ty)|].
      intros nxt_blk _. apply bind_not_stuck.
      { destruct state_item as [?|d]; [done|]. by destruct (dict_get d ty). }
      intros state _. simpl.
      destruct (bool_decide (nxt_blk ∈ circles)).
      * apply bind_not_stuck.
        -- apply (repeat_res_not_stuck (λ acc, vis_same w1 acc.1.2)); [| |done].
           ++ intros [[es w4] cs] Hw4. apply bind_not_stuck; [by apply Hrec|].
              by intros [[??]?].
           ++ intros [[es w4] cs] [[es' w5] cs'] Hw4.
              intros ([[out w6] c] & Hc & [= <- <- <-])%bind_Ok.
              apply Hok in Hc as (_ & _ & _ & _ & Hw6). simpl in *.
              by eapply vis_same_trans.
        -- intros [[es w4] cs] Hrounds.
           eapply loop_rounds in Hrounds as (_ & _ & _ & _ & _ & Hw4); [|done].
           apply bind_not_stuck; [|by intros [[??]?]].
           apply Hrec. by eapply vis_same_trans.
      * apply bind_not_stuck; [by apply Hrec|]. by intros [[??]?].
    + intros ty [[fs3 w3] calls3] [[fs4 w4] calls4] _ Hw3 Hedge. simpl in Hw3 |- *.
      eapply visit_edge_spec in Hedge as (_ & _ & _ & _ & _ & _ & _ & Hw4 & _); [|done].
      by eapply vis_same_trans.
  - intros state_item [[[fs w2] qs] calls] [[[fs' w2'] qs'] calls'] _ Hw2 Hitem.
    simpl in Hw2 |- *.
    eapply visit_item_spec in Hitem as (_ & _ & _ & _ & Hw2' & _); [|done].
    by eapply vis_same_trans.
Qed.
End visit_termination.

(** ** The visitor: the stated properties *)

Section visit_claims.
Context {State Formula Instr HasRet : Type}.
Context (py_int : string → option Z).
Context (constraints : State → list Formula).
Context (emulate_basic_block :
  list (state_item State) → HasRet → list Instr → option (bool * list (state_item State))).
Context (solver_check : list Formula → option check_result).
Context (G : Graph Instr).
Context (circles : gset string).

#[local] Abbreviation visit' :=
  (visit py_int constraints emulate_basic_block solver_check G circles).

(** C8: an invocation of [visit] that got past the re-entrance check and
    whose block neither halted nor is terminal returns the states it was
    given when the invocations it made contributed no state, and
    otherwise the states they contributed. *)
Theorem visit_returns_input_states_when_none_aggregated
    fuel states has_ret blk w guided branches out w' c emul_states :
  visit' fuel states has_ret blk w guided branches = Ok (out, w', c) →
  c_emul c = Some (false, emul_states) →
  length (edges_of G blk) ≠ 0%nat →
  (contributed (c_children c) = [] → out = states)
  ∧ (contributed (c_children c) ≠ [] → out = contributed (c_children c)).
Proof.
  destruct fuel as [|n]; [done|]. simpl. intros Hrun Hemul Hedges.
  eapply visit_body_spec in Hrun as (_ & _ & Hspec); [|apply visit_ok].
  rewrite Hemul in Hspec. destruct Hspec as (_ & _ & Hspec).
  rewrite bool_decide_eq_false_2 in Hspec by done. simpl in Hspec.
  destruct Hspec as [-> _]. split; intros Hagg.
  - by rewrite Hagg.
  - rewrite bool_decide_eq_true_2; [done|].
    destruct (contributed (c_children c)); [done|simpl; lia].
Qed.
End visit_claims.

Lemma visit_returns_input_states_when_none_aggregated_witness :
  ∃ out w' c,
    toy_visit undecided_branch ∅ 10 [Flat []] false "b_0" fresh_world false None
      = Ok (out, w', c)
    ∧ (contributed (c_children c) = [] → out = [Flat []])
    ∧ (contributed (c_children c) ≠ [] → out = contributed (c_children c)).
Proof.
  eexists _, _, _. split; [vm_compute; reflexivity|].
  eapply (visit_returns_input_states_when_none_aggregated
           toy_int (@id (list Z)) toy_emulate toy_solver undecided_branch ∅ 10 [Flat []] false "b_0"
           fresh_world false None).
  - vm_compute. reflexivity.
  - reflexivity.
  - vm_compute. lia.
Defined.

(** ** The visitor: counters and the operator's input lines *)

Section driver_facts.
Context {State Formula Instr HasRet : Type}.
Context (py_int : string → option Z).
Context (constraints : State → list Formula).
Context (emulate_basic_block :
  list (state_item State) → HasRet → list Instr → option (bool * list (state_item State))).
Context (solver_check : list Formula → option check_result).
Context (init_state : string → State * HasRet).
Context (G : Graph Instr).

#[local] Abbreviation visit' :=
  (visit py_int constraints emulate_basic_block solver_check G).
#[local] Abbreviation traverse_one' :=
  (traverse_one py_int constraints emulate_basic_block solver_check init_state G).
#[local] Abbreviation traverse' :=
  (traverse py_int constraints emulate_basic_block solver_check init_state G).

(** An unguided [visit] never prompts. *)
Lemma visit_unguided_inputs circles fuel states has_ret blk w branches out w' c :
  visit' circles fuel states has_ret blk w false branches = Ok (out, w', c) →
  w_inputs w' = w_inputs w.
Proof.
  revert states blk w branches out w' c.
  induction fuel as [|n IH]; intros states blk w branches out w' c; [done|].
  simpl. unfold visit_body. simpl.
  destruct (bool_decide (0 < dd_get (w_vis w) blk)); [by intros [= <- <- <-]|].
  intros (instructions & _ & ([halt emul_states] & _ & Hrun)%bind_Ok)%bind_Ok.
  destruct (halt || bool_decide (length (edges_of G blk) = 0%nat)); [by simplify_eq|].
  simpl in Hrun.
  apply bind_Ok in Hrun as ([[[fs w2] qs] calls] & Hloop & [= <- <- <-]). simpl.
  eapply (for_each_inv (λ acc, w_inputs acc.1.1.2 = w_inputs w)) in Hloop; [done| |done].
  clear Hloop fs w2 qs calls.
  intros state_item [[[fs w2] qs] calls] [[[fs' w2'] qs'] calls'] _ Hw2.
  unfold visit_item.
  intros ([avail0 qs0] & _ & Hrun)%bind_Ok. simpl in Hrun.
  apply bind_Ok in Hrun as ([[fs1 w1] calls1] & Hloop & [= <- <- <- <-]).
  eapply (for_each_inv (λ acc, w_inputs acc.1.2 = w_inputs w)) in Hloop; [done| |done].
  clear Hloop fs1 w1 calls1.
  intros ty [[fs3 w3] calls3] [[fs4 w4] calls4] _ Hw3.
  unfold visit_edge.
  intros (nxt_blk & _ & (state & _ & Hrun)%bind_Ok)%bind_Ok. simpl in *.
  destruct (bool_decide (nxt_blk ∈ circles)).
  - apply bind_Ok in Hrun as ([[es w5] cs] & Hrounds & Hlast).
    eapply (repeat_res_inv (λ acc, w_inputs acc.1.2 = w_inputs w)) in Hrounds; [| |done].
    + apply bind_Ok in Hlast as ([[out1 w6] c1] & Hc%IH & [= <- <- <-]). simpl in *. congruence.
    + intros [[es1 w6] cs1] [[es2 w7] cs2] Hw6.
      intros ([[out1 w8] c1] & Hc%IH & [= <- <- <-])%bind_Ok. simpl in *. congruence.
  - apply bind_Ok in Hrun as ([[out1 w6] c1] & Hc%IH & [= <- <- <-]). simpl. congruence.
Qed.

Lemma traverse_one_inv fuel func inputs final inputs' c :
  traverse_one' fuel func inputs = Ok (final, inputs', c) →
  ∃ entry_bb p w',
    pre G fuel entry_bb pre_start = Ok p
    ∧ visit' (p_circles p) fuel [Flat (init_state func).1] (init_state func).2 entry_bb
        {| w_vis := ∅; w_inputs := inputs |} (manual_guide G) None = Ok (final, w', c)
    ∧ inputs' = w_inputs w'.
Proof.
  unfold traverse_one. destruct (init_state func) as [state has_ret]. simpl.
  intros (bbs & _ & (entry_bb & _ & (p & Hp & ([[fs w'] c'] & Hv & [= <- <- <-])%bind_Ok)%bind_Ok)%bind_Ok)%bind_Ok.
  by exists entry_bb, p, w'.
Qed.

Lemma traverse_one_unguided_inputs fuel func inputs final inputs' c :
  manual_guide G = false →
  traverse_one' fuel func inputs = Ok (final, inputs', c) → inputs' = inputs.
Proof.
  intros Hg (entry_bb & p & w' & _ & Hv & ->)%traverse_one_inv.
  rewrite Hg in Hv. by apply visit_unguided_inputs in Hv.
Qed.

Lemma traverse_unguided_spec fuel entries inputs final_states0 final_states inputs' :
  manual_guide G = false →
  for_each
    (λ entry_func '(final_states, inputs),
       '(states, inputs, _) ← traverse_one' fuel entry_func inputs;
       Ok (dict_set final_states entry_func (Some states), inputs))
    entries (final_states0, inputs) = Ok (final_states, inputs') →
  inputs' = inputs
  ∧ ∀ func,
      (func ∈ entries →
       ∃ states c, traverse_one' fuel func inputs = Ok (states, inputs, c)
                   ∧ dict_get final_states func = Some (Some states))
      ∧ (func ∉ entries → dict_get final_states func = dict_get final_states0 func).
Proof.
  intros Hg. revert final_states0.
  induction entries as [|e entries IH]; intros final_states0.
  - intros [= <- <-]. split; [done|]. intros func. split; [by intros ?%elem_of_nil|done].
  - rewrite for_each_cons.
    intros ([fs1 inputs1] & ([[states inputs2] c] & He & [= <- <-])%bind_Ok & Hrest)%bind_Ok.
    pose proof (traverse_one_unguided_inputs _ _ _ _ _ _ Hg He) as ->.
    apply IH in Hrest as [-> Hrest]. split; [done|]. intros func.
    destruct (Hrest func) as [Hin Hout]. split.
    + intros Hfunc. destruct (decide (func ∈ entries)) as [?|Hnin]; [by auto|].
      apply elem_of_cons in Hfunc as [->|?]; [|done].
      exists states, c. split; [done|]. rewrite Hout by done. apply dict_get_set_eq.
    + intros [Hne Hnin]%not_elem_of_cons. rewrite Hout by done.
      by apply dict_get_set_ne.
Qed.

(** C7: every invocation of [visit] that returns hands the counters
    back with the values they had (a missing key reading as 0), and an
    unguided invocation does end, by a return or an exception, within a
    recursion depth that the counters bound; the traversal of an entry
    function runs [pre] from no marks and an empty [circles], and [visit]
    from counters that are all 0; and in an unguided run of [traverse]
    each entry function gets the result that [traverse_one] gives for it
    on its own, whatever was traversed before it. *)
Theorem visit_restores_counters_and_traversals_start_fresh :
  (∀ circles fuel states has_ret blk w guided branches out w' c,
     visit' circles fuel states has_ret blk w guided branches = Ok (out, w', c) →
     vis_same w w')
  ∧ (∀ circles fuel states has_ret blk w branches,
       (visit_budget G w < fuel)%nat →
       visit' circles fuel states has_ret blk w false branches ≠ OutOfFuel)
  ∧ (∀ fuel func inputs final inputs' c,
       traverse_one' fuel func inputs = Ok (final, inputs', c) →
       ∃ entry_bb p w',
         pre G fuel entry_bb {| p_vis := ∅; p_circles := ∅; p_calls := [] |} = Ok p
         ∧ visit' (p_circles p) fuel [Flat (init_state func).1] (init_state func).2 entry_bb
             {| w_vis := ∅; w_inputs := inputs |} (manual_guide G) None = Ok (final, w', c)
         ∧ ∀ b, dd_get (w_vis w') b = 0)
  ∧ (∀ fuel entries inputs final_states inputs',
       manual_guide G = false →
       traverse' fuel entries inputs = Ok (final_states, inputs') →
       ∀ func, func ∈ entries →
         ∃ states c, traverse_one' fuel func inputs = Ok (states, inputs, c)
                     ∧ dict_get final_states func = Some (Some states)).
Proof.
  split_and!.
  - intros circles fuel states has_ret blk w guided branches out w' c Hrun.
    by apply visit_ok in Hrun as (_ & _ & _ & _ & ?).
  - intros circles fuel states has_ret blk w branches.
    apply visit_unguided_terminates.
  - intros fuel func inputs final inputs' c (entry_bb & p & w' & Hp & Hv & _)%traverse_one_inv.
    exists entry_bb, p, w'. split_and!; [done..|].
    intros b. apply visit_ok in Hv as (_ & _ & _ & _ & Hw). by rewrite Hw.
  - intros fuel entries inputs final_states inputs' Hg Hrun func Hfunc.
    eapply traverse_unguided_spec in Hrun as [_ Hrun]; [|done].
    by apply Hrun.
Qed.
End driver_facts.

Lemma visit_restores_counters_and_traversals_start_fresh_witness :
  (∃ out w' c,
     toy_visit plain_diamond ∅ 10 [Flat []] false "b_0" fresh_world false None = Ok (out, w', c)
     ∧ vis_same fresh_world w')
  ∧ toy_visit plain_diamond ∅ 10 [Flat []] false "b_0" fresh_world false None ≠ OutOfFuel
  ∧ (∃ final inputs' c,
       toy_traverse_one plain_diamond 10 "f" [] = Ok (final, inputs', c)
       ∧ ∃ entry_bb p w',
           pre plain_diamond 10 entry_bb {| p_vis := ∅; p_circles := ∅; p_calls := [] |} = Ok p
           ∧ toy_visit plain_diamond (p_circles p) 10 [Flat []] false entry_bb
               {| w_vis := ∅; w_inputs := [] |} (manual_guide plain_diamond) None
             = Ok (final, w', c)
           ∧ ∀ b, dd_get (w_vis w') b = 0)
  ∧ (∃ final_states inputs',
       traverse toy_int (@id (list Z)) toy_emulate toy_solver (λ _, ([], false)) plain_diamond
         10 ["f"; "f"] [] = Ok (final_states, inputs')
       ∧ ∃ states c, toy_traverse_one plain_diamond 10 "f" [] = Ok (states, [], c)
                     ∧ dict_get final_states "f" = Some (Some states)).
Proof.
  pose proof (visit_restores_counters_and_traversals_start_fresh
                toy_int (@id (list Z)) toy_emulate toy_solver (λ _, ([], false)) plain_diamond)
    as (H1 & H0 & H2 & H3).
  split_and!.
  - eexists _, _, _. split; [vm_compute; reflexivity|].
    eapply (H1 ∅ 10%nat [Flat []] false "b_0" fresh_world false None). vm_compute. reflexivity.
  - apply (H0 ∅ 10%nat [Flat []] false "b_0" fresh_world None). vm_compute. lia.
  - eexists _, _, _. split; [vm_compute; reflexivity|].
    eapply (H2 10%nat "f" []). vm_compute. reflexivity.
  - eexists _, _. split; [vm_compute; reflexivity|].
    eapply (H3 10%nat ["f"; "f"] []); [reflexivity|vm_compute; reflexivity|set_solver].
Defined.

(** ** The visitor: which edges are followed *)



Section calls_facts.
Context {State Formula Instr HasRet : Type}.
Context (py_int : string → option Z).
Context (constraints : State → list Formula).
Context (emulate_basic_block :
  list (state_item State) → HasRet → list Instr → option (bool * list (state_item State))).
Context (solver_check : list Formula → option check_result).
Context (G : Graph Instr).
Context (circles : gset string).

#[local] Abbreviation visit_fn :=
  (list (state_item State) → HasRet → string → world → bool → option (list edge_type)
   → res (list (state_item State) * world * call State Formula)).




#[local] Abbreviation visit_body' :=
  (visit_body py_int constraints emulate_basic_block solver_check G circles).

End calls_facts.

Section edge_claims.
Context {State Formula Instr HasRet : Type}.
Context (py_int : string → option Z).
Context (constraints : State → list Formula).
Context (emulate_basic_block :
  list (state_item State) → HasRet → list Instr → option (bool * list (state_item State))).
Context (solver_check : list Formula → option check_result).
Context (G : Graph Instr).
Context (circles : gset string).

#[local] Abbreviation visit' :=
  (visit py_int constraints emulate_basic_block solver_check G circles).


End edge_claims.

Section unrolling_claim.
Context {State Formula Instr HasRet : Type}.
Context (py_int : string → option Z).
Context (constraints : State → list Formula).
Context (emulate_basic_block :
  list (state_item State) → HasRet → list Instr → option (bool * list (state_item State))).
Context (solver_check : list Formula → option check_result).
Context (G : Graph Instr).
Context (circles : gset string).

End unrolling_claim.





(** ** The operator prompt *)

(** [int], [split] and the parsing of a command on some lines. *)
Example parse_command_examples :
  split_space "1  i" = ["1"; ""; "i"]
  ∧ parse_command toy_int false "2 i" = Some (StateIndex 1, true)
  ∧ parse_command toy_int false "0" = Some (StateIndex (-1), false)
  ∧ parse_command toy_int true "T i" = None.
Proof. by repeat split. Qed.

Lemma split_space_nonempty line : split_space line ≠ [].
Proof.
  destruct line as [|c line]; simpl; [done|].
  case_decide; [done|]. by destruct (split_space line).
Qed.

Lemma split_space_one line a : split_space line = [a] → line = a.
Proof.
  revert a. induction line as [|c line IH]; intros a; simpl.
  - by intros [= <-].
  - case_decide.
    + intros [= _ Hnil]. by apply split_space_nonempty in Hnil.
    + destruct (split_space line) as [|w ws] eqn:E; [by apply split_space_nonempty in E|].
      destruct ws; [|done]. intros [= <-]. f_equal. by apply IH.
Qed.

Lemma split_space_two line a b : split_space line = [a; b] → line = a +:+ " " +:+ b.
Proof.
  revert a. induction line as [|c line IH]; intros a; simpl; [done|].
  case_decide as Hc.
  - subst c. intros [= <- ->%split_space_one]. reflexivity.
  - destruct (split_space line) as [|w ws] eqn:E; [done|].
    intros [= <- ->]. rewrite (IH w eq_refl). reflexivity.
Qed.

Lemma branch_mapping_no_space key : contains_space key = true → branch_mapping key = None.
Proof.
  intros Hs. unfold branch_mapping.
  repeat (case_decide; [by subst key|]). done.
Qed.

Lemma unparsable_parse_command (py_int : string → option Z) isbr line :
  unparsable py_int isbr line → parse_command py_int isbr line = None.
Proof.
  intros Hbad. unfold parse_command.
  destruct (contains_space line) eqn:Hs.
  - destruct (split_space line) as [|a [|b [|??]]] eqn:Hsplit; try done.
    case_decide as Hb; [|done]. subst b. simpl.
    apply split_space_two in Hsplit.
    destruct isbr; simpl.
    + by rewrite branch_mapping_no_space.
    + rewrite (Hbad a); [done|]. by right.
  - simpl. specialize (Hbad line (or_introl eq_refl)). destruct isbr; by rewrite Hbad.
Qed.

(** C9 (as amended): an input line that cannot be parsed makes
    [ask_user_input] raise out of its loop after reading that one line:
    an exception leaves the prompt, the lines after it are not read,
    and no choice is returned. *)
Theorem ask_user_input_raises_on_unparsable_line (py_int : string → option Z) {Item : Type}
    (line : string) (rest : list string) (emul_states : list Item) (isbr : bool)
    (branches : list edge_type) (state_item : option Item) :
  unparsable py_int isbr line →
  ∃ e, ask_user_input py_int (line :: rest) emul_states isbr branches state_item
       = (Raise e, rest).
Proof.
  intros Hbad. exists TypeError. simpl. by rewrite unparsable_parse_command.
Qed.

(** Asked for a state, the prompt is given the line [x], on which
    [int] raises, and then the valid line [1]. *)
Lemma ask_user_input_raises_on_unparsable_line_witness :
  unparsable toy_int false "x"
  ∧ ∃ e, ask_user_input toy_int ["x"; "1"] [(); ()] false [] None = (Raise e, ["1"]).
Proof.
  assert (unparsable toy_int false "x") as Hbad.
  { intros choice [<-|Hc]; [reflexivity|].
    destruct choice as [|a [|b choice]]; simpl in Hc; discriminate. }
  split; [exact Hbad|].
  exact (ask_user_input_raises_on_unparsable_line toy_int "x" ["1"] [(); ()] false [] None Hbad).
Defined.

(** C9, the claim as stated fails: on the line [x] the prompt for a
    branch raises instead of prompting again, and the valid line [T]
    that follows is never read; on the line [0] the prompt for a state
    returns the index [-1]. *)
Lemma ask_user_input_does_not_prompt_again :
  ask_user_input toy_int ["x"; "T"] ([] : list ()) true [conditional_true] None
    = (Raise TypeError, ["T"])
  ∧ ask_user_input toy_int ["0"; "1"] [(); ()] false [] None = (Ok (StateIndex (-1)), ["1"]).
Proof. split; reflexivity. Qed.

(** ** The visitor: blocks without outgoing edges *)

Section terminal_blocks.
Context {State Formula Instr HasRet : Type}.
Context (py_int : string → option Z).
Context (constraints : State → list Formula).
Context (emulate_basic_block :
  list (state_item State) → HasRet → list Instr → option (bool * list (state_item State))).
Context (solver_check : list Formula → option check_result).
Context (G : Graph Instr).
Context (circles : gset string).

#[local] Abbreviation visit' :=
  (visit py_int constraints emulate_basic_block solver_check G circles).

Lemma counters_ok_same w w' : vis_same w w' → counters_ok G w → counters_ok G w'.
Proof. intros Hw Hok b. rewrite Hw. apply Hok. Qed.

Lemma counters_ok_enter w blk :
  length (edges_of G blk) ≠ 0%nat → counters_ok G w →
  counters_ok G (set_vis w (<[blk := dd_get (w_vis w) blk + 1]> (w_vis w))).
Proof.
  intros Hedges Hok b. simpl. destruct (decide (blk = b)) as [<-|Hne]; [done|].
  rewrite dd_get_insert_ne by done. apply Hok.
Qed.

(** In an unguided traversal started from such counters, every
    invocation on a block without outgoing edges runs the emulator. *)
Lemma visit_emulates_terminal_blocks fuel states has_ret blk w branches out w' c b :
  counters_ok G w →
  visit' fuel states has_ret blk w false branches = Ok (out, w', c) →
  length (edges_of G b) = 0%nat →
  Forall (λ d, c_emul d ≠ None) (calls_on b c).
Proof.
  intros Hok Hrun Hb. revert states blk w branches out w' c Hok Hrun.
  induction fuel as [|n IH]; intros states blk w branches out w' c Hok; [done|].
  pose proof (visit_ok py_int constraints emulate_basic_block solver_check G circles n) as Hrec.
  simpl. unfold visit_body. simpl.
  destruct (bool_decide (0 < dd_get (w_vis w) blk)) eqn:Hguard.
  { intros [= <- <- <-]. apply bool_decide_eq_true in Hguard. simpl.
    destruct (decide (blk = b)) as [Hblk|]; [|constructor]. subst b. by apply Hok in Hguard. }
  intros (instructions & _ & ([halt emul_states] & _ & Hrun)%bind_Ok)%bind_Ok.
  destruct (halt || bool_decide (length (edges_of G blk) = 0%nat)) eqn:Hterm.
  { injection Hrun as <- <- <-. simpl. rewrite app_nil_r.
    destruct (decide (blk = b)); [constructor; [done|constructor]|constructor]. }
  apply orb_false_iff in Hterm as [_ Hedges%bool_decide_eq_false].
  simpl in Hrun.
  apply bind_Ok in Hrun as ([[[fs w2] qs] calls] & Hloop & [= <- <- <-]). simpl.
  apply Forall_app.
  split; [destruct (decide (blk = b)); [constructor; [done|constructor]|constructor]|].
  set (w1 := set_vis _ _) in Hloop.
  assert (counters_ok G w1) as Hok1.
  { apply counters_ok_enter; [done|]. eapply counters_ok_same; [|done].
    intros x. apply dd_get_touch. }
  set (good := λ cs : list (call State Formula),
         Forall (λ d, c_emul d ≠ None) (concat (map (calls_on b) cs))).
  assert (∀ cs1 cs2, good cs1 → good cs2 → good (cs1 ++ cs2)) as Hgood_app.
  { intros cs1 cs2 ??. unfold good. rewrite map_app, concat_app. by apply Forall_app. }
  assert (∀ st nxt w3 br r, counters_ok G w3 →
            visit' n st has_ret nxt w3 false br = Ok r →
            counters_ok G r.1.2 ∧ good [r.2]) as Hcall.
  { intros st nxt w3 br [[o w4] d] Hok3 Hd. simpl. split.
    - apply Hrec in Hd as (_ & _ & _ & _ & Hw). by eapply counters_ok_same.
    - unfold good. simpl. rewrite app_nil_r. by eapply IH. }
  eapply (for_each_inv (λ acc, counters_ok G acc.1.1.2 ∧ good acc.2)) in Hloop;
    [by destruct Hloop| |by split; [|constructor]].
  clear Hloop fs w2 qs calls.
  intros state_item [[[fs w2] qs] calls] [[[fs' w2'] qs'] calls'] _ [Hw2 Hcalls].
  unfold visit_item.
  intros ([avail0 qs0] & _ & Hrun)%bind_Ok. simpl in Hrun.
  apply bind_Ok in Hrun as ([[fs1 w3] calls1] & Hloop & [= <- <- <- <-]). simpl in *.
  eapply (for_each_inv (λ acc, counters_ok G acc.1.2 ∧ good acc.2)) in Hloop;
    [done| |done].
  clear Hloop fs1 w3 calls1.
  intros ty [[fs3 w3] calls3] [[fs4 w4] calls4] _ [Hw3 Hcalls3].
  unfold visit_edge.
  intros (nxt_blk & _ & (state & _ & Hrun)%bind_Ok)%bind_Ok. simpl in *.
  destruct (bool_decide (nxt_blk ∈ circles)).
  - apply bind_Ok in Hrun as ([[es w5] cs] & Hrounds & Hlast).
    eapply (repeat_res_inv (λ acc, counters_ok G acc.1.2 ∧ good acc.2)) in Hrounds.
    + destruct Hrounds as [Hw5 Hcs]. simpl in *.
      apply bind_Ok in Hlast as ([[o w6] d] & Hd & [= <- <- <-]).
      destruct (Hcall _ _ _ _ _ Hw5 Hd). simpl in *. split; [done|].
      rewrite app_assoc. by apply Hgood_app; [apply Hgood_app|].
    + intros [[es1 w6] cs1] [[es2 w7] cs2] [Hw6 Hcs1].
      intros ([[o w8] d] & Hd & [= <- <- <-])%bind_Ok. simpl in *.
      destruct (Hcall _ _ _ _ _ Hw6 Hd). split; [done|]. by apply Hgood_app.
    + split; [done|]. constructor.
  - apply bind_Ok in Hrun as ([[o w6] d] & Hd & [= <- <- <-]).
    destruct (Hcall _ _ _ _ _ Hw3 Hd). simpl in *. split; [done|]. by apply Hgood_app.
Qed.
End terminal_blocks.

Section terminal_claim.
Context {State Formula Instr HasRet : Type}.
Context (py_int : string → option Z).
Context (constraints : State → list Formula).
Context (emulate_basic_block :
  list (state_item State) → HasRet → list Instr → option (bool * list (state_item State))).
Context (solver_check : list Formula → option check_result).
Context (G : Graph Instr).
Context (circles : gset string).

#[local] Abbreviation visit' :=
  (visit py_int constraints emulate_basic_block solver_check G circles).

(** C6: when the emulator halts on the block, or the block has no
    outgoing edge, an invocation of [visit] that gets to run the emulator
    (guided mode, or a counter that is not positive) returns the
    emulator's states at once: the counter of the block is not
    incremented (the world is the one it was given, up to the default
    that reading [vis[blk]] stores), no solver query and no further
    invocation is made, whatever the recursion budget left. And in an
    unguided traversal that starts from counters that are positive only
    on blocks with edges (all 0 in [traverse_one]), every invocation on a
    block without outgoing edges does run the emulator. *)
Theorem visit_halt_or_terminal_returns_emulator_states :
  (∀ n states has_ret blk w guided branches instructions halt emul_states,
     guided = true ∨ dd_get (w_vis w) blk ≤ 0 →
     bb_to_instructions G !! blk = Some instructions →
     emulate_basic_block states has_ret instructions = Some (halt, emul_states) →
     halt = true ∨ length (edges_of G blk) = 0%nat →
     ∃ w', visit' (S n) states has_ret blk w guided branches
           = Ok (emul_states, w',
                 Call blk branches states (Some (halt, emul_states)) [] [] emul_states)
       ∧ w' = (if guided then w else set_vis w (dd_touch (w_vis w) blk))
       ∧ vis_same w w')
  ∧ (∀ fuel states has_ret blk w branches out w' c b,
       counters_ok G w →
       visit' fuel states has_ret blk w false branches = Ok (out, w', c) →
       length (edges_of G b) = 0%nat →
       Forall (λ d, c_emul d ≠ None) (calls_on b c)).
Proof.
  split.
  - intros n states has_ret blk w guided branches instructions halt emul_states
      Hpast Hins Hemul Hterm.
    eexists. split_and!; [|done|].
    + simpl. unfold visit_body.
      assert (negb guided && bool_decide (0 < dd_get (w_vis w) blk) = false) as ->.
      { destruct Hpast as [->|?]; [done|]. rewrite bool_decide_eq_false_2 by lia.
        apply andb_false_r. }
      rewrite Hins. simpl. rewrite Hemul. simpl.
      assert (halt || bool_decide (length (edges_of G blk) = 0%nat) = true) as ->; [|done].
      destruct Hterm as [->|?]; [done|]. rewrite bool_decide_eq_true_2 by done.
      apply orb_true_r.
    + destruct guided; [done|]. intros b. apply dd_get_touch.
  - intros fuel states has_ret blk w branches out w' c b.
    apply visit_emulates_terminal_blocks.
Qed.
End terminal_claim.

Lemma visit_halt_or_terminal_returns_emulator_states_witness :
  (∃ w', toy_visit diamond ∅ 1 [Flat [7]] false "b_4" fresh_world false None
         = Ok ([Flat [7]], w',
               Call "b_4" None [Flat [7]] (Some (false, [Flat [7]])) [] [] [Flat [7]])
     ∧ w' = set_vis fresh_world (dd_touch (w_vis fresh_world) "b_4")
     ∧ vis_same fresh_world w')
  ∧ (∃ out w' c,
       toy_visit plain_diamond ∅ 10 [Flat []] false "b_0" fresh_world false None
         = Ok (out, w', c)
       ∧ Forall (λ d, c_emul d ≠ None) (calls_on "b_4" c)).
Proof.
  pose proof (visit_halt_or_terminal_returns_emulator_states
                toy_int (@id (list Z)) toy_emulate toy_solver diamond ∅) as [H1 _].
  pose proof (visit_halt_or_terminal_returns_emulator_states
                toy_int (@id (list Z)) toy_emulate toy_solver plain_diamond ∅) as [_ H2].
  split.
  - apply (H1 0%nat [Flat [7]] false "b_4" fresh_world false None [Nop] false [Flat [7]]).
    + right. by vm_compute.
    + vm_compute. reflexivity.
    + vm_compute. reflexivity.
    + right. vm_compute. reflexivity.
  - eexists _, _, _. split; [vm_compute; reflexivity|].
    eapply (H2 10%nat [Flat []] false "b_0" fresh_world None).
    + intros b Hb. by vm_compute in Hb.
    + vm_compute. reflexivity.
    + vm_compute. reflexivity.
Defined.

(** ** The visitor: the blocks being visited *)

Section path_facts.
Context {State Formula Instr HasRet : Type}.
Context (py_int : string → option Z).
Context (constraints : State → list Formula).
Context (emulate_basic_block :
  list (state_item State) → HasRet → list Instr → option (bool * list (state_item State))).
Context (solver_check : list Formula → option check_result).
Context (G : Graph Instr).
Context (circles : gset string).

#[local] Abbreviation visit' :=
  (visit py_int constraints emulate_basic_block solver_check G circles).

Lemma on_path_same w w' stack : vis_same w w' → on_path w stack → on_path w' stack.
Proof. intros Hw Hok b. rewrite Hw. apply Hok. Qed.

Lemma on_path_enter w blk stack :
  dd_get (w_vis w) blk ≤ 0 → on_path w stack →
  on_path (set_vis w (<[blk := dd_get (w_vis w) blk + 1]> (w_vis w))) (blk :: stack).
Proof.
  intros Hv Hok b. simpl. destruct (decide (blk = b)) as [<-|Hne].
  - rewrite dd_get_insert_eq. destruct (Hok blk) as [? _]. split; [lia|].
    split; [left|lia].
  - rewrite dd_get_insert_ne by done. destruct (Hok b) as [? Hb]. split; [done|].
    rewrite Hb. set_solver.
Qed.

Lemma skips_on_path_app stack (cs1 cs2 : list (call State Formula)) :
  foldr and True (map (skips_on_path stack) cs1) →
  foldr and True (map (skips_on_path stack) cs2) →
  foldr and True (map (skips_on_path stack) (cs1 ++ cs2)).
Proof. induction cs1 as [|c cs1 IH]; simpl; [done|]. intros [??] ?. auto. Qed.

(** In an unguided traversal the emulator is left alone exactly by the
    invocations on a block that is being visited. *)
Lemma visit_skips_on_path fuel states has_ret blk w branches out w' c stack :
  on_path w stack →
  visit' fuel states has_ret blk w false branches = Ok (out, w', c) →
  skips_on_path stack c.
Proof.
  revert states blk w branches out w' c stack.
  induction fuel as [|n IH]; intros states blk w branches out w' c stack Hok; [done|].
  pose proof (visit_ok py_int constraints emulate_basic_block solver_check G circles n) as Hrec.
  simpl. unfold visit_body. simpl.
  destruct (bool_decide (0 < dd_get (w_vis w) blk)) eqn:Hguard.
  { intros [= <- <- <-]. apply bool_decide_eq_true in Hguard. simpl.
    split; [|done]. split; [|done]. intros _. by apply Hok. }
  apply bool_decide_eq_false in Hguard.
  assert (blk ∉ stack) as Hnin by (intros ?%Hok; lia).
  intros (instructions & _ & ([halt emul_states] & _ & Hrun)%bind_Ok)%bind_Ok.
  destruct (halt || bool_decide (length (edges_of G blk) = 0%nat)) eqn:Hterm.
  { injection Hrun as <- <- <-. simpl. split; [|done]. by split. }
  simpl in Hrun.
  apply bind_Ok in Hrun as ([[[fs w2] qs] calls] & Hloop & [= <- <- <-]). simpl.
  split; [by split|].
  set (w1 := set_vis _ _) in Hloop.
  assert (on_path w1 (blk :: stack)) as Hok1.
  { assert (vis_same w (set_vis w (dd_touch (w_vis w) blk))) as Hw0
      by (intros x; apply dd_get_touch).
    apply on_path_enter; [rewrite Hw0; lia|]. by eapply on_path_same. }
  set (good := λ cs : list (call State Formula),
         foldr and True (map (skips_on_path (blk :: stack)) cs)).
  assert (∀ st nxt w3 br r, on_path w3 (blk :: stack) →
            visit' n st has_ret nxt w3 false br = Ok r →
            on_path r.1.2 (blk :: stack) ∧ good [r.2]) as Hcall.
  { intros st nxt w3 br [[o w4] d] Hok3 Hd. simpl. split.
    - apply Hrec in Hd as (_ & _ & _ & _ & Hw). by eapply on_path_same.
    - split; [|done]. by eapply IH. }
  eapply (for_each_inv (λ acc, on_path acc.1.1.2 (blk :: stack) ∧ good acc.2)) in Hloop;
    [by destruct Hloop| |by split].
  clear Hloop fs w2 qs calls.
  intros state_item [[[fs w2] qs] calls] [[[fs' w2'] qs'] calls'] _ [Hw2 Hcalls].
  unfold visit_item.
  intros ([avail0 qs0] & _ & Hrun)%bind_Ok. simpl in Hrun.
  apply bind_Ok in Hrun as ([[fs1 w3] calls1] & Hloop & [= <- <- <- <-]). simpl in *.
  eapply (for_each_inv (λ acc, on_path acc.1.2 (blk :: stack) ∧ good acc.2)) in Hloop;
    [done| |done].
  clear Hloop fs1 w3 calls1.
  intros ty [[fs3 w3] calls3] [[fs4 w4] calls4] _ [Hw3 Hcalls3].
  unfold visit_edge.
  intros (nxt_blk & _ & (state & _ & Hrun)%bind_Ok)%bind_Ok. simpl in *.
  destruct (bool_decide (nxt_blk ∈ circles)).
  - apply bind_Ok in Hrun as ([[es w5] cs] & Hrounds & Hlast).
    eapply (repeat_res_inv (λ acc, on_path acc.1.2 (blk :: stack) ∧ good acc.2)) in Hrounds.
    + destruct Hrounds as [Hw5 Hcs]. simpl in *.
      apply bind_Ok in Hlast as ([[o w6] d] & Hd & [= <- <- <-]).
      destruct (Hcall _ _ _ _ _ Hw5 Hd). simpl in *. split; [done|].
      rewrite app_assoc. by apply skips_on_path_app; [apply skips_on_path_app|].
    + intros [[es1 w6] cs1] [[es2 w7] cs2] [Hw6 Hcs1].
      intros ([[o w8] d] & Hd & [= <- <- <-])%bind_Ok. simpl in *.
      destruct (Hcall _ _ _ _ _ Hw6 Hd). split; [done|]. by apply skips_on_path_app.
    + by split.
  - apply bind_Ok in Hrun as ([[o w6] d] & Hd & [= <- <- <-]).
    destruct (Hcall _ _ _ _ _ Hw3 Hd). simpl in *. split; [done|].
    by apply skips_on_path_app.
Qed.
End path_facts.

Lemma on_path_fresh inputs : on_path {| w_vis := ∅; w_inputs := inputs |} [].
Proof.
  intros b. unfold dd_get. simpl. rewrite lookup_empty. simpl.
  split; [done|]. split; [lia|by intros ?%elem_of_nil].
Qed.

Section path_claim.
Context {State Formula Instr HasRet : Type}.
Context (py_int : string → option Z).
Context (constraints : State → list Formula).
Context (emulate_basic_block :
  list (state_item State) → HasRet → list Instr → option (bool * list (state_item State))).
Context (solver_check : list Formula → option check_result).
Context (G : Graph Instr).
Context (circles : gset string).

#[local] Abbreviation visit' :=
  (visit py_int constraints emulate_basic_block solver_check G circles).

(** C2 (as amended): in unguided mode [visit] leaves the emulator alone
    and returns the states it was given exactly when the counter of the
    block is positive as [visit] is invoked; with a counter that is not
    positive the emulator is run on the block, and every invocation
    hands the counters back as it got them. So in a traversal the
    emulator is left alone exactly by the invocations on a block that is
    being visited, an invocation on it further up the recursion having
    entered the block and not yet returned; a block met again after that
    invocation has returned is emulated again. *)
Theorem visit_skips_exactly_the_blocks_being_visited :
  (∀ fuel states has_ret blk w branches out w' c,
     visit' fuel states has_ret blk w false branches = Ok (out, w', c) →
     (0 < dd_get (w_vis w) blk → c_emul c = None ∧ out = states ∧ c_children c = [])
     ∧ (dd_get (w_vis w) blk ≤ 0 →
        ∃ instructions halt emul_states,
          bb_to_instructions G !! blk = Some instructions
          ∧ emulate_basic_block states has_ret instructions = Some (halt, emul_states)
          ∧ c_emul c = Some (halt, emul_states))
     ∧ vis_same w w')
  ∧ (∀ fuel states has_ret blk w branches out w' c stack,
       on_path w stack →
       visit' fuel states has_ret blk w false branches = Ok (out, w', c) →
       skips_on_path stack c).
Proof.
  split.
  - intros fuel states has_ret blk w branches out w' c Hrun.
    destruct fuel as [|n]; [done|]. simpl in Hrun.
    eapply visit_body_spec in Hrun as (_ & Hw & Hspec); [|apply visit_ok].
    destruct (c_emul c) as [[halt emul_states]|].
    + destruct Hspec as ([?|Hv] & (instructions & ? & ?) & _); [done|].
      split_and!; [lia| |done]. intros _. by exists instructions, halt, emul_states.
    + destruct Hspec as (_ & Hv & -> & _ & _ & ->). split_and!; [done|lia|done].
  - intros fuel states has_ret blk w branches out w' c stack.
    apply visit_skips_on_path.
Qed.
End path_claim.

Lemma visit_skips_exactly_the_blocks_being_visited_witness :
  (∃ out w' c,
     toy_visit plain_diamond ∅ 10 [Flat [7]] false "b_3" inside_b_3 false None = Ok (out, w', c)
     ∧ (0 < dd_get (w_vis inside_b_3) "b_3" →
        c_emul c = None ∧ out = [Flat [7]] ∧ c_children c = [])
     ∧ (dd_get (w_vis inside_b_3) "b_3" ≤ 0 →
        ∃ instructions halt emul_states,
          bb_to_instructions plain_diamond !! "b_3" = Some instructions
          ∧ toy_emulate [Flat [7]] false instructions = Some (halt, emul_states)
          ∧ c_emul c = Some (halt, emul_states))
     ∧ vis_same inside_b_3 w')
  ∧ (∃ out w' c,
       toy_visit while_loop while_loop_circles 10 [Flat []] false "b_0" fresh_world false None
         = Ok (out, w', c)
       ∧ skips_on_path [] c).
Proof.
  pose proof (visit_skips_exactly_the_blocks_being_visited
                toy_int (@id (list Z)) toy_emulate toy_solver plain_diamond ∅) as [H1 _].
  pose proof (visit_skips_exactly_the_blocks_being_visited
                toy_int (@id (list Z)) toy_emulate toy_solver while_loop while_loop_circles) as [_ H2].
  split.
  - eexists _, _, _. split; [vm_compute; reflexivity|].
    eapply (H1 10%nat [Flat [7]] false "b_3" inside_b_3 None). vm_compute. reflexivity.
  - eexists _, _, _. split; [vm_compute; reflexivity|].
    eapply (H2 10%nat [Flat []] false "b_0" fresh_world None).
    + apply on_path_fresh.
    + vm_compute. reflexivity.
Defined.

(** C2, the claim as stated fails: the join block [b_3] of the diamond
    is no cycle header and lies on no cycle; the traversal reaches it by
    two disjoint paths and runs the emulator on it both times, the
    counter having been decremented when the first invocation returned. *)
Lemma plain_diamond_join_emulated_twice :
  ∃ p final inputs c,
    pre plain_diamond 10 "b_0" pre_start = Ok p
    ∧ ("b_3" ∉ p_circles p)
    ∧ ¬ tc (succ plain_diamond) "b_3" "b_3"
    ∧ toy_traverse_one plain_diamond 10 "f" [] = Ok (final, inputs, c)
    ∧ c_emul <$> calls_on "b_3" c
      = [Some (false, [Flat [7]]); Some (false, [Flat [-7]])].
Proof.
  eexists _, _, _, _. split; [vm_compute; reflexivity|].
  split; [by vm_compute|]. split; [|split; vm_compute; reflexivity].
  assert (∀ x y, tc (succ plain_diamond) x y → x ∈ ["b_3"; "b_4"] → y ∈ ["b_4"]) as H.
  { induction 1 as [x y Hxy|x y z Hxy _ IH]; intros Hx.
    - inv_succ Hxy; set_solver.
    - apply IH. inv_succ Hxy; set_solver. }
  intros Hc%H; set_solver.
Qed.

(** ** Building the graph *)

Lemma extract_basic_blocks_initial {Instr} funcs edges (bbs : list (string * list Instr)) guided :
  extract_basic_blocks funcs edges bbs guided
  = extract_basic_blocks_on (initial_attributes Instr guided) funcs edges bbs.
Proof. done. Qed.

Lemma last_cons_or {A} (x : A) l :
  last (x :: l) = Some (default x (last l)).
Proof. rewrite last_cons. by destruct (last l). Qed.

Lemma foldl_insert_lookup {A} (l : list (string * A)) (m0 : gmap string A) k :
  foldl (λ m f, <[f.1 := f.2]> m) m0 l !! k
  = match last (bindings_of l k) with Some v => Some v | None => m0 !! k end.
Proof.
  revert m0. induction l as [|[k' v] l IH]; intros m0; [done|].
  simpl. rewrite IH. unfold bindings_of at 2. simpl.
  fold (bindings_of l k). destruct (decide (k' = k)) as [->|Hne].
  - rewrite last_cons. destruct (last (bindings_of l k)); [done|].
    by rewrite lookup_insert_eq.
  - destruct (last (bindings_of l k)); [done|]. by rewrite lookup_insert_ne.
Qed.

Lemma foldl_add_edge_get g edges a ty :
  dict_get (default [] (foldl add_edge g edges !! a)) ty
  = match last (edge_targets edges a ty) with
    | Some t => Some t
    | None => dict_get (default [] (g !! a)) ty
    end.
Proof.
  revert g. induction edges as [|[[f t] ty'] edges IH]; intros g; [done|].
  simpl. rewrite IH. unfold edge_targets at 2. simpl. fold (edge_targets edges a ty).
  destruct (decide (f = a ∧ ty' = ty)) as [[-> ->]|Hne].
  - rewrite last_cons. destruct (last (edge_targets edges a ty)); [done|].
    rewrite lookup_insert_eq. simpl. apply dict_get_set_eq.
  - destruct (last (edge_targets edges a ty)); [done|].
    destruct (decide (f = a)) as [->|Hf].
    + rewrite lookup_insert_eq. simpl. apply dict_get_set_ne. naive_solver.
    + by rewrite lookup_insert_ne.
Qed.

Lemma foldl_add_block_edges {Instr} (bbs : list (string * list Instr)) g ins a :
  default [] ((foldl add_block (g, ins) bbs).1 !! a) = default [] (g !! a).
Proof.
  revert g ins. induction bbs as [|[b i] bbs IH]; intros g ins; [done|].
  simpl. rewrite IH. destruct (g !! b) eqn:Hb; [done|].
  destruct (decide (b = a)) as [->|Hne].
  - by rewrite lookup_insert_eq, Hb.
  - by rewrite lookup_insert_ne.
Qed.

Lemma extract_basic_blocks_on_edges {Instr} (G0 : Graph Instr) funcs edges bbs a :
  edges_of (extract_basic_blocks_on G0 funcs edges bbs) a
  = default [] (foldl add_edge (bbs_graph G0) edges !! a).
Proof.
  unfold extract_basic_blocks_on, edges_of.
  pose proof (foldl_add_block_edges bbs (foldl add_edge (bbs_graph G0) edges)
                (bb_to_instructions G0) a) as H.
  destruct (foldl add_block _ bbs) as [g ins]. done.
Qed.

(** X1: of the CFG's edges that leave a block by the same edge type,
    the graph keeps the last one only. *)
Theorem extract_basic_blocks_keeps_last_edge {Instr}
    funcs edges (bbs : list (string * list Instr)) guided a ty :
  dict_get (edges_of (extract_basic_blocks funcs edges bbs guided) a) ty
  = last (edge_targets edges a ty).
Proof.
  rewrite extract_basic_blocks_initial, extract_basic_blocks_on_edges, foldl_add_edge_get.
  simpl. rewrite lookup_empty. by destruct (last _).
Qed.

Lemma dict_set_keys {K V} `{EqDecision K} (d : list (K * V)) k v k' :
  k' ∈ dict_keys (dict_set d k v) ↔ k' = k ∨ k' ∈ dict_keys d.
Proof.
  unfold dict_keys. induction d as [|[k0 v0] d IH]; simpl.
  - set_solver.
  - destruct (decide (k0 = k)) as [->|Hne]; simpl; [set_solver|].
    rewrite !elem_of_cons, IH. naive_solver.
Qed.

Lemma dict_set_keys_NoDup {K V} `{EqDecision K} (d : list (K * V)) k v :
  NoDup (dict_keys d) → NoDup (dict_keys (dict_set d k v)).
Proof.
  unfold dict_keys. induction d as [|[k0 v0] d IH]; simpl.
  - intros _. apply NoDup_singleton.
  - intros [Hnin Hd]%NoDup_cons. destruct (decide (k0 = k)) as [->|Hne]; simpl.
    + by apply NoDup_cons.
    + apply NoDup_cons. split; [|by apply IH].
      intros [?|?]%(dict_set_keys d k v k0); [done|]. by apply Hnin.
Qed.

Lemma foldl_add_edge_NoDup g edges :
  (∀ a, NoDup (dict_keys (default [] (g !! a)))) →
  ∀ a, NoDup (dict_keys (default [] (foldl add_edge g edges !! a))).
Proof.
  revert g. induction edges as [|[[f t] ty] edges IH]; intros g Hg; [done|].
  simpl. apply IH. intros a. destruct (decide (f = a)) as [->|Hne].
  - rewrite lookup_insert_eq. simpl. by apply dict_set_keys_NoDup.
  - by rewrite lookup_insert_ne.
Qed.

Lemma edge_types_length (l : list edge_type) : NoDup l → (length l ≤ 4)%nat.
Proof.
  intros Hl.
  change 4%nat with (length [unconditional; fallthrough; conditional_true; conditional_false]).
  apply submseteq_length, NoDup_submseteq; [done|].
  intros [] _; set_solver.
Qed.

(** X2: a block of the graph has at most one outgoing edge of each
    type, so at most four outgoing edges. *)
Theorem extract_basic_blocks_one_edge_per_type {Instr}
    funcs edges (bbs : list (string * list Instr)) guided b :
  let G := extract_basic_blocks funcs edges bbs guided in
  NoDup (dict_keys (edges_of G b)) ∧ (length (edges_of G b) ≤ 4)%nat.
Proof.
  intros G.
  assert (NoDup (dict_keys (edges_of G b))) as Hnd.
  { unfold G. rewrite extract_basic_blocks_initial, extract_basic_blocks_on_edges.
    apply foldl_add_edge_NoDup. intros a. simpl. rewrite lookup_empty. constructor. }
  split; [done|]. apply edge_types_length in Hnd.
  unfold dict_keys in Hnd. by rewrite length_fmap in Hnd.
Qed.

Lemma foldl_add_edge_dom g edges :
  dom (foldl add_edge g edges) = dom g ∪ list_to_set (edge_sources edges).
Proof.
  revert g. induction edges as [|[[f t] ty] edges IH]; intros g.
  - simpl. set_solver.
  - simpl. rewrite IH. unfold add_edge. rewrite dom_insert_L. set_solver.
Qed.

Lemma foldl_add_block_dom {Instr} (bbs : list (string * list Instr)) g ins :
  dom (foldl add_block (g, ins) bbs).1 = dom g ∪ list_to_set bbs.*1
  ∧ dom (foldl add_block (g, ins) bbs).2 = dom ins ∪ list_to_set bbs.*1.
Proof.
  revert g ins. induction bbs as [|[b i] bbs IH]; intros g ins.
  - simpl. set_solver.
  - simpl. destruct (IH (match g !! b with Some _ => g | None => <[b:=[]]> g end)
                        (<[b:=i]> ins)) as [-> ->].
    rewrite dom_insert_L. split; [|set_solver].
    destruct (g !! b) eqn:Hb.
    + apply elem_of_dom_2 in Hb. set_solver.
    + rewrite dom_insert_L. set_solver.
Qed.

Lemma foldl_add_block_instructions {Instr} (bbs : list (string * list Instr)) g ins b :
  (foldl add_block (g, ins) bbs).2 !! b
  = match last (bindings_of bbs b) with Some i => Some i | None => ins !! b end.
Proof.
  revert g ins. induction bbs as [|[b' i] bbs IH]; intros g ins; [done|].
  simpl. rewrite IH. unfold bindings_of at 2. simpl. fold (bindings_of bbs b).
  destruct (decide (b' = b)) as [->|Hne].
  - rewrite last_cons. destruct (last (bindings_of bbs b)); [done|].
    by rewrite lookup_insert_eq.
  - destruct (last (bindings_of bbs b)); [done|]. by rewrite lookup_insert_ne.
Qed.

(** X3: the blocks that have an entry in the adjacency graph are the
    sources of the CFG's edges and the CFG's basic blocks; those that
    have instructions are the basic blocks. The destination of an edge
    that is not itself a basic block has no instructions. *)
Theorem extract_basic_blocks_block_keys {Instr}
    funcs edges (bbs : list (string * list Instr)) guided :
  let G := extract_basic_blocks funcs edges bbs guided in
  dom (bbs_graph G) = list_to_set (edge_sources edges) ∪ list_to_set bbs.*1
  ∧ dom (bb_to_instructions G) = list_to_set bbs.*1.
Proof.
  unfold extract_basic_blocks.
  pose proof (foldl_add_block_dom bbs (foldl add_edge ∅ edges) ∅) as [Hg Hi].
  destruct (foldl add_block _ bbs) as [g ins]. simpl in *.
  rewrite Hg, Hi, foldl_add_edge_dom. set_solver.
Qed.

(** X4: a function or a basic block that the CFG lists more than once
    is recorded with the blocks, respectively the instructions, of its
    last listing, and one that the CFG does not list is not recorded. *)
Theorem extract_basic_blocks_tables_keep_last {Instr}
    funcs edges (bbs : list (string * list Instr)) guided name :
  let G := extract_basic_blocks funcs edges bbs guided in
  func_to_bbs G !! name = last (bindings_of funcs name)
  ∧ bb_to_instructions G !! name = last (bindings_of bbs name).
Proof.
  unfold extract_basic_blocks.
  pose proof (foldl_add_block_instructions bbs (foldl add_edge ∅ edges) ∅ name) as Hi.
  destruct (foldl add_block _ bbs) as [g ins]. simpl in *. split.
  - rewrite foldl_insert_lookup, lookup_empty. by destruct (last (bindings_of funcs name)).
  - rewrite Hi, lookup_empty. by destruct (last (bindings_of bbs name)).
Qed.

(** X5: a run of [extract_basic_blocks] on class attributes that an
    earlier run has filled does not start from an empty graph: an edge
    and the instructions of a block stay as they were unless the new CFG
    has an edge of that source and type, respectively a block of that
    name; no block loses its entry; only [func_to_bbs] is rebuilt from
    the new CFG alone. *)
Theorem extract_basic_blocks_on_keeps_stale_entries {Instr}
    (G0 : Graph Instr) funcs edges bbs :
  let G := extract_basic_blocks_on G0 funcs edges bbs in
  (∀ a ty, dict_get (edges_of G a) ty
           = match last (edge_targets edges a ty) with
             | Some t => Some t
             | None => dict_get (edges_of G0 a) ty
             end)
  ∧ (∀ b, bb_to_instructions G !! b
          = match last (bindings_of bbs b) with
            | Some i => Some i
            | None => bb_to_instructions G0 !! b
            end)
  ∧ dom (bbs_graph G0) ⊆ dom (bbs_graph G)
  ∧ (∀ f, func_to_bbs G !! f = last (bindings_of funcs f)).
Proof.
  intros G. split_and!.
  - intros a ty. unfold G. rewrite extract_basic_blocks_on_edges. apply foldl_add_edge_get.
  - intros b. unfold G, extract_basic_blocks_on.
    pose proof (foldl_add_block_instructions bbs (foldl add_edge (bbs_graph G0) edges)
                  (bb_to_instructions G0) b) as Hi.
    destruct (foldl add_block _ bbs) as [g ins]. done.
  - unfold G, extract_basic_blocks_on.
    pose proof (foldl_add_block_dom bbs (foldl add_edge (bbs_graph G0) edges)
                  (bb_to_instructions G0)) as [Hg _].
    destruct (foldl add_block _ bbs) as [g ins]. simpl in *.
    rewrite Hg, foldl_add_edge_dom. set_solver.
  - intros f. unfold G, extract_basic_blocks_on.
    destruct (foldl add_block _ bbs) as [g ins]. simpl.
    rewrite foldl_insert_lookup, lookup_empty. by destruct (last (bindings_of funcs f)).
Qed.

(** ** The operator prompt: what it accepts *)

Lemma parse_command_branch (py_int : string → option Z) line :
  parse_command py_int true line
  = (λ ty, (Branch ty, false)) <$> (if contains_space line then None else branch_mapping line).
Proof.
  unfold parse_command. destruct (contains_space line) eqn:Hs.
  - apply branch_mapping_no_space in Hs. simpl.
    destruct (split_space line) as [|a [|b [|]]]; simpl; try done.
    destruct (decide (b = "i")); simpl; [|done]. by rewrite Hs.
  - simpl. by destruct (branch_mapping line).
Qed.

(** X6: asked for a branch, the prompt reads exactly one line and
    returns the edge type that the whole line names ([T], [F], [f] or
    [u]), whether or not that type is among the branches on offer; any
    other line, a choice followed by [" i"] included, makes it raise. *)
Theorem ask_user_input_branch_reads_one_line (py_int : string → option Z) {Item : Type}
    (line : string) (rest : list string) (emul_states : list Item)
    (branches : list edge_type) (state_item : option Item) :
  ask_user_input py_int (line :: rest) emul_states true branches state_item
  = (match branch_mapping line with
     | Some ty => Ok (Branch ty)
     | None => Raise TypeError
     end, rest).
Proof.
  simpl. rewrite parse_command_branch.
  destruct (contains_space line) eqn:Hs.
  - apply branch_mapping_no_space in Hs. by rewrite Hs.
  - by destruct (branch_mapping line).
Qed.

Lemma split_space_pieces line :
  Forall (λ w, contains_space w = false) (split_space line).
Proof.
  induction line as [|c line IH]; simpl; [by repeat constructor|].
  destruct (decide (c = " "%char)) as [->|Hc]; [by constructor|].
  destruct (split_space line) as [|w ws].
  { constructor; [|constructor]. simpl. by destruct (decide (c = " "%char)). }
  apply Forall_cons in IH as [Hw Hws]. constructor; [|done].
  simpl. by destruct (decide (c = " "%char)).
Qed.

Lemma split_space_join a b :
  contains_space a = false → contains_space b = false →
  split_space (a +:+ " " +:+ b) = [a; b].
Proof.
  intros Ha Hb.
  assert (split_space b = [b]) as Hsb.
  { clear -Hb. induction b as [|c b IH]; simpl in *; [done|].
    destruct (decide (c = " "%char)); [done|]. by rewrite IH. }
  induction a as [|c a IH].
  - change (split_space (String " " b) = [""; b]). simpl.
    destruct (decide (" "%char = " "%char)); [|done]. by rewrite Hsb.
  - change (split_space (String c (a +:+ " " +:+ b)) = [String c a; b]).
    simpl in *. destruct (decide (c = " "%char)); [done|]. by rewrite IH.
Qed.

Lemma contains_space_app a b :
  contains_space (a +:+ b) = contains_space a || contains_space b.
Proof.
  induction a as [|c a IH]; simpl; [done|]. by destruct (decide (c = " "%char)).
Qed.

Lemma parse_command_state (py_int : string → option Z) line c info :
  parse_command py_int false line = Some (c, info) ↔
  ∃ number k, contains_space number = false ∧ py_int number = Some k
    ∧ c = StateIndex (k - 1)
    ∧ line = (if info then number +:+ " i" else number).
Proof.
  unfold parse_command. destruct (contains_space line) eqn:Hs; simpl.
  - split.
    + pose proof (split_space_pieces line) as Hp.
      destruct (split_space line) as [|a [|b [|]]] eqn:Hsplit; simpl; try done.
      destruct (decide (b = "i")) as [->|]; simpl; [|done].
      destruct (py_int a) as [k|] eqn:Hk; simpl; [|done].
      intros [= <- <-]. exists a, k. apply Forall_cons in Hp as [Ha _].
      split_and!; try done. by apply split_space_two.
    + intros (number & k & Hn & Hk & -> & Hline). destruct info.
      * subst line.
        rewrite (split_space_join number "i" Hn eq_refl
                   : split_space (number +:+ " i") = [number; "i"]).
        simpl. by rewrite Hk.
      * subst line. congruence.
  - split.
    + destruct (py_int line) as [k|] eqn:Hk; simpl; [|done].
      intros [= <- <-]. by exists line, k.
    + intros (number & k & Hn & Hk & -> & Hline). destruct info.
      * subst line. rewrite contains_space_app in Hs.
        by apply orb_false_iff in Hs as [_ ?].
      * subst line. by rewrite Hk.
Qed.

Lemma py_index_Ok {A} (l : list A) i :
  (∃ x, py_index l i = Ok x) ↔ - Z.of_nat (length l) ≤ i < Z.of_nat (length l).
Proof.
  unfold py_index. repeat case_bool_decide.
  - split; [lia|]. intros _.
    destruct (lookup_lt_is_Some_2 l (Z.to_nat i)) as [x Hx]; [lia|].
    rewrite Hx. by exists x.
  - split; [lia|]. intros _.
    destruct (lookup_lt_is_Some_2 l (Z.to_nat (Z.of_nat (length l) + i))) as [x Hx]; [lia|].
    rewrite Hx. by exists x.
  - split; [by intros [? ?]|lia].
Qed.

(** X7: asked for a state, the prompt returns exactly when the lines
    it reads are requests for the information of a state that exists,
    each a number followed by [" i"], and then a number [k] alone; it
    returns [k - 1] and leaves the lines after that one unread. *)
Theorem ask_user_input_state_index (py_int : string → option Z) {Item : Type}
    (inputs rest : list string) (emul_states : list Item)
    (branches : list edge_type) (state_item : option Item) (c : choice) :
  ask_user_input py_int inputs emul_states false branches state_item = (Ok c, rest) ↔
  ∃ infos line k,
    inputs = infos ++ line :: rest
    ∧ Forall (info_request py_int (length emul_states)) infos
    ∧ contains_space line = false ∧ py_int line = Some k ∧ c = StateIndex (k - 1).
Proof.
  revert rest c. induction inputs as [|l inputs IH]; intros rest c.
  { simpl. split; [done|]. intros (infos & ? & ? & Heq & _). by destruct infos. }
  simpl. destruct (parse_command py_int false l) as [[c0 info]|] eqn:Hparse.
  - apply parse_command_state in Hparse as (number & k & Hn & Hk & -> & Hl).
    destruct info; subst l.
    + simpl.
      destruct (py_index emul_states (k - 1)) as [x| |] eqn:Hidx; simpl.
      * assert (info_request py_int (length emul_states) (number +:+ " i")) as Hreq.
        { exists number, k. split_and!; try done; apply py_index_Ok; eauto. }
        rewrite IH. split.
        -- intros (infos & line & k' & -> & Hall & ? & ? & ?).
           exists ((number +:+ " i") :: infos), line, k'.
           split_and!; try done. by constructor.
        -- intros (infos & line & k' & Heq & Hall & Hline & Hk' & ->).
           destruct infos as [|i infos]; simpl in Heq.
           ++ injection Heq as <- <-. rewrite contains_space_app in Hline.
              by apply orb_false_iff in Hline as [_ ?].
           ++ injection Heq as <- ->. apply Forall_cons in Hall as [_ Hall].
              by exists infos, line, k'.
      * split; [done|].
        intros (infos & line & k' & Heq & Hall & Hline & Hk' & ->).
        destruct infos as [|i infos]; simpl in Heq.
        -- injection Heq as <- <-. rewrite contains_space_app in Hline.
           by apply orb_false_iff in Hline as [_ ?].
        -- injection Heq as <- ->. apply Forall_cons in Hall as [Hi _].
           destruct Hi as (number' & k'' & Heq & Hn' & Hk'' & Hrange).
           assert (number' = number) as ->.
           { pose proof (split_space_join number "i" Hn eq_refl) as H1.
             pose proof (split_space_join number' "i" Hn' eq_refl) as H2.
             change (split_space (number +:+ " i") = [number; "i"]) in H1.
             change (split_space (number' +:+ " i") = [number'; "i"]) in H2.
             rewrite Heq in H1. congruence. }
           assert (k'' = k) as -> by congruence.
           apply py_index_Ok in Hrange as [x Hx]. congruence.
      * unfold py_index in Hidx. repeat case_bool_decide; try done;
          by destruct (emul_states !! _).
    + split.
      * intros [= <- <-]. exists [], number, k. by split_and!.
      * intros (infos & line & k' & Heq & Hall & Hline & Hk' & ->).
        destruct infos as [|i infos]; simpl in Heq.
        -- injection Heq as <- <-. do 3 f_equal. congruence.
        -- injection Heq as <- ->. apply Forall_cons in Hall as [Hi _].
           destruct Hi as (number' & k'' & -> & _). rewrite contains_space_app in Hn.
           by apply orb_false_iff in Hn as [_ ?].
  - split; [done|].
    intros (infos & line & k' & Heq & Hall & Hline & Hk' & ->).
    destruct infos as [|i infos]; simpl in Heq.
    + injection Heq as -> ->.
      assert (parse_command py_int false line = Some (StateIndex (k' - 1), false)) as Hp.
      { apply parse_command_state. by exists line, k'. }
      congruence.
    + injection Heq as <- ->. apply Forall_cons in Hall as [Hi _].
      destruct Hi as (number' & k'' & -> & Hn' & Hk'' & Hrange).
      assert (parse_command py_int false (number' +:+ " i") = Some (StateIndex (k'' - 1), true)) as Hp.
      { apply parse_command_state. by exists number', k''. }
      congruence.
Qed.

(** ** The visitor: guided and unguided mode *)

Lemma for_each_ext {A S} (f g : A → S → res S) l s :
  (∀ x t, x ∈ l → f x t = g x t) → for_each f l s = for_each g l s.
Proof.
  revert s. induction l as [|x l IH]; intros s Hfg; [done|].
  rewrite !for_each_cons, Hfg by left. destruct (g x s); simpl; [|done..].
  apply IH. intros. apply Hfg. by right.
Qed.

Lemma ask_user_input_branch_ext (py_int : string → option Z) {Item : Type} inputs (emul_states : list Item)
    branches branches' state_item state_item' :
  ask_user_input py_int inputs emul_states true branches state_item
  = ask_user_input py_int inputs emul_states true branches' state_item'.
Proof.
  destruct inputs as [|line rest]; [done|].
  simpl. rewrite parse_command_branch.
  by destruct (contains_space line), (branch_mapping line).
Qed.

Section guided_facts.
Context {State Formula Instr HasRet : Type}.
Context (py_int : string → option Z).
Context (constraints : State → list Formula).
Context (emulate_basic_block :
  list (state_item State) → HasRet → list Instr → option (bool * list (state_item State))).
Context (G : Graph Instr).

(** The filter raises for one solver exactly when it does for another
    that raises on the same queries, and hands both the same queries. *)
Lemma filter_loop_queries (solver_check solver_check' : list Formula → option check_result)
    item branches avail_br avail_br' queries :
  (∀ cs, solver_check cs = None ↔ solver_check' cs = None) →
  ((for_each (filter_branch constraints solver_check item) branches (avail_br, queries))
     ≫= λ acc, Ok acc.2)
  = ((for_each (filter_branch constraints solver_check' item) branches (avail_br', queries))
       ≫= λ acc, Ok acc.2).
Proof.
  intros Hs. revert avail_br avail_br' queries.
  induction branches as [|ty branches IH]; intros avail_br avail_br' queries; [done|].
  rewrite !for_each_cons. unfold filter_branch at 1 3.
  destruct item as [s|d]; simpl; [apply IH|].
  destruct (is_conditional ty); simpl; [|apply IH].
  destruct (dict_get d ty) as [state|]; simpl; [|apply IH].
  specialize (Hs (constraints state)).
  destruct (solver_check (constraints state)) as [r|] eqn:E,
           (solver_check' (constraints state)) as [r'|] eqn:E'; simpl.
  - destruct (decide (sat ≠ r)), (decide (sat ≠ r')); simpl; apply IH.
  - destruct Hs as [_ Hs]. by specialize (Hs eq_refl).
  - destruct Hs as [Hs _]. by specialize (Hs eq_refl).
  - done.
Qed.
End guided_facts.

Lemma bind_ext {A B} (m : res A) (k1 k2 : A → res B) :
  (∀ a, m = Ok a → k1 a = k2 a) → (m ≫= k1) = (m ≫= k2).
Proof. destruct m; simpl; [by auto|done..]. Qed.

Section guided_claims.
Context {State Formula Instr HasRet : Type}.
Context (py_int : string → option Z).
Context (constraints : State → list Formula).
Context (emulate_basic_block :
  list (state_item State) → HasRet → list Instr → option (bool * list (state_item State))).
Context (G : Graph Instr).

(** X8: in guided mode the traversal is decided by the operator alone.
    Neither the set of cycle headers nor the verdicts of the solver have
    any effect on it: with another set and with another solver that
    raises on the same queries the invocation gives the same result, the
    same record and the same world. The edge that the operator names is
    followed even when the solver finds its constraints unsatisfiable. *)
Theorem visit_guided_ignores_circles_and_verdicts
    (solver_check solver_check' : list Formula → option check_result)
    (circles circles' : gset string) fuel states has_ret blk w branches :
  (∀ cs, solver_check cs = None ↔ solver_check' cs = None) →
  visit py_int constraints emulate_basic_block solver_check G circles fuel
    states has_ret blk w true branches
  = visit py_int constraints emulate_basic_block solver_check' G circles' fuel
      states has_ret blk w true branches.
Proof.
  intros Hs. revert states blk w branches.
  induction fuel as [|n IH]; intros states blk w branches; [done|].
  change (visit ?p ?c ?e ?s ?g ?ci (S n)) with (visit_body p c e s g ci (visit p c e s g ci n)).
  unfold visit_body. cbn [negb andb].
  apply bind_ext. intros instructions _.
  apply bind_ext. intros [halt emul_states] _.
  destruct (halt || bool_decide (length (edges_of G blk) = 0%nat)); [done|].
  apply bind_ext. intros [emul1 w1] _. cbv zeta.
  match goal with
  | |- (for_each ?f ?l ?s ≫= _) = (for_each ?g _ _ ≫= _) =>
        assert (for_each f l s = for_each g l s) as ->; [|done]
  end.
  apply for_each_ext. intros item [[[fs w2] qs] calls] _.
  unfold visit_item, filter_branches.
  set (branches' := match branches with
                    | Some b => b
                    | None => dict_keys (edges_of G blk)
                    end).
  pose proof (filter_loop_queries constraints solver_check solver_check' item branches'
                [] [] [] Hs) as Hq.
  destruct (for_each (filter_branch constraints solver_check item) branches' ([], []))
    as [[avail1 qs1]| |] eqn:E1;
  destruct (for_each (filter_branch constraints solver_check' item) branches' ([], []))
    as [[avail2 qs2]| |] eqn:E2; cbn [mbind res_bind snd] in Hq |- *; try discriminate Hq;
    [|by injection Hq as ->|reflexivity].
  injection Hq as ->.
  rewrite (ask_user_input_branch_ext py_int (w_inputs w2) emul1 avail1 avail2
             (Some item) (Some item)).
  apply bind_ext. intros [avail_br w3] _.
  match goal with
  | |- (for_each ?f ?l ?s ≫= _) = (for_each ?g _ _ ≫= _) =>
        assert (for_each f l s = for_each g l s) as ->; [|done]
  end.
  apply for_each_ext. intros ty [[fs4 w4] calls4] _.
  unfold visit_edge. cbn [negb].
  apply bind_ext. intros nxt_blk _.
  apply bind_ext. intros state _.
  by rewrite IH.
Qed.
End guided_claims.

(** The solvers [toy_solver] and [toy_pessimist] raise on the same
    queries; [b_0] of the diamond is entered with the constraint [-7],
    and the operator chooses the branch along which [7] is assumed. *)
Lemma visit_guided_ignores_circles_and_verdicts_witness :
  (∀ cs, toy_solver cs = None ↔ toy_pessimist cs = None)
  ∧ visit toy_int (@id (list Z)) toy_emulate toy_solver plain_diamond ∅ 10
      assumed_not_7 false "b_0" (with_inputs ["1"; "T"; "1"; "u"; "1"; "f"] fresh_world) true None
    = visit toy_int (@id (list Z)) toy_emulate toy_pessimist plain_diamond {["b_3"]} 10
        assumed_not_7 false "b_0" (with_inputs ["1"; "T"; "1"; "u"; "1"; "f"] fresh_world) true None.
Proof.
  assert (∀ cs, toy_solver cs = None ↔ toy_pessimist cs = None) as Hs.
  { intros cs. unfold toy_pessimist. by destruct (toy_solver cs). }
  split; [exact Hs|].
  exact (visit_guided_ignores_circles_and_verdicts toy_int (@id (list Z)) toy_emulate plain_diamond
           toy_solver toy_pessimist ∅ {["b_3"]} 10 assumed_not_7 false "b_0"
           (with_inputs ["1"; "T"; "1"; "u"; "1"; "f"] fresh_world) None Hs).
Defined.

Example guided_follows_unsat_branch :
  ∃ out w' c,
    visit toy_int (@id (list Z)) toy_emulate toy_solver plain_diamond ∅ 10
      assumed_not_7 false "b_0" (with_inputs ["1"; "T"; "1"; "u"; "1"; "f"] fresh_world) true None
    = Ok (out, w', c)
    ∧ out = [Flat [-7; 7]] ∧ w_inputs w' = []
    ∧ toy_solver [-7; 7] = Some unsat
    ∧ c_blk <$> c_children c = ["b_1"].
Proof. eexists _, _, _. split; [vm_compute; reflexivity|]. by vm_compute. Qed.
Lemma for_each_singleton {A S} (body : A → S → res S) x s :
  for_each body [x] s = (body x s ≫= Ok).
Proof. done. Qed.

Lemma res_bind_assoc {A B C} (m : res A) (f : A → res B) (g : B → res C) :
  ((m ≫= f) ≫= g) = (m ≫= λ a, f a ≫= g).
Proof. by destruct m. Qed.

Lemma res_bind_Ok_r {A} (m : res A) : (m ≫= Ok) = m.
Proof. by destruct m. Qed.

Section guided_step.
Context {State Formula Instr HasRet : Type}.
Context (py_int : string → option Z).
Context (constraints : State → list Formula).
Context (emulate_basic_block :
  list (state_item State) → HasRet → list Instr → option (bool * list (state_item State))).
Context (solver_check : list Formula → option check_result).
Context (G : Graph Instr).
Context (circles : gset string).

(** One guided invocation, as a straight line: the emulator, the prompt
    for a state, the filter, the prompt for a branch, and one invocation
    on the destination of the edge of that type. *)
Lemma visit_body_guided
    (rec : list (state_item State) → HasRet → string → world → bool
           → option (list edge_type)
           → res (list (state_item State) * world * call State Formula))
    states has_ret blk w branches :
  visit_body py_int constraints emulate_basic_block solver_check G circles rec
    states has_ret blk w true branches
  = (instructions ← of_option KeyError (bb_to_instructions G !! blk);
     '(halt, emul_states) ←
       of_option EmulatorException (emulate_basic_block states has_ret instructions);
     if halt || bool_decide (length (edges_of G blk) = 0%nat) then
       Ok (emul_states, w,
           Call blk branches states (Some (halt, emul_states)) [] [] emul_states)
     else
       match ask_user_input py_int (w_inputs w) emul_states false [] None with
       | (Ok (StateIndex i), inputs1) =>
           state_item ← py_index emul_states i;
           '(avail_br, qs) ← filter_branches constraints solver_check state_item
                               (branches_of G blk branches);
           match ask_user_input py_int inputs1 [state_item] true avail_br (Some state_item) with
           | (Ok (Branch ty), inputs2) =>
               nxt_blk ← of_option KeyError (dict_get (edges_of G blk) ty);
               state ← match state_item with
                       | PerBranch d => of_option KeyError (dict_get d ty)
                       | Flat state => Ok state
                       end;
               '(out, w3, c) ← rec [Flat state] has_ret nxt_blk
                                 {| w_vis := <[blk := dd_get (w_vis w) blk + 1]> (w_vis w);
                                    w_inputs := inputs2 |} true None;
               let out' := if bool_decide (0 < length out)%nat then out else states in
               Ok (out',
                   set_vis w3 (<[blk := dd_get (w_vis w3) blk - 1]> (w_vis w3)),
                   Call blk branches states (Some (halt, emul_states)) qs [c] out')
           | (Ok (StateIndex _), _) => Raise TypeError
           | (Raise e, _) => Raise e
           | (OutOfFuel, _) => OutOfFuel
           end
       | (Ok (Branch _), _) => Raise TypeError
       | (Raise e, _) => Raise e
       | (OutOfFuel, _) => OutOfFuel
       end).
Proof.
  unfold visit_body. cbn [negb andb].
  apply bind_ext. intros instructions _.
  apply bind_ext. intros [halt emul_states] _.
  destruct (halt || bool_decide (length (edges_of G blk) = 0%nat)); [done|].
  cbn [set_vis w_inputs w_vis].
  destruct (ask_user_input py_int (w_inputs w) emul_states false [] None) as [[[i|ty]|e|] inputs1];
    cbn [mbind res_bind]; try reflexivity.
  rewrite res_bind_assoc. apply bind_ext. intros state_item _.
  cbn [mbind res_bind mret res_ret]. rewrite for_each_singleton.
  unfold visit_item at 1. fold (branches_of G blk branches).
  rewrite !res_bind_assoc. apply bind_ext. intros [avail_br qs] _.
  cbn [w_inputs w_vis].
  destruct (ask_user_input py_int inputs1 [state_item] true avail_br (Some state_item))
    as [[[i'|ty]|e|] inputs2]; cbn [mbind res_bind]; try reflexivity.
  rewrite for_each_singleton. unfold visit_edge at 1. cbn [negb].
  rewrite !res_bind_assoc. apply bind_ext. intros nxt_blk _.
  rewrite !res_bind_assoc. apply bind_ext. intros state _.
  rewrite !res_bind_assoc. apply bind_ext. intros [[out w3] c] _.
  reflexivity.
Qed.
End guided_step.

(** The prompt reads the lines it is given in order, and at least one
    of them when it returns. *)
Lemma ask_user_input_reads (py_int : string → option Z) {Item : Type} inputs (emul_states : list Item) isbr
    branches state_item r rest :
  ask_user_input py_int inputs emul_states isbr branches state_item = (r, rest) →
  ∃ used, inputs = used ++ rest ∧ ∀ c, r = Ok c → used ≠ [].
Proof.
  revert r rest. induction inputs as [|line inputs IH]; intros r rest; simpl.
  { intros [= <- <-]. by exists []. }
  destruct (parse_command py_int isbr line) as [[c0 [|]]|].
  - destruct (if isbr then _ else _) as [[]| |].
    + intros (used & -> & Hused)%IH. exists (line :: used). split; [done|]. by intros.
    + intros [= <- <-]. by exists [line].
    + intros [= <- <-]. by exists [line].
  - intros [= <- <-]. by exists [line].
  - intros [= <- <-]. by exists [line].
Qed.

Section guided_path.
Context {State Formula Instr HasRet : Type}.
Context (py_int : string → option Z).
Context (constraints : State → list Formula).
Context (emulate_basic_block :
  list (state_item State) → HasRet → list Instr → option (bool * list (state_item State))).
Context (solver_check : list Formula → option check_result).
Context (G : Graph Instr).
Context (circles : gset string).

#[local] Abbreviation visit' :=
  (visit py_int constraints emulate_basic_block solver_check G circles).

(** X9: a guided invocation that returns has followed a single path of
    the graph: every invocation under it made at most one invocation, on
    which it forced no branch (cycle headers are not unrolled). The
    lines it read are the first of those pending, at least two for each
    block it went on from. *)
Theorem visit_guided_follows_one_path fuel states has_ret blk w branches out w' c :
  visit' fuel states has_ret blk w true branches = Ok (out, w', c) →
  single_path c
  ∧ ∃ used, w_inputs w = used ++ w_inputs w'
      ∧ (2 * (path_length c - 1) ≤ length used)%nat.
Proof.
  revert states blk w branches out w' c.
  induction fuel as [|n IH]; intros states blk w branches out w' c; [done|].
  change (visit' (S n)) with
    (visit_body py_int constraints emulate_basic_block solver_check G circles (visit' n)).
  rewrite visit_body_guided.
  intros (instructions & _ & ([halt emul_states] & _ & Hrun)%bind_Ok)%bind_Ok.
  destruct (halt || bool_decide (length (edges_of G blk) = 0%nat)).
  { injection Hrun as <- <- <-. split; [done|]. exists []. split; [done|simpl; lia]. }
  destruct (ask_user_input py_int (w_inputs w) emul_states false [] None)
    as [[[i|ty]|e|] inputs1] eqn:Hask1; try done.
  apply ask_user_input_reads in Hask1 as (used1 & Hused1 & Hne1).
  apply bind_Ok in Hrun as (state_item & _ & ([avail_br qs] & _ & Hrun)%bind_Ok).
  destruct (ask_user_input py_int inputs1 [state_item] true avail_br (Some state_item))
    as [[[i'|ty]|e|] inputs2] eqn:Hask2; try done.
  apply ask_user_input_reads in Hask2 as (used2 & Hused2 & Hne2).
  apply bind_Ok in Hrun as (nxt_blk & _ & (state & _ & Hrun)%bind_Ok).
  apply bind_Ok in Hrun as ([[out1 w3] c1] & Hc & [= <- <- <-]).
  pose proof (visit_ok py_int constraints emulate_basic_block solver_check G circles n
                _ _ _ _ _ _ _ _ _ Hc) as (_ & Hbr & _).
  apply IH in Hc as (Hpath & used3 & Hused3 & Hlen). simpl in Hused3.
  split; [done|]. exists (used1 ++ used2 ++ used3). split.
  - simpl. by rewrite Hused1, Hused2, Hused3, <-!app_assoc.
  - specialize (Hne1 _ eq_refl). specialize (Hne2 _ eq_refl).
    assert (1 ≤ path_length c1)%nat as Hpos.
    { destruct c1 as [? ? ? ? ? [|] ?]; simpl; lia. }
    change (path_length (Call ?a ?b ?c ?d ?e [c1] ?f)) with (S (path_length c1)).
    rewrite !length_app. destruct used1, used2; try done. cbn [length]. lia.
Qed.

(** X10: a guided invocation cannot go on without input: on pending
    lines fewer than twice the recursion budget it ends, by a return or
    by an exception (the [EOFError] of the prompt at the latest). *)
Theorem visit_guided_ends_with_the_input fuel states has_ret blk w branches :
  (length (w_inputs w) < 2 * fuel)%nat →
  visit py_int constraints emulate_basic_block solver_check G circles fuel
    states has_ret blk w true branches ≠ OutOfFuel.
Proof.
  revert states blk w branches.
  induction fuel as [|n IH]; intros states blk w branches Hlen; [lia|].
  change (visit' (S n)) with
    (visit_body py_int constraints emulate_basic_block solver_check G circles (visit' n)).
  rewrite visit_body_guided.
  intros [Hi|(instructions & _ & Hrun)]%bind_OutOfFuel.
  { by destruct (bb_to_instructions G !! blk). }
  apply bind_OutOfFuel in Hrun as [He|([halt emul_states] & _ & Hrun)].
  { by destruct (emulate_basic_block states has_ret instructions). }
  destruct (halt || bool_decide (length (edges_of G blk) = 0%nat)); [done|].
  destruct (ask_user_input py_int (w_inputs w) emul_states false [] None)
    as [[[i|ty]|e|] inputs1] eqn:Hask1; try done.
  2: { revert Hask1. clear. generalize (w_inputs w). intros inputs.
       induction inputs as [|line inputs IH]; simpl; [done|].
       destruct (parse_command py_int false line) as [[c0 [|]]|]; [|done..].
       by destruct (show_state_info c0 emul_states) as [[]| |]. }
  apply ask_user_input_reads in Hask1 as (used1 & Hused1 & Hne1).
  apply bind_OutOfFuel in Hrun as [Hidx|(state_item & _ & Hrun)].
  { unfold py_index in Hidx. repeat case_bool_decide; try done;
      by destruct (emul_states !! _). }
  apply bind_OutOfFuel in Hrun as [Hf|([avail_br qs] & _ & Hrun)].
  { destruct (filter_loop_total constraints solver_check state_item
                (branches_of G blk branches) ([], [])) as [[r Hr]|Hr];
      unfold filter_branches in Hf; congruence. }
  destruct (ask_user_input py_int inputs1 [state_item] true avail_br (Some state_item))
    as [[[i'|ty]|e|] inputs2] eqn:Hask2; try done.
  2: { destruct inputs1 as [|line rest]; [done|]. simpl in Hask2.
       rewrite parse_command_branch in Hask2.
       by destruct (contains_space line), (branch_mapping line). }
  apply ask_user_input_reads in Hask2 as (used2 & Hused2 & Hne2).
  apply bind_OutOfFuel in Hrun as [Hk|(nxt_blk & _ & Hrun)].
  { by destruct (dict_get (edges_of G blk) ty). }
  apply bind_OutOfFuel in Hrun as [Hk|(state & _ & Hrun)].
  { destruct state_item as [s|d]; [done|]. by destruct (dict_get d ty). }
  apply bind_OutOfFuel in Hrun as [Hc|([[out1 w3] c1] & _ & Hrun)]; [|done].
  revert Hc. apply IH. simpl.
  specialize (Hne1 _ eq_refl). specialize (Hne2 _ eq_refl).
  rewrite Hused1, Hused2, !length_app in Hlen.
  destruct used1, used2; try done. simpl in Hlen. lia.
Qed.
End guided_path.

(** Six lines take the guided traversal of the diamond from [b_0] to
    its final block [b_4]. *)
Lemma visit_guided_follows_one_path_witness :
  ∃ out w' c,
    toy_visit plain_diamond ∅ 10 [Flat []] false "b_0"
      (with_inputs ["1"; "T"; "1"; "u"; "1"; "f"] fresh_world) true None = Ok (out, w', c)
    ∧ single_path c
    ∧ ∃ used, ["1"; "T"; "1"; "u"; "1"; "f"] = used ++ w_inputs w'
        ∧ (2 * (path_length c - 1) ≤ length used)%nat.
Proof.
  eexists _, _, _. split; [vm_compute; reflexivity|].
  eapply (visit_guided_follows_one_path toy_int (@id (list Z)) toy_emulate toy_solver plain_diamond ∅
            10 [Flat []] false "b_0" (with_inputs ["1"; "T"; "1"; "u"; "1"; "f"] fresh_world) None).
  vm_compute. reflexivity.
Defined.

(** On the self loop, two lines of input are used up by one round. *)
Lemma visit_guided_ends_with_the_input_witness :
  (length (w_inputs (with_inputs ["1"; "u"] fresh_world)) < 2 * 2)%nat
  ∧ toy_visit self_loop ∅ 2 [Flat []] false "b_0" (with_inputs ["1"; "u"] fresh_world) true None
    ≠ OutOfFuel.
Proof.
  split; [simpl; lia|].
  apply (visit_guided_ends_with_the_input toy_int (@id (list Z)) toy_emulate toy_solver self_loop ∅
           2 [Flat []] false "b_0" (with_inputs ["1"; "u"] fresh_world) None).
  simpl. lia.
Defined.

Lemma for_each_hom {A S} (φ : S → S) (f g : A → S → res S) l s :
  (∀ x t, x ∈ l → f x (φ t) = (g x t ≫= λ t', Ok (φ t'))) →
  for_each f l (φ s) = (for_each g l s ≫= λ s', Ok (φ s')).
Proof.
  revert s. induction l as [|x l IH]; intros s Hfg; [done|].
  rewrite !for_each_cons, Hfg by left. rewrite !res_bind_assoc.
  apply bind_ext. intros t _. cbn [mbind res_bind]. apply IH.
  intros. apply Hfg. by right.
Qed.

Lemma repeat_res_hom {S} (φ : S → S) (f g : S → res S) n s :
  (∀ t, f (φ t) = (g t ≫= λ t', Ok (φ t'))) →
  repeat_res n f (φ s) = (repeat_res n g s ≫= λ s', Ok (φ s')).
Proof.
  intros Hfg. revert s. induction n as [|n IH]; intros s; [done|].
  simpl. rewrite Hfg, !res_bind_assoc.
  apply bind_ext. intros t _. cbn [mbind res_bind]. apply IH.
Qed.

Section unguided_inputs.
Context {State Formula Instr HasRet : Type}.
Context (py_int : string → option Z).
Context (constraints : State → list Formula).
Context (emulate_basic_block :
  list (state_item State) → HasRet → list Instr → option (bool * list (state_item State))).
Context (solver_check : list Formula → option check_result).
Context (G : Graph Instr).
Context (circles : gset string).

#[local] Abbreviation visit' :=
  (visit py_int constraints emulate_basic_block solver_check G circles).

Lemma visit_unguided_with_inputs fuel states has_ret blk w branches inputs :
  visit' fuel states has_ret blk (with_inputs inputs w) false branches
  = ('(out, w', c) ← visit' fuel states has_ret blk w false branches;
     Ok (out, with_inputs inputs w', c)).
Proof.
  revert states blk w branches.
  induction fuel as [|n IH]; intros states blk w branches; [done|].
  change (visit' (S n)) with
    (visit_body py_int constraints emulate_basic_block solver_check G circles (visit' n)).
  unfold visit_body. cbn [negb andb with_inputs w_vis].
  destruct (bool_decide (0 < dd_get (w_vis w) blk)); [done|].
  rewrite !res_bind_assoc. apply bind_ext. intros instructions _.
  rewrite !res_bind_assoc. apply bind_ext. intros [halt emul_states] _.
  destruct (halt || bool_decide (length (edges_of G blk) = 0%nat)); [done|].
  cbn [mbind res_bind mret res_ret set_vis w_vis w_inputs].
  set (branches' := match branches with
                    | Some b => b
                    | None => dict_keys (edges_of G blk)
                    end).
  pose (φ4 := λ acc : list (state_item State) * world * list (list Formula)
                      * list (call State Formula),
          let '(fs, w, qs, calls) := acc in (fs, with_inputs inputs w, qs, calls)).
  pose (φ3 := λ acc : list (state_item State) * world * list (call State Formula),
          let '(fs, w, calls) := acc in (fs, with_inputs inputs w, calls)).
  match goal with
  | |- (for_each ?F ?l (?a, ?w1, ?b, ?c) ≫= _) = _ =>
      assert (for_each F l (a, w1, b, c)
              = (for_each F l (a, {| w_vis := w_vis w1; w_inputs := w_inputs w |}, b, c)
                   ≫= λ s', Ok (φ4 s'))) as ->;
        [apply (for_each_hom φ4 F F l
                  (a, {| w_vis := w_vis w1; w_inputs := w_inputs w |}, b, c))|]
  end.
  2: { rewrite !res_bind_assoc. apply bind_ext. intros [[[fs w2] qs] calls] _. done. }
  intros item [[[fs w2] qs] calls] _. unfold visit_item.
  rewrite !res_bind_assoc. apply bind_ext. intros [avail_br qs0] _.
  cbn [mbind res_bind mret res_ret].
  assert (for_each (visit_edge G circles (visit' n) has_ret blk false item) avail_br
            (fs, with_inputs inputs w2, calls)
          = (for_each (visit_edge G circles (visit' n) has_ret blk false item) avail_br
               (fs, w2, calls) ≫= λ s', Ok (φ3 s'))) as ->.
  2: { rewrite !res_bind_assoc. apply bind_ext. intros [[fs3 w3] calls3] _. done. }
  apply (for_each_hom φ3 _ _ _ (fs, w2, calls)).
  intros ty [[fs3 w3] calls3] _. unfold visit_edge. cbn [negb φ3].
  rewrite !res_bind_assoc. apply bind_ext. intros nxt_blk _.
  rewrite !res_bind_assoc. apply bind_ext. intros state _.
  destruct (bool_decide (nxt_blk ∈ circles)).
  - match goal with
    | |- (repeat_res ?k ?F (?a, ?w1, ?c) ≫= _) = _ =>
        assert (repeat_res k F (a, w1, c)
                = (repeat_res k F (a, w3, c) ≫= λ s', Ok (φ3 s'))) as ->
    end.
    + apply (repeat_res_hom φ3 _ _ _ ([Flat state], w3, [])).
      intros [[es w4] cs]. cbn [φ3]. rewrite IH, !res_bind_assoc.
      apply bind_ext. intros [[out w5] c] _. done.
    + rewrite !res_bind_assoc. apply bind_ext. intros [[es w4] cs] _.
      cbn [mbind res_bind φ3]. rewrite IH, !res_bind_assoc.
      apply bind_ext. intros [[out w5] c] _. done.
  - rewrite IH, !res_bind_assoc. apply bind_ext. intros [[out w5] c] _. done.
Qed.

(** X11: an unguided invocation never prompts: whatever input lines
    are pending it gives the same result, the same record and the same
    counters, and it leaves the lines unread. *)
Theorem visit_unguided_never_prompts fuel states has_ret blk w branches :
  (∀ inputs,
     visit' fuel states has_ret blk (with_inputs inputs w) false branches
     = ('(out, w', c) ← visit' fuel states has_ret blk w false branches;
        Ok (out, with_inputs inputs w', c)))
  ∧ (∀ out w' c,
       visit' fuel states has_ret blk w false branches = Ok (out, w', c) →
       w_inputs w' = w_inputs w).
Proof.
  split.
  - intros inputs. apply visit_unguided_with_inputs.
  - intros out w' c. apply visit_unguided_inputs.
Qed.
End unguided_inputs.

Lemma visit_unguided_never_prompts_witness :
  (∀ inputs,
     toy_visit plain_diamond ∅ 10 [Flat []] false "b_0" (with_inputs inputs fresh_world) false None
     = ('(out, w', c) ← toy_visit plain_diamond ∅ 10 [Flat []] false "b_0" fresh_world false None;
        Ok (out, with_inputs inputs w', c)))
  ∧ (∀ out w' c,
       toy_visit plain_diamond ∅ 10 [Flat []] false "b_0" fresh_world false None = Ok (out, w', c) →
       w_inputs w' = w_inputs fresh_world).
Proof.
  exact (visit_unguided_never_prompts toy_int (@id (list Z)) toy_emulate toy_solver plain_diamond ∅
           10 [Flat []] false "b_0" fresh_world None).
Defined.

(** ** The visitor: the traversal stays on the graph *)

Section along_edges_facts.
Context {State Formula Instr HasRet : Type}.
Context (py_int : string → option Z).
Context (constraints : State → list Formula).
Context (emulate_basic_block :
  list (state_item State) → HasRet → list Instr → option (bool * list (state_item State))).
Context (solver_check : list Formula → option check_result).
Context (G : Graph Instr).
Context (circles : gset string).

#[local] Abbreviation visit' :=
  (visit py_int constraints emulate_basic_block solver_check G circles).

Lemma along_edges_children blk br st em qs (cs : list (call State Formula)) out :
  Forall (child_ok G blk) cs →
  along_edges G (Call blk br st em qs cs out)
  ∧ ∀ b, calls_on b (Call blk br st em qs cs out) ≠ [] → rtc (succ G) blk b.
Proof.
  intros Hcs. split.
  - simpl. induction Hcs as [|d cs [Hd [Ha _]] _ IH]; simpl; [done|]. by split_and!.
  - intros b. simpl. destruct (decide (blk = b)) as [->|Hne]; [done|]. simpl.
    induction Hcs as [|d cs (Hd & _ & Hr) _ IH]; simpl; [done|].
    destruct (calls_on b d) as [|x l] eqn:Hb; simpl; [done|].
    intros _. eapply rtc_l; [done|]. apply Hr. by rewrite Hb.
Qed.

Lemma visit_along_edges fuel states has_ret blk w guided branches out w' c :
  visit' fuel states has_ret blk w guided branches = Ok (out, w', c) →
  along_edges G c ∧ ∀ b, calls_on b c ≠ [] → rtc (succ G) blk b.
Proof.
  revert states blk w guided branches out w' c.
  induction fuel as [|n IH]; intros states blk w guided branches out w' c; [done|].
  pose proof (visit_ok py_int constraints emulate_basic_block solver_check G circles n) as Hrec.
  change (visit' (S n)) with
    (visit_body py_int constraints emulate_basic_block solver_check G circles (visit' n)).
  unfold visit_body.
  destruct (negb guided && bool_decide (0 < dd_get (w_vis w) blk)).
  { intros [= <- <- <-]. by apply along_edges_children. }
  intros (instructions & _ & ([halt emul_states] & _ & Hrun)%bind_Ok)%bind_Ok.
  destruct (halt || bool_decide (length (edges_of G blk) = 0%nat)).
  { injection Hrun as <- <- <-. by apply along_edges_children. }
  apply bind_Ok in Hrun as ([emul1 w1] & _ & Hrun).
  apply bind_Ok in Hrun as ([[[fs w2] qs] calls] & Hloop & [= <- <- <-]).
  apply along_edges_children.
  assert (∀ st nxt w3 g br o w4 d, succ G blk nxt →
            visit' n st has_ret nxt w3 g br = Ok (o, w4, d) → child_ok G blk d) as Hcall.
  { intros st nxt w3 g br o w4 d Hnxt Hd.
    pose proof (Hrec _ _ _ _ _ _ _ _ _ Hd) as (Hb & _).
    apply IH in Hd as [Ha Hr]. unfold child_ok. rewrite Hb. by split_and!. }
  eapply (for_each_inv (λ acc, Forall (child_ok G blk) acc.2)) in Hloop; [done| |done].
  clear Hloop fs w2 qs calls.
  intros state_item [[[fs w2] qs] calls] [[[fs' w2'] qs'] calls'] _ Hcalls.
  unfold visit_item.
  intros ([avail0 qs0] & _ & ([avail_br w3] & _ & Hrun)%bind_Ok)%bind_Ok.
  apply bind_Ok in Hrun as ([[fs1 w4] calls1] & Hloop & [= <- <- <- <-]).
  eapply (for_each_inv (λ acc, Forall (child_ok G blk) acc.2)) in Hloop; [done| |done].
  clear Hloop fs1 w4 calls1.
  intros ty [[fs3 w5] calls3] [[fs4 w6] calls4] _ Hcalls3.
  unfold visit_edge.
  intros (nxt_blk & Hnxt & (state & _ & Hrun)%bind_Ok)%bind_Ok.
  assert (succ G blk nxt_blk) as Hsucc.
  { exists ty. by destruct (dict_get (edges_of G blk) ty); simplify_eq/=. }
  cbn [snd] in *.
  destruct (negb guided); [destruct (bool_decide (nxt_blk ∈ circles))|].
  - apply bind_Ok in Hrun as ([[es w7] cs] & Hrounds & Hlast).
    eapply (repeat_res_inv (λ acc, Forall (child_ok G blk) acc.2)) in Hrounds.
    + apply bind_Ok in Hlast as ([[o w8] d] & Hd & [= <- <- <-]).
      apply Hcall in Hd; [|done]. cbn [snd] in *.
      apply Forall_app. split; [done|]. apply Forall_app. by split; [|constructor].
    + intros [[es1 w8] cs1] [[es2 w9] cs2] Hcs1.
      intros ([[o w10] d] & Hd & [= <- <- <-])%bind_Ok.
      apply Hcall in Hd; [|done]. cbn [snd] in *.
      apply Forall_app. by split; [|constructor].
    + constructor.
  - apply bind_Ok in Hrun as ([[o w8] d] & Hd & [= <- <- <-]).
    apply Hcall in Hd; [|done]. cbn [snd]. apply Forall_app. by split; [|constructor].
  - apply bind_Ok in Hrun as ([[o w8] d] & Hd & [= <- <- <-]).
    apply Hcall in Hd; [|done]. cbn [snd]. apply Forall_app. by split; [|constructor].
Qed.

(** X12: in either mode the traversal stays on the graph: every
    invocation that [visit] makes is on the destination of an edge of
    the block it is at, so every block that an invocation is made on can
    be reached from the block of the first one along edges. *)
Theorem visit_stays_on_the_graph fuel states has_ret blk w guided branches out w' c :
  visit' fuel states has_ret blk w guided branches = Ok (out, w', c) →
  along_edges G c ∧ ∀ b, calls_on b c ≠ [] → rtc (succ G) blk b.
Proof. apply visit_along_edges. Qed.
End along_edges_facts.

Lemma visit_stays_on_the_graph_witness :
  ∃ out w' c,
    toy_visit while_loop while_loop_circles 10 [Flat []] false "b_0" fresh_world false None
    = Ok (out, w', c)
    ∧ along_edges while_loop c
    ∧ ∀ b, calls_on b c ≠ [] → rtc (succ while_loop) "b_0" b.
Proof.
  eexists _, _, _. split; [vm_compute; reflexivity|].
  eapply (visit_stays_on_the_graph toy_int (@id (list Z)) toy_emulate toy_solver while_loop
            while_loop_circles 10 [Flat []] false "b_0" fresh_world false None).
  vm_compute. reflexivity.
Defined.

(** ** The pre-pass: what it marks *)

Section pre_reach.
Context {Instr : Type} (G : Graph Instr).

Lemma pre_calls_reachable fuel blk st st' :
  pre G fuel blk st = Ok st' →
  ∃ calls, p_calls st' = p_calls st ++ blk :: calls ∧ ∀ b, b ∈ calls → rtc (succ G) blk b.
Proof.
  revert blk st st'. induction fuel as [|n IH]; intros blk st st'; [done|].
  simpl. unfold pre_body.
  destruct (_ && _).
  { intros [= <-]. exists []. split; [done|]. by intros ? ?%elem_of_nil. }
  set (st1 := {| p_vis := <[blk := 1]> (p_vis st); p_circles := p_circles st;
                 p_calls := p_calls st ++ [blk] |}).
  assert (∀ keys t t',
    for_each (λ ty st, nxt ← of_option KeyError (dict_get (edges_of G blk) ty);
                       pre G n nxt st) keys t = Ok t' →
    ∃ calls, p_calls t' = p_calls t ++ calls ∧ ∀ b, b ∈ calls → rtc (succ G) blk b) as Hloop.
  { induction keys as [|k keys IHk]; intros t t'.
    - intros [= <-]. exists []. split; [by rewrite app_nil_r|]. by intros ? ?%elem_of_nil.
    - rewrite for_each_cons.
      intros (u & (nxt & Hnxt & Hcall)%bind_Ok & (calls2 & Hc2 & Hr2)%IHk)%bind_Ok.
      destruct (dict_get (edges_of G blk) k) as [nxt'|] eqn:Hk; simplify_eq/=.
      apply IH in Hcall as (calls1 & Hc1 & Hr1).
      assert (succ G blk nxt) as Hs by by exists k.
      exists (nxt :: calls1 ++ calls2). split.
      + by rewrite Hc2, Hc1, <-app_assoc.
      + intros b [->|[Hb|Hb]%elem_of_app]%elem_of_cons.
        * by apply rtc_once.
        * eapply rtc_l; [done|]. by apply Hr1.
        * by apply Hr2. }
  intros (calls & Hc & Hr)%Hloop. exists calls. split; [|done].
  rewrite Hc. simpl. by rewrite <-app_assoc.
Qed.

Lemma marked_pre_start b : ¬ marked pre_start b.
Proof. unfold marked, pre_start, dd_get. simpl. by rewrite lookup_empty. Qed.

Lemma pre_marks_reachable fuel entry st :
  pre G fuel entry pre_start = Ok st →
  (∀ b, marked st b ↔ rtc (succ G) entry b)
  ∧ (∀ b, b ∈ p_calls st ↔ rtc (succ G) entry b).
Proof.
  intros Hrun.
  destruct (pre_rel_fuel G _ _ _ _ Hrun) as (calls & Hcalls & Hmarks & _).
  destruct (pre_calls_reachable _ _ _ _ Hrun) as (calls' & Hcalls' & Hreach).
  simpl in Hcalls, Hcalls'. assert (calls' = calls) as -> by congruence.
  assert (∀ b, marked st b ↔ b ∈ p_calls st) as Hlog.
  { intros b. rewrite Hmarks, Hcalls. pose proof (marked_pre_start b). tauto. }
  assert (∀ b, marked st b ↔ rtc (succ G) entry b) as Hm.
  { intros b. split.
    - rewrite Hmarks. intros [?%marked_pre_start|[->|?]%elem_of_cons]; [done|done|by auto].
    - revert b. apply rtc_ind_r.
      + apply Hmarks. right. by left.
      + intros c d _ Hcd IHr.
        destruct (pre_closes_marks G (λ _, False) _ _ _ _ ltac:(by intros ? []) Hrun c IHr)
          as [?%marked_pre_start|[_ Hcl]]; [done|]. by apply Hcl. }
  split; [done|]. intros b. by rewrite <-Hlog.
Qed.

(** X13: a pre-pass that returns was invoked on exactly the blocks that
    can be reached from its first block along edges, and it has marked
    these blocks and no other; each block that it has added to the set
    of cycle headers is one of them and has two outgoing edges. *)
Theorem pre_marks_exactly_the_reachable_blocks fuel entry st :
  pre G fuel entry pre_start = Ok st →
  (∀ b, marked st b ↔ rtc (succ G) entry b)
  ∧ (∀ b, b ∈ p_calls st ↔ rtc (succ G) entry b)
  ∧ (∀ b, b ∈ p_circles st → two_edges G b ∧ rtc (succ G) entry b).
Proof.
  intros Hrun. destruct (pre_marks_reachable _ _ _ Hrun) as [Hm Hc].
  split_and!; [done..|]. intros b Hb.
  destruct (pre_rel_fuel G _ _ _ _ Hrun) as (calls & Hcalls & Hmarks & Hcirc).
  destruct (proj1 (Hcirc b) Hb) as [Hb'|[Htwo (l1 & l2 & Heq & Hrev)]];
    [by apply elem_of_empty in Hb'|].
  split; [done|]. apply Hc. rewrite Hcalls, Heq. simpl. set_solver.
Qed.
End pre_reach.

Lemma pre_marks_exactly_the_reachable_blocks_witness :
  ∃ st, pre while_loop 10 "b_0" pre_start = Ok st
    ∧ (∀ b, marked st b ↔ rtc (succ while_loop) "b_0" b)
    ∧ (∀ b, b ∈ p_calls st ↔ rtc (succ while_loop) "b_0" b)
    ∧ (∀ b, b ∈ p_circles st → two_edges while_loop b ∧ rtc (succ while_loop) "b_0" b).
Proof.
  eexists. split; [vm_compute; reflexivity|].
  eapply (pre_marks_exactly_the_reachable_blocks while_loop 10 "b_0").
  vm_compute. reflexivity.
Defined.

(** ** The pre-pass: every cycle gets a header *)

Lemma times_cons b x l :
  times b (x :: l) = ((if decide (x = b) then 1 else 0) + times b l)%nat.
Proof. unfold times. rewrite filter_cons. by destruct (decide (x = b)). Qed.

Lemma times_app b l1 l2 : times b (l1 ++ l2) = (times b l1 + times b l2)%nat.
Proof. unfold times. by rewrite filter_app, length_app. Qed.

Lemma times_pos b l : b ∈ l ↔ (1 ≤ times b l)%nat.
Proof.
  induction l as [|x l IH]; [by split; [intros ?%elem_of_nil|inversion 1]|].
  rewrite times_cons, elem_of_cons, IH. destruct (decide (x = b)) as [->|]; [|naive_solver lia].
  split; [lia|by left].
Qed.

Lemma times_twice b l :
  (2 ≤ times b l)%nat → ∃ l1 l2, l = l1 ++ b :: l2 ∧ b ∈ l1.
Proof.
  induction l as [|x l IH]; [inversion 1|].
  rewrite times_cons. destruct (decide (x = b)) as [->|Hne].
  - intros Hl. assert (b ∈ l) as (l1 & l2 & ->)%list_elem_of_split by (apply times_pos; lia).
    exists (b :: l1), l2. split; [done|]. by left.
  - intros (l1 & l2 & -> & Hin)%IH. exists (x :: l1), l2. split; [done|]. by right.
Qed.

Lemma elem_of_marks vis b : b ∈ marks vis ↔ dd_get vis b = 1.
Proof.
  unfold marks, dd_get. rewrite elem_of_dom. unfold is_Some.
  setoid_rewrite map_lookup_filter_Some. simpl.
  destruct (vis !! b) as [v|]; simpl; naive_solver.
Qed.

Lemma marks_insert vis blk : marks (<[blk := 1]> vis) = {[blk]} ∪ marks vis.
Proof.
  apply set_eq. intros b. rewrite elem_of_union, elem_of_singleton, !elem_of_marks.
  destruct (decide (blk = b)) as [->|Hne].
  - rewrite dd_get_insert_eq. naive_solver.
  - rewrite dd_get_insert_ne by done. naive_solver.
Qed.

Lemma sum_list_with_add {A} (f g : A → nat) l :
  sum_list_with (λ a, f a + g a)%nat l = (sum_list_with f l + sum_list_with g l)%nat.
Proof.
  induction l as [|x l IH]; [done|].
  change (f x + g x + sum_list_with (λ a, f a + g a)%nat l
          = f x + sum_list_with f l + (g x + sum_list_with g l))%nat.
  rewrite IH. lia.
Qed.

Lemma sum_list_with_zero {A} (f : A → nat) l :
  (∀ a, a ∈ l → f a = 0%nat) → sum_list_with f l = 0%nat.
Proof.
  induction l as [|x l IH]; intros Hf; [done|].
  change (f x + sum_list_with f l = 0)%nat. rewrite Hf by left. rewrite IH; [done|].
  intros. apply Hf. by right.
Qed.

Lemma sum_list_with_indicator (P : string → Prop) `{∀ a, Decision (P a)} blk (l : list string) :
  NoDup l →
  (sum_list_with (λ a : string, if decide (blk = a ∧ P a) then 1%nat else 0%nat) l
   ≤ if decide (blk ∈ l) then 1 else 0)%nat.
Proof.
  induction 1 as [|x l Hx _ IH].
  - simpl. destruct (decide (blk ∈ [])); lia.
  - change (((if decide (blk = x ∧ P x) then 1 else 0)
             + sum_list_with (λ a : string, if decide (blk = a ∧ P a) then 1 else 0) l
             ≤ if decide (blk ∈ x :: l) then 1 else 0))%nat.
    destruct (decide (blk = x ∧ P x)) as [[-> _]|Hne].
    + rewrite sum_list_with_zero.
      * destruct (decide (x ∈ x :: l)) as [|[]]; [lia|by left].
      * intros a Ha. destruct (decide (x = a ∧ P a)) as [[-> _]|]; done.
    + etrans; [apply Nat.add_le_mono_l, IH|].
      destruct (decide (blk ∈ l)), (decide (blk ∈ x :: l)); simpl; try lia.
      set_solver.
Qed.

Section pre_counting.
Context {Instr : Type} (G : Graph Instr).

Lemma expansions_from_app M l1 l2 a :
  expansions_from G M (l1 ++ l2) a
  = (expansions_from G M l1 a + expansions_from G (list_to_set l1 ∪ M) l2 a)%nat.
Proof.
  revert M. induction l1 as [|b l1 IH]; intros M.
  - simpl. by assert ((∅ : gset string) ∪ M = M) as -> by set_solver.
  - simpl. rewrite IH.
    assert (list_to_set l1 ∪ ({[b]} ∪ M) = {[b]} ∪ list_to_set l1 ∪ M) as -> by set_solver.
    lia.
Qed.

(** A call on a block without two edges always goes on. *)
Lemma expansions_from_plain M calls a :
  ¬ two_edges G a → expansions_from G M calls a = times a calls.
Proof.
  intros Ha. revert M. induction calls as [|b calls IH]; intros M; [done|].
  simpl. rewrite times_cons, IH.
  destruct (decide (b = a)) as [->|]; destruct (decide _); naive_solver.
Qed.

(** The first call on a block that is not marked goes on. *)
Lemma expansions_from_first M calls a :
  a ∉ M → a ∈ calls → (1 ≤ expansions_from G M calls a)%nat.
Proof.
  revert M. induction calls as [|b calls IH]; intros M HM Ha; [by apply elem_of_nil in Ha|].
  simpl. destruct (decide (b = a ∧ ¬ (a ∈ M ∧ two_edges G a))) as [|Hne]; [lia|].
  assert (b ≠ a) as Hb by naive_solver.
  apply elem_of_cons in Ha as [->|Ha]; [done|].
  etrans; [apply (IH ({[b]} ∪ M))|lia]; [set_solver|done].
Qed.

(** The invocations [new] of a walk include one on [c] for each time
    that a block with an edge to [c] went on to its successors. *)
Lemma pre_counts c A fuel blk st st' :
  NoDup A → (∀ a, a ∈ A → succ G a c) →
  pre G fuel blk st = Ok st' →
  ∃ new, p_calls st' = p_calls st ++ new
    ∧ marks (p_vis st') = list_to_set new ∪ marks (p_vis st)
    ∧ ((if decide (blk = c) then 1 else 0)
       + sum_list_with (expansions_from G (marks (p_vis st)) new) A ≤ times c new)%nat.
Proof.
  intros HA Hsucc. revert blk st st'.
  induction fuel as [|n IH]; intros blk st st'; [done|].
  simpl. unfold pre_body.
  destruct (bool_decide (dd_get (p_vis st) blk = 1)
            && bool_decide (length (edges_of G blk) = 2%nat)) eqn:Hguard.
  { apply andb_true_iff in Hguard as [Hm%bool_decide_eq_true Ht%bool_decide_eq_true].
    intros [= <-]. exists [blk]. simpl. split_and!; [done| |].
    - apply elem_of_marks in Hm. set_solver.
    - rewrite sum_list_with_zero, times_cons; [unfold times; simpl; lia|].
      intros a _. simpl. apply elem_of_marks in Hm.
      destruct (decide (blk = a ∧ _)) as [[-> []]|]; done. }
  set (st1 := {| p_vis := <[blk := 1]> (p_vis st); p_circles := p_circles st;
                 p_calls := p_calls st ++ [blk] |}).
  assert (∀ keys t t',
    for_each (λ ty st, nxt ← of_option KeyError (dict_get (edges_of G blk) ty);
                       pre G n nxt st) keys t = Ok t' →
    ∃ new, p_calls t' = p_calls t ++ new
      ∧ marks (p_vis t') = list_to_set new ∪ marks (p_vis t)
      ∧ (length (filter (λ ty, dict_get (edges_of G blk) ty = Some c) keys)
         + sum_list_with (expansions_from G (marks (p_vis t)) new) A ≤ times c new)%nat) as Hloop.
  { induction keys as [|k keys IHk]; intros t t'.
    - intros [= <-]. exists []. split_and!; [by rewrite app_nil_r|set_solver|].
      rewrite sum_list_with_zero; [done|]. by intros.
    - rewrite for_each_cons.
      intros (u & (nxt & Hnxt & Hcall)%bind_Ok & (new2 & Hc2 & Hm2 & Hn2)%IHk)%bind_Ok.
      destruct (dict_get (edges_of G blk) k) as [nxt'|] eqn:Hk; simplify_eq/=.
      apply IH in Hcall as (new1 & Hc1 & Hm1 & Hn1).
      exists (new1 ++ new2). split_and!.
      + by rewrite Hc2, Hc1, <-app_assoc.
      + rewrite Hm2, Hm1, list_to_set_app_L. set_solver.
      + rewrite times_app.
        rewrite (sum_list_with_ext
                   (λ a, expansions_from G (marks (p_vis t)) new1 a
                         + expansions_from G (marks (p_vis u)) new2 a)%nat).
        2: { intros a _. by rewrite expansions_from_app, Hm1. }
        rewrite sum_list_with_add, filter_cons, Hk.
        destruct (decide (Some nxt = Some c)) as [[= ->]|Hne].
        * rewrite decide_True in Hn1 by done. simpl. lia.
        * destruct (decide (nxt = c)) as [->|]; [done|]. lia. }
  intros (new & Hc & Hm & Hn)%Hloop. exists (blk :: new). split_and!.
  - rewrite Hc. simpl. by rewrite <-app_assoc.
  - rewrite Hm. simpl. rewrite marks_insert. set_solver.
  - rewrite times_cons. simpl in Hn. rewrite marks_insert in Hn.
    rewrite (sum_list_with_ext
               (λ a, (if decide (blk = a ∧ ¬ (a ∈ marks (p_vis st) ∧ two_edges G a)) then 1 else 0)
                     + expansions_from G ({[blk]} ∪ marks (p_vis st)) new a)%nat).
    2: { by intros a _. }
    rewrite sum_list_with_add.
    pose proof (sum_list_with_indicator (λ a, ¬ (a ∈ marks (p_vis st) ∧ two_edges G a)) blk A HA)
      as Hind.
    assert ((if decide (blk ∈ A) then 1 else 0)
            ≤ length (filter (λ ty, dict_get (edges_of G blk) ty = Some c)
                        (dict_keys (edges_of G blk))))%nat as Hedge.
    { destruct (decide (blk ∈ A)) as [Hin|]; [|lia].
      destruct (Hsucc _ Hin) as [ty Hty].
      assert (ty ∈ filter (λ ty, dict_get (edges_of G blk) ty = Some c)
                (dict_keys (edges_of G blk))) as Hf.
      { apply list_elem_of_filter. split; [done|]. by eapply dict_get_Some_key. }
      destruct (filter _ _); [by apply elem_of_nil in Hf|simpl; lia]. }
    lia.
Qed.
End pre_counting.

Section pre_cycle_cut.
Context {Instr : Type} (G : Graph Instr).

Lemma is_path_pred a l z :
  is_path G a l z → ∀ v, v ∈ l ++ [z] → ∃ u, u ∈ a :: l ∧ succ G u v.
Proof.
  revert a. induction l as [|b l IH]; intros a; simpl.
  - intros Hs v [->|?%elem_of_nil]%elem_of_cons; [|done]. exists a. split; [by left|done].
  - intros [Hs Hp] v [->|Hv]%elem_of_cons.
    + exists a. split; [by left|done].
    + destruct (IH _ Hp _ Hv) as (u & Hu & Huv). exists u. split; [by right|done].
Qed.

Lemma is_path_reach a l z :
  is_path G a l z → ∀ y, y ∈ l ++ [z] → rtc (succ G) a y.
Proof.
  revert a. induction l as [|b l IH]; intros a; simpl.
  - intros Hs y [->|?%elem_of_nil]%elem_of_cons; [|done]. by apply rtc_once.
  - intros [Hs Hp] y [->|Hy]%elem_of_cons; [by apply rtc_once|].
    eapply rtc_l; [done|]. by eapply IH.
Qed.

(** A walk into a set of blocks starts in the set or enters it by an
    edge from outside. *)
Lemma rtc_enters (C : list string) entry a :
  rtc (succ G) entry a → a ∈ C →
  entry ∈ C ∨ ∃ x v, rtc (succ G) entry x ∧ (x ∉ C) ∧ succ G x v ∧ v ∈ C.
Proof.
  intros Hr. revert a Hr. apply (rtc_ind_r (λ a, a ∈ C → _)); [by left|].
  intros y z Hy Hyz IH Hz. destruct (decide (y ∈ C)) as [Hin|Hout]; [by apply IH|].
  right. by exists y, z.
Qed.

(** Along a walk through blocks that go on each time they are called,
    the number of calls does not decrease. *)
Lemma is_path_monotone (n : string → nat) (good : string → Prop) a l z :
  (∀ u v, good u → succ G u v → (n u ≤ n v)%nat) →
  is_path G a l z → Forall good (a :: l) →
  ∀ y, y ∈ a :: l → (n a ≤ n y ∧ n y ≤ n z)%nat.
Proof.
  intros Hstep. revert a. induction l as [|b l IH]; intros a; simpl.
  - intros Hs [Ha _]%Forall_cons y [->|?%elem_of_nil]%elem_of_cons; [|done].
    split; [done|]. by apply Hstep.
  - intros [Hs Hp] [Ha Hl]%Forall_cons y Hy.
    pose proof (Hstep _ _ Ha Hs) as Hab.
    pose proof (IH _ Hp Hl) as Hrest.
    apply elem_of_cons in Hy as [->|Hy].
    + split; [done|]. destruct (Hrest b) as [_ ?]; [by left|]. lia.
    + destruct (Hrest y Hy). lia.
Qed.

(** X14: when the pre-pass returns, every cycle of the graph that can
    be reached from its first block goes through a block of the set of
    cycle headers. *)
Theorem pre_circles_cut_every_reachable_cycle fuel entry st a l :
  pre G fuel entry pre_start = Ok st →
  rtc (succ G) entry a → is_path G a l a →
  ∃ b, b ∈ a :: l ∧ b ∈ p_circles st.
Proof.
  intros Hrun Hreach Hcyc.
  destruct (decide (Exists (λ b, b ∈ p_circles st) (a :: l))) as [?%Exists_exists|Hnone];
    [done|exfalso].
  apply not_Exists_Forall in Hnone; [|intros ?; apply _].
  rewrite Forall_forall in Hnone.
  set (calls := p_calls st).
  set (n := λ b, times b calls).
  set (e := expansions_from G ∅ calls).
  destruct (pre_marks_reachable G _ _ _ Hrun) as [_ Hlog].
  (* the calls on a block, counted by the edges into it *)
  assert (∀ c A, NoDup A → (∀ u, u ∈ A → succ G u c) →
            ((if decide (entry = c) then 1 else 0) + sum_list_with e A ≤ n c)%nat) as Hcount.
  { intros c A HA Hsucc.
    destruct (pre_counts G c A _ _ _ _ HA Hsucc Hrun) as (new & Hnew & _ & Hle).
    simpl in Hnew. unfold n, e, calls. rewrite Hnew.
    assert (marks (p_vis pre_start) = ∅) as Hm; [|by rewrite Hm in Hle].
    apply set_eq. intros b. rewrite elem_of_marks. split; [|by intros ?%elem_of_empty].
    by intros ?%(marked_pre_start b). }
  (* a reachable block goes on at least once *)
  assert (∀ x, rtc (succ G) entry x → (1 ≤ e x)%nat) as Hgoes.
  { intros x Hx. apply expansions_from_first; [set_solver|]. by apply Hlog. }
  (* a block of the cycle goes on each time it is called *)
  assert (∀ u, rtc (succ G) entry u → u ∉ p_circles st → (n u ≤ e u)%nat) as Hall.
  { intros u Hu Hout. destruct (decide (two_edges G u)) as [Htwo|Hplain].
    - etrans; [|by apply Hgoes].
      destruct (decide (2 ≤ n u)%nat) as [Hge|]; [exfalso|lia].
      apply times_twice in Hge as (l1 & l2 & Heq & Hin).
      destruct (pre_rel_fuel G _ _ _ _ Hrun) as (calls' & Hcalls & _ & Hcirc).
      apply Hout, Hcirc. right. split; [done|].
      exists l1, l2. split; [|by right].
      simpl in Hcalls. fold calls in Hcalls. congruence.
    - unfold e. by rewrite expansions_from_plain. }
  set (good := λ u, rtc (succ G) entry u ∧ u ∉ p_circles st).
  assert (∀ u v, good u → succ G u v → (n u ≤ n v)%nat) as Hstep.
  { intros u v [Hu Hout] Huv. etrans; [by apply Hall|].
    pose proof (Hcount v [u] ltac:(apply NoDup_singleton)
                  ltac:(by intros ? ->%list_elem_of_singleton)) as Hle.
    change (sum_list_with e [u]) with (e u + 0)%nat in Hle. lia. }
  assert (∀ y, y ∈ a :: l → rtc (succ G) entry y) as Hcr.
  { intros y [->|Hy]%elem_of_cons; [done|]. etrans; [done|].
    eapply is_path_reach; [done|]. apply elem_of_app. by left. }
  assert (∀ y, y ∈ a :: l → n y = n a) as Hsame.
  { intros y Hy.
    destruct (is_path_monotone n good a l a Hstep Hcyc) with (y := y) as [? ?]; [|done|lia].
    apply Forall_forall. intros u Hu. split; [by apply Hcr|by apply Hnone]. }
  assert (∀ v, v ∈ a :: l → ∃ u, u ∈ a :: l ∧ succ G u v ∧ (n v ≤ e u)%nat) as Hpred.
  { intros v Hv.
    destruct (is_path_pred a l a Hcyc v) as (u & Hu & Huv).
    { apply elem_of_cons in Hv as [->|Hv]; apply elem_of_app; [right; by left|by left]. }
    exists u. split_and!; [done..|].
    rewrite (Hsame v), <-(Hsame u) by done. apply Hall; [by apply Hcr|by apply Hnone]. }
  destruct (rtc_enters (a :: l) entry a Hreach ltac:(by left))
    as [Hentry|(x & v & Hx & Hout & Hxv & Hv)].
  - destruct (Hpred _ Hentry) as (u & Hu & Huv & Hle).
    pose proof (Hcount entry [u] ltac:(apply NoDup_singleton)
                  ltac:(by intros ? ->%list_elem_of_singleton)) as Hc.
    change (sum_list_with e [u]) with (e u + 0)%nat in Hc.
    rewrite decide_True in Hc by done. lia.
  - destruct (Hpred _ Hv) as (u & Hu & Huv & Hle).
    assert (NoDup [u; x]) as Hnd.
    { apply NoDup_cons. split; [|apply NoDup_singleton].
      intros ->%list_elem_of_singleton. done. }
    pose proof (Hcount v [u; x] Hnd) as Hc.
    change (sum_list_with e [u; x]) with (e u + (e x + 0))%nat in Hc.
    pose proof (Hgoes x Hx).
    assert (∀ u0, u0 ∈ [u; x] → succ G u0 v) as Hs.
    { intros u0 [->|[->|?%elem_of_nil]%elem_of_cons]%elem_of_cons; done. }
    specialize (Hc Hs). destruct (decide (entry = v)); lia.
Qed.
End pre_cycle_cut.

Lemma pre_circles_cut_every_reachable_cycle_witness :
  ∃ st, pre while_loop 10 "b_0" pre_start = Ok st
    ∧ rtc (succ while_loop) "b_0" "b_2"
    ∧ is_path while_loop "b_2" ["b_1"] "b_2"
    ∧ ∃ b, b ∈ ["b_2"; "b_1"] ∧ b ∈ p_circles st.
Proof.
  assert (succ while_loop "b_0" "b_1") as H01 by by exists unconditional.
  assert (succ while_loop "b_1" "b_2") as H12 by by exists conditional_false.
  assert (succ while_loop "b_2" "b_1") as H21 by by exists unconditional.
  assert (rtc (succ while_loop) "b_0" "b_2") as Hreach.
  { eapply rtc_l; [exact H01|]. by apply rtc_once. }
  assert (is_path while_loop "b_2" ["b_1"] "b_2") as Hcyc by done.
  eexists. split; [vm_compute; reflexivity|]. split; [exact Hreach|]. split; [exact Hcyc|].
  eapply (pre_circles_cut_every_reachable_cycle while_loop 10 "b_0" _ "b_2" ["b_1"]
            _ Hreach Hcyc).
  Unshelve. vm_compute. reflexivity.
Defined.

(** ** The drivers *)

Lemma is_entry_name_suffix bb : is_entry_name bb = true ↔ ∃ p, bb = p +:+ "_0".
Proof.
  unfold is_entry_name. split.
  - destruct (reverse (list_ascii_of_string bb)) as [|c0 [|c1 r]] eqn:Hrev; try done.
    { by destruct c0 as [[] [] [] [] [] [] [] []]. }
    intros Hc. exists (string_of_list_ascii (reverse r)).
    assert (c0 = "0"%char ∧ c1 = "_"%char) as [-> ->].
    { destruct c0 as [[] [] [] [] [] [] [] []]; try done.
      destruct c1 as [[] [] [] [] [] [] [] []]; done. }
    apply (f_equal reverse) in Hrev. rewrite reverse_involutive in Hrev.
    rewrite <-(string_of_list_ascii_of_string bb), Hrev, !reverse_cons.
    rewrite <-app_assoc. simpl. generalize (reverse r). clear.
    intros l. induction l as [|c l IH]; simpl; [done|]. by rewrite IH.
  - intros [p ->].
    assert (list_ascii_of_string (p +:+ "_0") = list_ascii_of_string p ++ ["_"; "0"]%char) as ->.
    { induction p as [|c p IH]; simpl; [done|]. by rewrite IH. }
    by rewrite reverse_app.
Qed.

Section driver_claims.
Context {State Formula Instr HasRet : Type}.
Context (py_int : string → option Z).
Context (constraints : State → list Formula).
Context (emulate_basic_block :
  list (state_item State) → HasRet → list Instr → option (bool * list (state_item State))).
Context (solver_check : list Formula → option check_result).
Context (init_state : string → State * HasRet).
Context (G : Graph Instr).

#[local] Abbreviation traverse_one' :=
  (traverse_one py_int constraints emulate_basic_block solver_check init_state G).
#[local] Abbreviation traverse' :=
  (traverse py_int constraints emulate_basic_block solver_check init_state G).

(** X15: the traversal of a function starts at the first of the
    function's blocks whose name ends in [_0], with the one state that
    [init_state] gives and no branch forced. A function that
    [func_to_bbs] does not know makes it raise [KeyError], and a
    function none of whose blocks has such a name [IndexError], both
    before any block is visited. *)
Theorem traverse_one_starts_at_the_entry_block fuel func inputs :
  (∀ final inputs' c,
     traverse_one' fuel func inputs = Ok (final, inputs', c) →
     ∃ before entry after,
       func_to_bbs G !! func = Some (before ++ entry :: after)
       ∧ Forall (λ bb, ∀ p, bb ≠ p +:+ "_0") before
       ∧ (∃ p, entry = p +:+ "_0")
       ∧ c_blk c = entry ∧ c_in c = [Flat (init_state func).1] ∧ c_branches c = None)
  ∧ (func_to_bbs G !! func = None → traverse_one' fuel func inputs = Raise KeyError)
  ∧ (∀ bbs, func_to_bbs G !! func = Some bbs →
       Forall (λ bb, ∀ p, bb ≠ p +:+ "_0") bbs →
       traverse_one' fuel func inputs = Raise IndexError).
Proof.
  split_and!.
  - intros final inputs' c Hrun.
    unfold traverse_one in Hrun. destruct (init_state func) as [state has_ret].
    apply bind_Ok in Hrun as (bbs & Hbbs & (entry & Hentry & Hrun)%bind_Ok).
    apply bind_Ok in Hrun as (st & _ & ([[fs w1] c1] & Hv & [= <- <- <-])%bind_Ok).
    apply visit_ok in Hv as (Hblk & Hbr & Hin & _).
    destruct (func_to_bbs G !! func) as [bbs'|] eqn:Hf; [|done].
    injection Hbbs as ->.
    destruct (filter (λ bb, is_entry_name bb = true) bbs) as [|e rest] eqn:Hfil; [done|].
    injection Hentry as ->.
    assert (∃ before after, bbs = before ++ entry :: after
              ∧ Forall (λ bb, is_entry_name bb = false) before
              ∧ is_entry_name entry = true) as (before & after & -> & Hbefore & He).
    { clear -Hfil. induction bbs as [|b bbs IH]; [done|].
      rewrite filter_cons in Hfil. destruct (decide (is_entry_name b = true)) as [Hb|Hb].
      - injection Hfil as -> _. by exists [], bbs.
      - destruct (IH Hfil) as (before & after & -> & ? & ?).
        exists (b :: before), after. split_and!; [done| |done].
        constructor; [by destruct (is_entry_name b)|done]. }
    exists before, entry, after. split_and!; try done.
    + eapply Forall_impl; [done|]. intros bb Hbb p ->.
      assert (is_entry_name (p +:+ "_0") = true) by (apply is_entry_name_suffix; eauto).
      congruence.
    + by apply is_entry_name_suffix.
  - intros Hf. unfold traverse_one. destruct (init_state func). by rewrite Hf.
  - intros bbs Hf Hall. unfold traverse_one. destruct (init_state func). rewrite Hf. simpl.
    assert (filter (λ bb, is_entry_name bb = true) bbs = []) as ->; [|done].
    clear -Hall. induction Hall as [|b bbs Hb _ IH]; [done|].
    rewrite filter_cons, IH. destruct (decide (is_entry_name b = true)) as [He|]; [|done].
    apply is_entry_name_suffix in He as [p ->]. by destruct (Hb p).
Qed.

(** X16: in unguided mode the traversal of a function ends, by a
    return or by an exception, once the recursion budget is large
    enough, provided every cycle that can be reached from the entry
    block has a block with exactly two outgoing edges; and it never ends
    when some such cycle has none. *)
Theorem traverse_one_unguided_ends_iff_pre_does func inputs before entry after :
  manual_guide G = false →
  func_to_bbs G !! func = Some (before ++ entry :: after) →
  Forall (λ bb, is_entry_name bb = false) before → is_entry_name entry = true →
  (reachable_cycles_have_two_edge_block G entry →
   ∃ fuel, ∀ fuel', (fuel ≤ fuel')%nat → traverse_one' fuel' func inputs ≠ OutOfFuel)
  ∧ (∀ a l, rtc (succ G) entry a → is_path G a l a →
            Forall (λ b, ¬ two_edges G b) (a :: l) →
            ∀ fuel, traverse_one' fuel func inputs = OutOfFuel).
Proof.
  intros Hg Hf Hbefore He.
  assert (head (filter (λ bb, is_entry_name bb = true) (before ++ entry :: after))
          = Some entry) as Hhead.
  { rewrite filter_app.
    assert (filter (λ bb, is_entry_name bb = true) before = []) as ->.
    { clear -Hbefore. induction Hbefore as [|b bbs Hb _ IH]; [done|].
      rewrite filter_cons, IH. by destruct (decide (is_entry_name b = true)); [congruence|]. }
    simpl. rewrite filter_cons. by destruct (decide (is_entry_name entry = true)). }
  split.
  - intros Hcyc.
    destruct (pre_terminates_from G entry Hcyc entry pre_start) as (fuel1 & st & Hpre); [done|].
    set (w0 := {| w_vis := ∅; w_inputs := inputs |}).
    exists (fuel1 `max` S (visit_budget G w0))%nat. intros fuel' Hfuel.
    unfold traverse_one. destruct (init_state func) as [state has_ret].
    rewrite Hf. simpl. rewrite Hhead. simpl.
    change {| p_vis := ∅; p_circles := ∅; p_calls := [] |} with pre_start.
    rewrite (pre_fuel_mono G fuel1 fuel'), Hpre; [|by rewrite Hpre|lia]. simpl.
    rewrite Hg.
    pose proof (visit_unguided_terminates py_int constraints emulate_basic_block solver_check G
                  (p_circles st) fuel' [Flat state] has_ret entry w0 None) as Hv.
    fold w0. destruct (visit _ _ _ _ _ _ fuel' _ _ _ w0 false None) as [[[fs w1] c]| |];
      [done|done|]. exfalso. apply Hv; [lia|done].
  - intros a l Hreach Hpath Hplain fuel.
    unfold traverse_one. destruct (init_state func) as [state has_ret].
    rewrite Hf. simpl. rewrite Hhead. simpl.
    by rewrite (pre_diverges G entry a l Hreach Hpath Hplain fuel).
Qed.

Lemma init_final_states_keys (funcs : list string) (d0 : list (string * option (list (state_item State)))) :
  NoDup (dict_keys d0) →
  let d := foldl (λ d func, dict_set d func None) d0 funcs in
  NoDup (dict_keys d) ∧ ∀ f, f ∈ dict_keys d ↔ f ∈ dict_keys d0 ∨ f ∈ funcs.
Proof.
  revert d0. induction funcs as [|func funcs IH]; intros d0 Hd0; simpl.
  - split; [done|]. set_solver.
  - destruct (IH (dict_set d0 func None)) as [Hnd Hin]; [by apply dict_set_keys_NoDup|].
    split; [done|]. intros f. rewrite Hin, dict_set_keys. set_solver.
Qed.

(** X17: a run of [traverse] that returns has recorded final states
    for every entry function and for nothing else, an entry that is
    listed more than once being traversed each time and recorded once. *)
Theorem traverse_records_every_entry fuel entries inputs final_states inputs' :
  traverse' fuel entries inputs = Ok (final_states, inputs') →
  NoDup (dict_keys final_states)
  ∧ (∀ f, f ∈ dict_keys final_states ↔ f ∈ entries)
  ∧ (∀ f, f ∈ entries → ∃ states, dict_get final_states f = Some (Some states)).
Proof.
  unfold traverse.
  destruct (init_final_states_keys entries [] (NoDup_nil_2)) as [Hnd0 Hin0].
  fold (@init_final_states State entries) in Hnd0, Hin0.
  generalize dependent (@init_final_states State entries). intros d0 Hnd0 Hin0.
  assert (∀ f, f ∈ dict_keys d0 ↔ f ∈ entries) as Hkeys0.
  { intros f. rewrite Hin0. unfold dict_keys. set_solver. }
  clear Hin0.
  assert (∀ l d inp d' inp',
    for_each
      (λ entry_func '(final_states, inputs),
         '(states, inputs, _) ← traverse_one' fuel entry_func inputs;
         Ok (dict_set final_states entry_func (Some states), inputs))
      l (d, inp) = Ok (d', inp') →
    NoDup (dict_keys d) →
    NoDup (dict_keys d')
    ∧ (∀ f, f ∈ dict_keys d' ↔ f ∈ dict_keys d ∨ f ∈ l)
    ∧ (∀ f states, dict_get d f = Some (Some states) →
         ∃ states', dict_get d' f = Some (Some states'))
    ∧ (∀ f, f ∈ l → ∃ states, dict_get d' f = Some (Some states))) as Hloop.
  { induction l as [|e l IH]; intros d inp d' inp'.
    - intros [= <- <-] Hnd. split_and!; [done|set_solver|by eauto|by intros ? ?%elem_of_nil].
    - rewrite for_each_cons.
      intros ([d1 inp1] & ([[states inp2] c] & _ & [= <- <-])%bind_Ok & Hrest)%bind_Ok Hnd.
      apply IH in Hrest as (Hnd' & Hin' & Hkeep & Hnew); [|by apply dict_set_keys_NoDup].
      split_and!; [done| | |].
      + intros f. rewrite Hin', dict_set_keys. set_solver.
      + intros f st Hf. destruct (decide (e = f)) as [->|Hne].
        * apply (Hkeep f states). apply dict_get_set_eq.
        * apply (Hkeep f st). by rewrite dict_get_set_ne.
      + intros f [->|Hf]%elem_of_cons; [|by apply Hnew].
        apply (Hkeep e states). apply dict_get_set_eq. }
  intros (Hnd & Hin & _ & Hnew)%Hloop; [|done].
  split_and!; [done| |done]. intros f. rewrite Hin, Hkeys0. tauto.
Qed.
End driver_claims.

Lemma traverse_one_starts_at_the_entry_block_witness :
  (∃ final inputs' c,
     toy_traverse_one plain_diamond 10 "f" [] = Ok (final, inputs', c)
     ∧ ∃ before entry after,
         func_to_bbs plain_diamond !! "f" = Some (before ++ entry :: after)
         ∧ Forall (λ bb, ∀ p, bb ≠ p +:+ "_0") before
         ∧ (∃ p, entry = p +:+ "_0")
         ∧ c_blk c = entry ∧ c_in c = [Flat []] ∧ c_branches c = None)
  ∧ toy_traverse_one plain_diamond 10 "g" [] = Raise KeyError.
Proof.
  pose proof (traverse_one_starts_at_the_entry_block toy_int (@id (list Z)) toy_emulate toy_solver
                (λ _, ([], false)) plain_diamond 10) as H.
  split.
  - eexists _, _, _. split; [vm_compute; reflexivity|].
    eapply (proj1 (H "f" [])). vm_compute. reflexivity.
  - apply (proj1 (proj2 (H "g" []))). vm_compute. reflexivity.
Defined.

Lemma traverse_one_unguided_ends_iff_pre_does_witness :
  manual_guide while_loop = false
  ∧ func_to_bbs while_loop !! "f" = Some ([] ++ "b_0" :: ["b_1"; "b_2"; "b_3"])
  ∧ reachable_cycles_have_two_edge_block while_loop "b_0"
  ∧ ∃ fuel, ∀ fuel', (fuel ≤ fuel')%nat → toy_traverse_one while_loop fuel' "f" [] ≠ OutOfFuel.
Proof.
  assert (reachable_cycles_have_two_edge_block while_loop "b_0") as Hcyc.
  { intros a l _. apply while_loop_cycles. }
  split; [reflexivity|]. split; [vm_compute; reflexivity|]. split; [exact Hcyc|].
  refine (proj1 (traverse_one_unguided_ends_iff_pre_does toy_int (@id (list Z)) toy_emulate toy_solver
            (λ _, ([], false)) while_loop "f" [] [] "b_0" ["b_1"; "b_2"; "b_3"]
            eq_refl _ _ eq_refl) Hcyc).
  - vm_compute. reflexivity.
  - constructor.
Defined.

Lemma traverse_records_every_entry_witness :
  ∃ final_states inputs',
    traverse toy_int (@id (list Z)) toy_emulate toy_solver (λ _, ([], false)) plain_diamond
      10 ["f"; "f"] [] = Ok (final_states, inputs')
    ∧ NoDup (dict_keys final_states)
    ∧ (∀ f, f ∈ dict_keys final_states ↔ f ∈ ["f"; "f"])
    ∧ (∀ f, f ∈ ["f"; "f"] → ∃ states, dict_get final_states f = Some (Some states)).
Proof.
  eexists _, _. split; [vm_compute; reflexivity|].
  eapply (traverse_records_every_entry toy_int (@id (list Z)) toy_emulate toy_solver
            (λ _, ([], false)) plain_diamond 10 ["f"; "f"] []).
  vm_compute. reflexivity.
Defined.

(** ** The analysis options *)

Lemma split_on_nonempty sep s : split_on sep s ≠ [].
Proof.
  destruct s as [|c s]; simpl; [done|].
  destruct (decide (c = sep)); [done|]. by destruct (split_on sep s).
Qed.

Lemma split_on_pieces sep s :
  Forall (λ w, contains_char sep w = false) (split_on sep s).
Proof.
  induction s as [|c s IH]; simpl; [by repeat constructor|].
  destruct (decide (c = sep)) as [->|Hc]; [by constructor|].
  destruct (split_on sep s) as [|w ws].
  { constructor; [|constructor]. simpl. by destruct (decide (c = sep)). }
  apply Forall_cons in IH as [Hw Hws]. constructor; [|done].
  simpl. by destruct (decide (c = sep)).
Qed.

Lemma join_split_on sep s : join_with sep (split_on sep s) = s.
Proof.
  induction s as [|c s IH]; [done|]. simpl.
  pose proof (split_on_nonempty sep s) as Hne.
  destruct (decide (c = sep)) as [->|Hc].
  - destruct (split_on sep s) as [|w ws]; [done|].
    change (join_with sep ("" :: w :: ws)) with (String sep (join_with sep (w :: ws))).
    by rewrite IH.
  - destruct (split_on sep s) as [|w [|w' ws]]; [done|simpl in *; by rewrite IH|].
    change (String c (w +:+ String sep (join_with sep (w' :: ws))) = String c s).
    by rewrite <-IH.
Qed.

Lemma string_app_assoc (a b c : string) : (a +:+ b) +:+ c = a +:+ (b +:+ c).
Proof.
  induction a as [|x a IH]; [done|].
  change (String x ((a +:+ b) +:+ c) = String x (a +:+ b +:+ c)). by f_equal.
Qed.

Lemma string_app_nil_r (a : string) : a +:+ "" = a.
Proof.
  induction a as [|x a IH]; [done|]. change (String x (a +:+ "") = String x a). by f_equal.
Qed.

Lemma join_with_snoc sep l w :
  join_with sep (l ++ [w])
  = match l with [] => w | _ => join_with sep l +:+ String sep w end.
Proof.
  induction l as [|x l IH]; [done|].
  destruct l as [|y l]; [done|].
  change (x +:+ String sep (join_with sep ((y :: l) ++ [w]))
          = (x +:+ String sep (join_with sep (y :: l))) +:+ String sep w).
  rewrite IH. by rewrite string_app_assoc.
Qed.

Lemma contains_char_app sep a b :
  contains_char sep (a +:+ b) = contains_char sep a || contains_char sep b.
Proof.
  induction a as [|c a IH]; simpl; [done|]. by destruct (decide (c = sep)).
Qed.

Section lasers_facts.
Context (OVERFLOW DIVZERO BUFFER : Z).

#[local] Abbreviation set_lasers' := (Configuration.set_lasers OVERFLOW DIVZERO BUFFER).

(** X18: [set_lasers] toggles: two calls amount to one call with the
    flags that exactly one of the two asks for, whatever the values of
    the three lasers are; a second call with the same flags puts the
    option back to what it was before the first. *)
Theorem set_lasers_toggles o1 d1 b1 o2 d2 b2 (c : Configuration.t) :
  set_lasers' o2 d2 b2 (set_lasers' o1 d1 b1 c)
  = set_lasers' (xorb o1 o2) (xorb d1 d2) (xorb b1 b2) c
  ∧ set_lasers' o1 d1 b1 (set_lasers' o1 d1 b1 c) = c.
Proof.
  assert (∀ o1 d1 b1 o2 d2 b2,
            set_lasers' o2 d2 b2 (set_lasers' o1 d1 b1 c)
            = set_lasers' (xorb o1 o2) (xorb d1 d2) (xorb b1 b2) c) as Hcomp.
  { clear. intros o1 d1 b1 o2 d2 b2. destruct c as [l a p f].
    unfold Configuration.set_lasers, Configuration.xor_lasers.
    destruct o1, d1, b1, o2, d2, b2; simpl; f_equal;
      apply Z.bits_inj'; intros n _; rewrite ?Z.lxor_spec;
      by destruct (Z.testbit l n), (Z.testbit OVERFLOW n), (Z.testbit DIVZERO n),
                  (Z.testbit BUFFER n). }
  split; [apply Hcomp|].
  rewrite Hcomp, !xorb_nilpotent. by destruct c.
Qed.
End lasers_facts.

Lemma py_index_last {A} (l : list A) x : py_index (l ++ [x]) (-1) = Ok x.
Proof.
  unfold py_index. cbv zeta. rewrite length_app. cbn [length].
  rewrite bool_decide_eq_false_2 by lia. rewrite bool_decide_eq_true_2 by lia.
  replace (Z.to_nat (Z.of_nat (length l + 1) + -1)) with (length l) by lia.
  by rewrite lookup_app_r, Nat.sub_diag by done.
Qed.

(** X19: [set_file] never raises. The name it keeps is what stands in
    the path between the last [/] and the first [.] after it: the path
    is a directory part that is empty or ends in [/], the name, and an
    extension that is empty or starts with [.]; neither the name nor
    the extension has a [/], and the name has no [.]. *)
Theorem set_file_keeps_the_base_name (file_path : string) (c : Configuration.t) :
  ∃ c' dir ext,
    Configuration.set_file file_path c = Ok c'
    ∧ Configuration.get_file_path c' = file_path
    ∧ file_path = dir +:+ Configuration.get_file_name c' +:+ ext
    ∧ (dir = "" ∨ ∃ d, dir = d +:+ "/")
    ∧ (ext = "" ∨ ∃ e, ext = "." +:+ e)
    ∧ contains_char "/" (Configuration.get_file_name c' +:+ ext) = false
    ∧ contains_char "." (Configuration.get_file_name c') = false.
Proof.
  unfold Configuration.set_file.
  pose proof (join_split_on "/" file_path) as Hjoin.
  pose proof (split_on_pieces "/" file_path) as Hpieces.
  destruct (split_on "/" file_path) as [|w0 ws0] eqn:Hsplit using rev_ind;
    [by apply split_on_nonempty in Hsplit|]. clear IHws0.
  rename w0 into last_component, ws0 into comps.
  apply Forall_app in Hpieces as [_ [Hlast _]%Forall_cons].
  rewrite py_index_last. simpl.
  pose proof (join_split_on "." last_component) as Hjoin2.
  pose proof (split_on_pieces "." last_component) as Hpieces2.
  destruct (split_on "." last_component) as [|file_name exts] eqn:Hsplit2;
    [by apply split_on_nonempty in Hsplit2|].
  apply Forall_cons in Hpieces2 as [Hname _].
  assert (py_index (file_name :: exts) 0 = Ok file_name) as ->.
  { unfold py_index. cbv zeta. rewrite bool_decide_eq_true_2; [done|cbn [length]; lia]. }
  simpl. eexists _, (match comps with [] => "" | _ => join_with "/" comps +:+ "/" end),
    (match exts with [] => "" | _ => "." +:+ join_with "." exts end).
  split; [done|]. unfold Configuration.get_file_path, Configuration.get_file_name. simpl.
  assert (last_component
          = file_name +:+ match exts with [] => "" | _ => "." +:+ join_with "." exts end) as Hlc.
  { rewrite <-Hjoin2. destruct exts; [|done]. simpl. by rewrite string_app_nil_r. }
  split_and!.
  - done.
  - rewrite <-Hlc, <-Hjoin, join_with_snoc. destruct comps; [done|].
    by rewrite string_app_assoc.
  - destruct comps; [by left|right; eauto].
  - destruct exts; [by left|right; eauto].
  - by rewrite <-Hlc.
  - done.
Qed.

Lemma pretty_nat_inj' (n m : nat) : pretty n = pretty m → n = m.
Proof. apply (inj pretty). Qed.

Lemma string_app_inj (a b c : string) : a +:+ b = a +:+ c → b = c.
Proof. induction a as [|x a IH]; simpl; [done|]. intros [= ?]. by apply IH. Qed.

Lemma imap_index {A B} (g : nat → B) (l : list A) :
  imap (λ i _, g i) l = g <$> seq 0 (length l).
Proof.
  revert g. induction l as [|x l IH]; intros g; [done|].
  rewrite imap_cons. simpl. f_equal.
  etrans; [apply (IH (g ∘ S))|]. by rewrite <-fmap_S_seq, <-list_fmap_compose.
Qed.

(** X20: [set_args] extends the argument list at its end and keeps
    what was there. A call adds the pieces of [args] between single
    blanks (none when [args] is empty) and then one symbol of [8 * n]
    bits for each length [n] of [sym_args]; the names of the symbols of
    one call are pairwise distinct. *)
Theorem set_args_appends (args : string) (sym_args : list Z) (c : Configuration.t) :
  ∃ strs syms,
    Configuration.get_args (Configuration.set_args args sym_args c)
    = Configuration.get_args c ++ (Configuration.ArgStr <$> strs)
        ++ (Configuration.ArgSym <$> syms)
    ∧ strs = (if decide (args = "") then [] else split_on " " args)
    ∧ Configuration.bv_bits <$> syms = (λ n, 8 * n) <$> sym_args
    ∧ NoDup (Configuration.bv_name <$> syms).
Proof.
  exists (if decide (args = "") then [] else split_on " " args),
    (imap (λ i sym_len, Configuration.BitVec ("sym_args_" +:+ pretty (i + 1)%nat)
                          (8 * sym_len)) sym_args).
  split_and!.
  - unfold Configuration.get_args, Configuration.set_args. simpl.
    rewrite fmap_imap. destruct (decide (args = "")); simpl.
    + done.
    + by rewrite <-app_assoc.
  - done.
  - rewrite fmap_imap. unfold compose. simpl. apply imap_const.
  - rewrite fmap_imap. unfold compose. simpl.
    rewrite (imap_index (λ i : nat, "sym_args_" +:+ pretty (i + 1)%nat)).
    apply NoDup_fmap_2; [|apply NoDup_seq].
    intros i j Hij. apply string_app_inj, pretty_nat_inj' in Hij. lia.
Qed.

(** ** The opcode decoder *)

Lemma byte2int_range b : 0 ≤ WasmDisassembler.byte2int b < 256.
Proof.
  unfold WasmDisassembler.byte2int. pose proof (Byte.to_N_bounded b). lia.
Qed.

Lemma lor_prefix_byte b :
  Z.lor (Z.shiftl 0xfc 8) (WasmDisassembler.byte2int b) = 0xfc00 + WasmDisassembler.byte2int b.
Proof. by destruct b. Qed.

Section disassemble_opcode_facts.
Context {Imm Operand Opcode : Type}.
Context (table : gmap Z (@WasmDisassembler.entry Imm)).
Context (from_raw : Imm → list Byte.byte → option (nat * Operand)).
Context (OPCODE_MAP : gmap Z Opcode).
Context (format_instruction : Opcode → Operand → nat → option string).

#[local] Abbreviation disassemble_opcode' :=
  (WasmDisassembler.disassemble_opcode table from_raw OPCODE_MAP format_instruction).

Lemma read_opcode_Return bytecode opcode_id opcode_size :
  WasmDisassembler.read_opcode bytecode = WasmDisassembler.Return (opcode_id, opcode_size) →
  ∃ b0 rest, bytecode = b0 :: rest
    ∧ if decide (WasmDisassembler.byte2int b0 = 0xfc) then
        ∃ b1 rest', rest = b1 :: rest'
          ∧ opcode_id = 0xfc00 + WasmDisassembler.byte2int b1
          ∧ opcode_size = (if decide (WasmDisassembler.byte2int b1 = 0x0a) then 4
                           else if decide (WasmDisassembler.byte2int b1 = 0x0b) then 3
                           else 1)
      else opcode_id = WasmDisassembler.byte2int b0 ∧ opcode_size = 1.
Proof.
  unfold WasmDisassembler.read_opcode.
  destruct bytecode as [|b0 rest]; [done|]. simpl.
  intros Hrun. exists b0, rest. split; [done|].
  destruct (decide (WasmDisassembler.byte2int b0 = 252)) as [Hb0|Hb0].
  - rewrite Hb0 in Hrun. destruct rest as [|b1 rest']; [done|]. simpl in Hrun.
    exists b1, rest'. split; [done|].
    rewrite lor_prefix_byte in Hrun.
    repeat case_decide; simplify_eq; split; try done; lia.
  - by simplify_eq.
Qed.

Lemma disassemble_opcode_Return bytecode offset nature_offset ins :
  disassemble_opcode' bytecode offset nature_offset = WasmDisassembler.Return ins →
  ∃ opcode_id opcode_size n text,
    WasmDisassembler.read_opcode bytecode = WasmDisassembler.Return (opcode_id, opcode_size)
    ∧ (∀ k, WasmDisassembler.e_imm_struct
              (default WasmDisassembler.invalid (table !! opcode_id))
            ≠ Some (WasmDisassembler.ImmInt k))
    ∧ ins = let e := default WasmDisassembler.invalid (table !! opcode_id) in
            {| WasmDisassembler.opcode := opcode_id;
               WasmDisassembler.opcode_size := opcode_size;
               WasmDisassembler.name := WasmDisassembler.e_name e;
               WasmDisassembler.imm_struct_of := WasmDisassembler.e_imm_struct e;
               WasmDisassembler.operand_size := n;
               WasmDisassembler.insn_byte := take (1 + n) bytecode;
               WasmDisassembler.pops := WasmDisassembler.e_pops e;
               WasmDisassembler.pushes := WasmDisassembler.e_pushes e;
               WasmDisassembler.description := WasmDisassembler.e_description e;
               WasmDisassembler.operand_interpretation := text;
               WasmDisassembler.offset := offset;
               WasmDisassembler.nature_offset := nature_offset |}.
Proof.
  unfold WasmDisassembler.disassemble_opcode.
  destruct (WasmDisassembler.read_opcode bytecode) as [[opcode_id opcode_size]|]; [|done].
  cbn [WasmDisassembler.bind]. cbv zeta.
  destruct (WasmDisassembler.e_imm_struct _) as [[k|s]|] eqn:Himm; [done| |].
  - destruct (from_raw s (drop 1 bytecode)) as [[n operand]|]; [|done].
    cbn [WasmDisassembler.bind WasmDisassembler.or_raise].
    destruct (OPCODE_MAP !! opcode_id) as [op|]; [|done].
    cbn [WasmDisassembler.bind WasmDisassembler.or_raise].
    destruct (format_instruction op operand (1 + n)) as [text|]; [|done].
    cbn [WasmDisassembler.bind WasmDisassembler.or_raise].
    intros [= Hins]. exists opcode_id, opcode_size, n, (Some text).
    rewrite Himm. by split_and!.
  - cbn [WasmDisassembler.bind].
    intros [= Hins]. exists opcode_id, opcode_size, 0%nat, None.
    rewrite Himm. by split_and!.
Qed.

(** X22: an instruction that [disassemble_opcode] returns has the
    first byte of the code as its opcode, unless that byte is [0xfc]:
    then the opcode is [0xfc00] plus the second byte, and its size is 4
    for [0xfc0a], 3 for [0xfc0b] and 1 for any other. The bytes it
    keeps are the first one and those of the operand, counted from the
    second byte of the code on in either case. *)
Theorem disassemble_opcode_reads_the_opcode bytecode offset nature_offset ins :
  disassemble_opcode' bytecode offset nature_offset = WasmDisassembler.Return ins →
  (∃ b0 rest, bytecode = b0 :: rest
     ∧ if decide (WasmDisassembler.byte2int b0 = 0xfc) then
         ∃ b1 rest', rest = b1 :: rest'
           ∧ WasmDisassembler.opcode ins = 0xfc00 + WasmDisassembler.byte2int b1
           ∧ WasmDisassembler.opcode_size ins
             = (if decide (WasmDisassembler.byte2int b1 = 0x0a) then 4
                else if decide (WasmDisassembler.byte2int b1 = 0x0b) then 3
                else 1)
       else WasmDisassembler.opcode ins = WasmDisassembler.byte2int b0
            ∧ WasmDisassembler.opcode_size ins = 1)
  ∧ WasmDisassembler.insn_byte ins = take (1 + WasmDisassembler.operand_size ins) bytecode
  ∧ 0 ≤ WasmDisassembler.opcode ins < 0x10000
  ∧ WasmDisassembler.offset ins = offset
  ∧ WasmDisassembler.nature_offset ins = nature_offset.
Proof.
  intros (opcode_id & opcode_size & n & text & Hread & _ & ->)%disassemble_opcode_Return.
  apply read_opcode_Return in Hread as (b0 & rest & -> & Hop).
  cbv zeta. cbn [WasmDisassembler.opcode WasmDisassembler.opcode_size
                 WasmDisassembler.insn_byte WasmDisassembler.operand_size
                 WasmDisassembler.offset WasmDisassembler.nature_offset].
  split_and!; try done.
  - by exists b0, rest.
  - pose proof (byte2int_range b0).
    destruct (decide (WasmDisassembler.byte2int b0 = 252)).
    + destruct Hop as (b1 & rest' & _ & -> & _). pose proof (byte2int_range b1). lia.
    + destruct Hop as [-> _]. lia.
  - pose proof (byte2int_range b0).
    destruct (decide (WasmDisassembler.byte2int b0 = 252)).
    + destruct Hop as (b1 & rest' & _ & -> & _). pose proof (byte2int_range b1). lia.
    + destruct Hop as [-> _]. lia.
Qed.

(** X23: [disassemble_opcode] never returns the [INVALID] placeholder
    of line 44: an instruction that it returns has the name, the stack
    effect and the description of the table's entry for its opcode, and
    an opcode that the table does not have makes it raise
    [AssertionError], as does an entry whose immediate structure is an
    [int]. Code without a first byte, or with [0xfc] alone, makes it
    raise [IndexError]. *)
Theorem disassemble_opcode_never_returns_invalid bytecode offset nature_offset :
  (∀ ins,
     disassemble_opcode' bytecode offset nature_offset = WasmDisassembler.Return ins →
     ∃ e, table !! WasmDisassembler.opcode ins = Some e
       ∧ WasmDisassembler.name ins = WasmDisassembler.e_name e
       ∧ WasmDisassembler.pops ins = WasmDisassembler.e_pops e
       ∧ WasmDisassembler.pushes ins = WasmDisassembler.e_pushes e
       ∧ WasmDisassembler.description ins = WasmDisassembler.e_description e
       ∧ WasmDisassembler.imm_struct_of ins = WasmDisassembler.e_imm_struct e
       ∧ ∀ n, WasmDisassembler.e_imm_struct e ≠ Some (WasmDisassembler.ImmInt n))
  ∧ (∀ opcode_id opcode_size,
       WasmDisassembler.read_opcode bytecode
         = WasmDisassembler.Return (opcode_id, opcode_size) →
       (table !! opcode_id = None
        ∨ ∃ e n, table !! opcode_id = Some e
                 ∧ WasmDisassembler.e_imm_struct e = Some (WasmDisassembler.ImmInt n)) →
       disassemble_opcode' bytecode offset nature_offset
         = WasmDisassembler.Raises WasmDisassembler.AssertionError)
  ∧ (bytecode = [] ∨ (∃ b0, bytecode = [b0] ∧ WasmDisassembler.byte2int b0 = 0xfc) →
     disassemble_opcode' bytecode offset nature_offset
       = WasmDisassembler.Raises WasmDisassembler.IndexError).
Proof.
  split_and!.
  - intros ins (opcode_id & opcode_size & n & text & _ & Himm & ->)%disassemble_opcode_Return.
    cbv zeta. cbn [WasmDisassembler.opcode WasmDisassembler.name WasmDisassembler.pops
                   WasmDisassembler.pushes WasmDisassembler.description
                   WasmDisassembler.imm_struct_of].
    destruct (table !! opcode_id) as [e|] eqn:He; [by exists e|].
    by destruct (Himm 0).
  - intros opcode_id opcode_size Hread Hbad. unfold WasmDisassembler.disassemble_opcode.
    rewrite Hread. simpl. destruct Hbad as [->|(e & n & -> & Himm)]; simpl; [done|].
    by rewrite Himm.
  - intros [->|(b0 & -> & Hb0)]; [done|].
    unfold WasmDisassembler.disassemble_opcode, WasmDisassembler.read_opcode. simpl.
    by rewrite decide_True by done.
Qed.
End disassemble_opcode_facts.

(** A table with [i32.const]-like entry [0x41] whose immediate is the
    next byte, and [0xfc0a] without immediates. *)
Lemma disassemble_opcode_reads_the_opcode_witness :
  let table : gmap Z (@WasmDisassembler.entry ()) :=
    {[ 0xfc0a := {| WasmDisassembler.e_name := "memory.copy";
                    WasmDisassembler.e_imm_struct := None;
                    WasmDisassembler.e_pops := 3; WasmDisassembler.e_pushes := 0;
                    WasmDisassembler.e_description := "copy" |} ]} in
  let run := WasmDisassembler.disassemble_opcode table
               (λ _ data, (λ b, (1%nat, b)) <$> head data) (∅ : gmap Z ())
               (λ _ _ _, Some "") [Byte.xfc; Byte.x0a; Byte.x00; Byte.x00] 7 7 in
  ∃ ins, run = WasmDisassembler.Return ins
    ∧ WasmDisassembler.opcode ins = 0xfc0a ∧ WasmDisassembler.opcode_size ins = 4
    ∧ WasmDisassembler.insn_byte ins = [Byte.xfc].
Proof.
  intros table run. eexists. split; [reflexivity|].
  pose proof (disassemble_opcode_reads_the_opcode table
                (λ _ data, (λ b, (1%nat, b)) <$> head data) (∅ : gmap Z ())
                (λ _ _ _, Some "") [Byte.xfc; Byte.x0a; Byte.x00; Byte.x00] 7 7 _ eq_refl)
    as ((b0 & rest & Heq & Hop) & Hbytes & _).
  injection Heq as <- <-. simpl in Hop.
  destruct Hop as (b1 & rest' & Heq & Hopc & Hsize). injection Heq as <- <-.
  split_and!; [exact Hopc|exact Hsize|exact Hbytes].
Defined.
(** ** The visitor: how deep the recursion goes *)

Lemma visit_budget_fresh {Instr} (G : Graph Instr) inputs :
  visit_budget G {| w_vis := ∅; w_inputs := inputs |} = size (dom (bbs_graph G)).
Proof.
  unfold visit_budget, size, set_size. simpl.
  generalize (elements (dom (bbs_graph G))). intros l.
  induction l as [|b l IH]; [done|].
  change (Z.to_nat (1 - dd_get ∅ b) + sum_list_with (λ b, Z.to_nat (1 - dd_get ∅ b)) l
          = S (length l))%nat.
  rewrite IH. unfold dd_get. by rewrite lookup_empty.
Qed.

(** X21: started from counters that are all 0, as [traverse_one]
    starts it, an unguided [visit] nests no deeper than the number of
    blocks of the graph plus one: with a recursion budget above the
    number of blocks it ends, by a return or by an exception. *)
Theorem visit_unguided_depth_bound {State Formula Instr HasRet : Type}
    (py_int : string → option Z) (constraints : State → list Formula)
    (emulate_basic_block :
       list (state_item State) → HasRet → list Instr → option (bool * list (state_item State)))
    (solver_check : list Formula → option check_result)
    (G : Graph Instr) (circles : gset string)
    fuel states has_ret blk inputs branches :
  (size (dom (bbs_graph G)) < fuel)%nat →
  visit py_int constraints emulate_basic_block solver_check G circles fuel states has_ret blk
    {| w_vis := ∅; w_inputs := inputs |} false branches ≠ OutOfFuel.
Proof.
  intros Hfuel. apply visit_unguided_terminates. by rewrite visit_budget_fresh.
Qed.

Lemma visit_unguided_depth_bound_witness :
  (size (dom (bbs_graph while_loop)) < 5)%nat
  ∧ toy_visit while_loop while_loop_circles 5 [Flat []] false "b_0"
      {| w_vis := ∅; w_inputs := [] |} false None ≠ OutOfFuel.
Proof.
  assert (size (dom (bbs_graph while_loop)) < 5)%nat as Hsize by (vm_compute; lia).
  split; [exact Hsize|].
  exact (visit_unguided_depth_bound toy_int (@id (list Z)) toy_emulate toy_solver while_loop
           while_loop_circles 5 [Flat []] false "b_0" [] None Hsize).
Defined.
